(** * Synthetic transactional-dataset generator (LLM_DM/src/generator)

    A shallow embedding of [distributions.py], [injector.py] and [core.py].

    - Python floats are IEEE-754 binary64 numbers: Rocq's primitive [float],
      whose operations are specified by [FloatAxioms] against [SpecFloat].
    - Python integers are [Z].
    - A numpy matrix is a list of rows; it is mutated in place, so the code
      that touches it runs in a state-and-exception monad whose state holds
      the matrix and numpy's global random stream.  An exception leaves the
      state as it was at the [raise].
    - numpy's generator is a stream of raw words.  Which number a draw
      returns is decided by the stream alone, so a property that holds for
      every stream holds for every seed and every prior state. *)

From Stdlib Require Import ZArith Floats Lia Bool.
From Stdlib Require Ascii String DecimalString DecimalPos DecimalZ Sorted.
From stdpp Require Import base list gmap strings.

Set Warnings "-inexact-float".

(** ** The Python runtime *)

Module Py.

Inductive exn : Set := ValueError | IndexError | OverflowError.

Inductive result (A : Type) : Type :=
| Ok (a : A)
| Raise (e : exn).
Arguments Ok {A} a.
Arguments Raise {A} e.

(** [float(z)]: round to nearest even; an integer too large for a double
    raises [OverflowError]. *)
Definition float_of_int (z : Z) : result float :=
  let f := SF2Prim (binary_normalize prec emax z 0 false) in
  if is_infinity f then Raise OverflowError else Ok f.

(** [int(x)]: truncation toward zero. *)
Definition int (x : float) : result Z :=
  match Prim2SF x with
  | S754_zero _ => Ok 0%Z
  | S754_finite s m e => Ok (cond_Zopp s (Z.shiftl (Z.pos m) e))
  | S754_infinity _ => Raise OverflowError
  | S754_nan => Raise ValueError
  end.

(** [math.floor(x)]: rounding toward minus infinity. *)
Definition floor (x : float) : result Z :=
  match Prim2SF x with
  | S754_zero _ => Ok 0%Z
  | S754_finite s m e => Ok (Z.shiftl (cond_Zopp s (Z.pos m)) e)
  | S754_infinity _ => Raise OverflowError
  | S754_nan => Raise ValueError
  end.

(** [min(a, b)] on floats keeps its first argument unless the second is
    strictly smaller. *)
Definition min (a b : float) : float := if (b <? a)%float then b else a.

(** [n * x] with [n] an integer and [x] a float. *)
Definition int_mul_float (n : Z) (x : float) : result float :=
  match float_of_int n with
  | Ok f => Ok (f * x)%float
  | Raise e => Raise e
  end.

(** Programs over a mutable state [S] that may raise. *)
Definition prog (S A : Type) : Type := S → result A * S.

Definition ret {S A} (a : A) : prog S A := λ s, (Ok a, s).
Definition raise {S A} (e : exn) : prog S A := λ s, (Raise e, s).
Definition bind {S A B} (m : prog S A) (k : A → prog S B) : prog S B :=
  λ s, match m s with
       | (Ok a, s') => k a s'
       | (Raise e, s') => (Raise e, s')
       end.
Definition lift {S A} (r : result A) : prog S A := λ s, (r, s).

#[global] Instance prog_ret S : MRet (prog S) := λ A, ret.
#[global] Instance prog_bind S : MBind (prog S) := λ A B k m, bind m k.

End Py.

Export Py.

(** ** numpy: matrices and the global random stream *)

Module Np.

(** A two-dimensional integer array of shape [(length rows, ncols)]. *)
Record ndarray : Type := { ncols : nat; rows : list (list Z) }.

Definition shape0 (a : ndarray) : nat := length (rows a).

Definition wf (a : ndarray) : Prop :=
  Forall (λ r, length r = ncols a) (rows a).

(** [np.zeros((t, i))] *)
Definition zeros (t i : Z) : result ndarray :=
  if ((t <? 0) || (i <? 0))%Z then Raise ValueError
  else Ok {| ncols := Z.to_nat i;
             rows := replicate (Z.to_nat t) (replicate (Z.to_nat i) 0%Z) |}.

(** An index into an axis of length [n]: negative indices count from the
    end, anything else out of range raises [IndexError]. *)
Definition index (n : nat) (i : Z) : result nat :=
  if ((0 <=? i) && (i <? Z.of_nat n))%Z then Ok (Z.to_nat i)
  else if ((- Z.of_nat n <=? i) && (i <? 0))%Z then Ok (Z.to_nat (i + Z.of_nat n))
  else Raise IndexError.

Definition cell (a : ndarray) (r c : nat) : Z :=
  default 0%Z (rows a !! r ≫= (.!! c)).

(** [a[r, c] = v] *)
Definition setitem (a : ndarray) (r c : Z) (v : Z) : result ndarray :=
  match index (shape0 a) r, index (ncols a) c with
  | Ok r', Ok c' =>
      Ok {| ncols := ncols a;
            rows := alter (λ row, <[c' := v]> row) r' (rows a) |}
  | Raise e, _ | _, Raise e => Raise e
  end.

(** The state of numpy's global generator: the words it will produce and
    how many have been consumed. *)
Record Rng : Type := { word : nat → N; pos : nat }.

Definition next_word (g : Rng) : N * Rng :=
  (word g (pos g), {| word := word g; pos := S (pos g) |}).

(** The state the generated code runs in: the matrix it was handed (by
    reference) and the global generator. *)
Record world : Type := { arr : ndarray; rng : Rng }.

Definition draw : prog world N :=
  λ w, let '(k, g) := next_word (rng w) in
       (Ok k, {| arr := arr w; rng := g |}).

Definition modify_arr (f : ndarray → result ndarray) : prog world unit :=
  λ w, match f (arr w) with
       | Ok a => (Ok tt, {| arr := a; rng := rng w |})
       | Raise e => (Raise e, w)
       end.

(** [np.random.random()]: a multiple of 2^-53 in [0, 1). *)
Definition unit_float (k : N) : float :=
  (SF2Prim (binary_normalize prec emax (Z.of_N k mod 2 ^ 53) 0 false)
     / 9007199254740992)%float.

Definition random : prog world float :=
  k ← draw; mret (unit_float k).

(** [k] distinct elements of [pool], each picked by one word of the
    stream among those still left. *)
Fixpoint pick_distinct (k : nat) (pool : list nat) : prog world (list nat) :=
  match k with
  | O => mret []
  | S k' =>
      w ← draw;
      let i := N.to_nat (w mod N.of_nat (length pool)) in
      match pool !! i with
      | Some x => xs ← pick_distinct k' (delete i pool); mret (x :: xs)
      | None => mret []
      end
  end.

(** [np.random.choice(a, size=size, replace=False)] for an integer [a]:
    the first [size] entries of a random permutation of [range(a)]. *)
Definition choice (a size : Z) : prog world (list nat) :=
  if ((a <=? 0) && negb (size =? 0))%Z then raise ValueError
  else if ((size <? 0) || (a <? size))%Z then raise ValueError
  else pick_distinct (Z.to_nat size) (seq 0 (Z.to_nat a)).

(** Compensated summation, as [choice] uses it to check [p]. *)
Fixpoint kahan_loop (sum c : float) (l : list float) : float :=
  match l with
  | [] => sum
  | x :: l' =>
      let y := (x - c)%float in
      let t := (sum + y)%float in
      kahan_loop t ((t - sum) - y)%float l'
  end.

Definition kahan_sum (p : list float) : float :=
  match p with
  | [] => 0%float
  | x :: l => kahan_loop x 0%float l
  end.

Definition positive_entries (p : list float) : list nat :=
  filter (λ i, default false ((λ x, (0 <? x)%float) <$> p !! i) = true)
         (seq 0 (length p)).

(** [np.random.choice(a, size=size, replace=False, p=p)]: [p] must be a
    probability vector over [range(a)], and there must be at least [size]
    entries of non-zero probability to draw from. *)
Definition choice_p (a size : Z) (p : list float) : prog world (list nat) :=
  if ((a <=? 0) && negb (size =? 0))%Z then raise ValueError
  else if negb (Z.of_nat (length p) =? a)%Z then raise ValueError
  else if is_nan (kahan_sum p) then raise ValueError
  else if existsb (λ x, (x <? 0)%float) p then raise ValueError
  else if (1.4901161193847656e-08 <? abs (kahan_sum p - 1))%float
       then raise ValueError
  else if ((size <? 0) || (a <? size))%Z then raise ValueError
  else if (Z.of_nat (length (positive_entries p)) <? size)%Z
       then raise ValueError
  else pick_distinct (Z.to_nat size) (positive_entries p).

(** [np.random.poisson(lam)] for an integer rate: a non-negative integer;
    a negative rate, or one above numpy's limit, raises [ValueError]. *)
Definition poisson (lam : Z) : prog world Z :=
  rate ← lift (float_of_int lam);
  if (rate <? 0)%float || (9223372006484770816 <? rate)%float
  then raise ValueError
  else k ← draw; mret (Z.of_N k).

End Np.

Export Np.

(** ** injector.py *)

Module PatternInjector.

(** [PatternInjector(num_transactions, num_items)] *)
Record t : Type := { num_transactions : Z; num_items : Z }.

(** A pattern dictionary: ["items"], ["target_support"] and the optional
    ["noise_ratio"]. *)
Record pattern : Type :=
  { id : string;
    items : list Z;
    target_support : float;
    noise_ratio : option float }.

(** The four argument checks at the head of [inject_pattern]. *)
Definition invalid_items (self : t) (pattern_items : list Z) : bool :=
  existsb (λ item, (item <? 0)%Z || (num_items self <=? item)%Z) pattern_items.

Definition valid_support (target_support : float) : bool :=
  (0 <? target_support)%float && (target_support <=? 1)%float.

Definition valid_noise (noise_ratio : float) : bool :=
  (0 <=? noise_ratio)%float && (noise_ratio <? 1)%float.

(** The number of transactions to inject into. *)
Definition num_injections (self : t) (target_support noise_ratio : float)
  : result Z :=
  if (0 <? noise_ratio)%float then
    let compensation_factor := (1 / (1 - noise_ratio * 0.7))%float in
    let adjusted_support := (target_support * compensation_factor)%float in
    match int_mul_float (num_transactions self) (Py.min adjusted_support 1) with
    | Ok x => Py.int x
    | Raise e => Raise e
    end
  else
    match int_mul_float (num_transactions self) target_support with
    | Ok x => Py.int x
    | Raise e => Raise e
    end.

(** The inner loop: one draw per item, the cell is set when the draw
    exceeds the noise ratio. *)
Fixpoint inject_items (noise_ratio : float) (trans_idx : Z) (pattern_items : list Z)
  : prog world unit :=
  match pattern_items with
  | [] => mret tt
  | item :: rest =>
      u ← random;
      _ ← (if (noise_ratio <? u)%float
           then modify_arr (λ data, setitem data trans_idx item 1)
           else mret tt);
      inject_items noise_ratio trans_idx rest
  end.

(** The outer loop over the selected transactions. *)
Fixpoint inject_rows (noise_ratio : float) (transaction_indices : list nat)
  (pattern_items : list Z) : prog world unit :=
  match transaction_indices with
  | [] => mret tt
  | trans_idx :: rest =>
      _ ← inject_items noise_ratio (Z.of_nat trans_idx) pattern_items;
      inject_rows noise_ratio rest pattern_items
  end.

(** [inject_pattern(data, pattern_items, target_support, noise_ratio)];
    [data] is the matrix of the state, returned as the same object. *)
Definition inject_pattern (self : t) (pattern_items : list Z)
  (target_support noise_ratio : float) : prog world unit :=
  if bool_decide (pattern_items = []) then raise ValueError
  else if invalid_items self pattern_items then raise ValueError
  else if negb (valid_support target_support) then raise ValueError
  else if negb (valid_noise noise_ratio) then raise ValueError
  else
    n ← lift (num_injections self target_support noise_ratio);
    if (n =? 0)%Z then mret tt
    else
      transaction_indices ← choice (num_transactions self) n;
      inject_rows noise_ratio transaction_indices pattern_items.

(** [inject_multiple_patterns(data, patterns)] *)
Fixpoint inject_multiple_patterns (self : t) (patterns : list pattern)
  : prog world unit :=
  match patterns with
  | [] => mret tt
  | p :: rest =>
      _ ← inject_pattern self (items p) (target_support p)
            (default 0%float (noise_ratio p));
      inject_multiple_patterns self rest
  end.

(** The rows of [data] in which every column of [cols] holds 1. *)
Definition has_pattern (cols : list nat) (row : list Z) : bool :=
  forallb (λ c, bool_decide (row !! c = Some 1%Z)) cols.

Definition contains_pattern (data : ndarray) (cols : list nat) : list (list Z) :=
  filter (λ row, has_pattern cols row = true) (rows data).

Definition pattern_count (data : ndarray) (cols : list nat) : nat :=
  length (contains_pattern data cols).

Fixpoint columns (data : ndarray) (pattern_items : list Z) : result (list nat) :=
  match pattern_items with
  | [] => Ok []
  | item :: rest =>
      match index (ncols data) item with
      | Ok c => match columns data rest with
                | Ok cs => Ok (c :: cs)
                | Raise e => Raise e
                end
      | Raise e => Raise e
      end
  end.

(** [a / b] for two 64-bit integers: the quotient of their conversions. *)
Definition int64_div (a b : Z) : float :=
  (SF2Prim (binary_normalize prec emax a 0 false)
     / SF2Prim (binary_normalize prec emax b 0 false))%float.

(** [verify_pattern(data, pattern_items)] *)
Definition verify_pattern (data : ndarray) (pattern_items : list Z) : result float :=
  match pattern_items with
  | [] => Ok 0%float
  | _ =>
      match columns data pattern_items with
      | Ok cols =>
          Ok (int64_div (Z.of_nat (pattern_count data cols))
                        (Z.of_nat (shape0 data)))
      | Raise e => Raise e
      end
  end.

End PatternInjector.

(** ** distributions.py *)

Module DistributionEngine.

(** The numpy and scipy routines the engine calls on floating-point
    arrays.  They are functions of their arguments; nothing else about
    them is assumed. *)
Class Numerics : Type :=
  { np_sum : list float → float;            (* [a.sum()] *)
    np_power : float → float → float;       (* [np.power(x, alpha)], entrywise *)
    norm_pdf : float → float → float → float; (* [norm.pdf(x, loc, scale)] *)
    expon_pdf : float → float → float }.    (* [expon.pdf(x, scale=scale)] *)

Definition float_of_nat (n : nat) : float :=
  SF2Prim (binary_normalize prec emax (Z.of_nat n) 0 false).

(** [np.ones(n)] *)
Definition ones (n : Z) : result (list float) :=
  if (n <? 0)%Z then Raise ValueError else Ok (replicate (Z.to_nat n) 1%float).

(** [np.arange(1, n + 1)], as floats. *)
Definition ranks (n : Z) : list float :=
  (λ i, float_of_nat (S i)) <$> seq 0 (Z.to_nat n).

(** [np.maximum(x, 0)] *)
Definition maximum0 (x : float) : float :=
  if ((0 <=? x)%float || is_nan x) then x else 0%float.

(** [np.linspace(start, stop, num)] *)
Definition linspace (start stop : float) (num : Z) : result (list float) :=
  if (num <? 0)%Z then Raise ValueError
  else
    let n := Z.to_nat num in
    let delta := (stop - start)%float in
    let div := float_of_nat (n - 1) in
    let y :=
      if (0 <? num - 1)%Z then
        let step := (delta / div)%float in
        if (step =? 0)%float
        then (λ i, (float_of_nat i / div * delta + start)%float) <$> seq 0 n
        else (λ i, (float_of_nat i * step + start)%float) <$> seq 0 n
      else (λ i, (float_of_nat i * delta + start)%float) <$> seq 0 n in
    Ok (if (1 <? num)%Z then <[(n - 1)%nat := stop]> y else y).

Section Engine.
Context `{Numerics}.

(** [probs / probs.sum()] *)
Definition normalize (probs : list float) : list float :=
  let s := np_sum probs in (λ p, (p / s)%float) <$> probs.

Definition _random_distribution (num_items : Z) : result (list float) :=
  match ones num_items with
  | Ok probs => Ok (normalize probs)
  | Raise e => Raise e
  end.

Definition _zipf_distribution (num_items : Z) (params : gmap string float)
  : result (list float) :=
  let alpha := default 1.1%float (params !! "alpha") in
  let probs := (λ r, (1 / np_power r alpha)%float) <$> ranks num_items in
  Ok (normalize probs).

Definition _normal_distribution (num_items : Z) (params : gmap string float)
  : result (list float) :=
  let mean := default 0.5%float (params !! "mean") in
  let std := default 0.2%float (params !! "std") in
  match linspace 0 1 num_items with
  | Ok positions =>
      let probs := (λ x, norm_pdf x mean std) <$> positions in
      let probs := maximum0 <$> probs in
      Ok (normalize probs)
  | Raise e => Raise e
  end.

Definition _exponential_distribution (num_items : Z) (params : gmap string float)
  : result (list float) :=
  let scale := default 1%float (params !! "scale") in
  match linspace 0 5 num_items with
  | Ok x => Ok (normalize ((λ v, expon_pdf v scale) <$> x))
  | Raise e => Raise e
  end.

Definition generate_item_frequencies (num_items : Z) (method : string)
  (params : option (gmap string float)) : result (list float) :=
  let params := default ∅ params in
  if bool_decide (method = "random") then _random_distribution num_items
  else if bool_decide (method = "zipf") then _zipf_distribution num_items params
  else if bool_decide (method = "normal") then _normal_distribution num_items params
  else if bool_decide (method = "exponential")
       then _exponential_distribution num_items params
  else Raise ValueError.

End Engine.

End DistributionEngine.

(** ** Python text *)

Module Str.

(** The characters of a Python [str] and the builtins the readers and
    writers of SPMF files call.  Which characters are whitespace, how an
    integer prints and which strings [int] accepts is Python's business;
    nothing is assumed about them here. *)
Class Text : Type :=
  { char : Type;
    char_eq_dec : EqDecision char;
    space : char;                 (* [" "] *)
    newline : char;               (* ["\n"] *)
    carriage_return : char;       (* ["\r"] *)
    isspace : char → bool;        (* [c.isspace()] *)
    str : Z → list char;          (* [str(n)] for an integer *)
    int : list char → result Z }. (* [int(s)] *)

#[global] Existing Instance char_eq_dec.

Section Text.
Context `{Text}.

(** [sep.join(parts)] *)
Fixpoint join (sep : list char) (parts : list (list char)) : list char :=
  match parts with
  | [] => []
  | [p] => p
  | p :: rest => p ++ sep ++ join sep rest
  end.

(** [s.lstrip()] and [s.strip()] *)
Fixpoint lstrip (s : list char) : list char :=
  match s with
  | [] => []
  | c :: s' => if isspace c then lstrip s' else s
  end.

Definition strip (s : list char) : list char :=
  reverse (lstrip (reverse (lstrip s))).

(** [s.split()]: the maximal runs of characters that are not whitespace;
    [word] holds the run being read, last character first. *)
Fixpoint split_from (word s : list char) : list (list char) :=
  match s with
  | [] => match word with [] => [] | _ => [reverse word] end
  | c :: s' =>
      if isspace c then
        match word with
        | [] => split_from [] s'
        | _ => reverse word :: split_from [] s'
        end
      else split_from (c :: word) s'
  end.

Definition split (s : list char) : list (list char) := split_from [] s.

(** The lines [for line in f] yields on a file opened for reading in text
    mode: a line ends after ["\n"], ["\r"] or ["\r\n"], each of which is
    handed over as ["\n"]; [line] holds the line being read, last
    character first. *)
Fixpoint lines_from (line s : list char) : list (list char) :=
  match s with
  | [] => match line with [] => [] | _ => [reverse line] end
  | c :: s' =>
      if decide (c = newline) then reverse (newline :: line) :: lines_from [] s'
      else if decide (c = carriage_return) then
        reverse (newline :: line) ::
        match s' with
        | c' :: s'' => if decide (c' = newline) then lines_from [] s''
                       else lines_from [] s'
        | [] => []
        end
      else lines_from (c :: line) s'
  end.

Definition lines (s : list char) : list (list char) := lines_from [] s.

(** [[int(x) for x in xs]] *)
Fixpoint ints (xs : list (list char)) : result (list Z) :=
  match xs with
  | [] => Ok []
  | x :: rest =>
      match int x with
      | Ok n => match ints rest with
                | Ok ns => Ok (n :: ns)
                | Raise e => Raise e
                end
      | Raise e => Raise e
      end
  end.

End Text.

End Str.

(** ** core.py *)

Module DataGenerator.

Import DistributionEngine.

Record dataset_meta : Type :=
  { num_transactions : Z;
    num_items : Z;
    density : float;
    avg_transaction_len : option Z }.

Record distribution_config : Type :=
  { method : string;
    params : option (gmap string float) }.

Record config : Type :=
  { meta : dataset_meta;
    dist_config : distribution_config;
    pattern_injection : option (list PatternInjector.pattern) }.

(** A [DataGenerator] object: its configuration and [self.data]. *)
Record t : Type := { cfg : config; data : option ndarray }.

(** [DataGenerator(config)] *)
Definition init (c : config) : t := {| cfg := c; data := None |}.

Definition patterns (self : t) : list PatternInjector.pattern :=
  default [] (pattern_injection (cfg self)).

Definition injector (self : t) : PatternInjector.t :=
  {| PatternInjector.num_transactions := num_transactions (meta (cfg self));
     PatternInjector.num_items := num_items (meta (cfg self)) |}.

(** [np.random.seed(seed)]: the stream a seed starts is a function of the
    seed alone. *)
Class Seeding : Type := { init_genrand : Z → nat → N }.

Definition seed_rng `{Seeding} (seed : Z) (g : Rng) : result unit * Rng :=
  if ((seed <? 0) || (2 ^ 32 <=? seed))%Z then (Raise ValueError, g)
  else (Ok tt, {| word := init_genrand seed; pos := 0 |}).

(** The length of the next transaction: drawn around
    [avg_transaction_len] when that is set (and not zero), derived from
    the density otherwise. *)
Definition poisson_len (m : dataset_meta) (avg : Z) : prog world Z :=
  l ← poisson avg;
  mret (Z.max 1 (Z.min l (num_items m))).

Definition density_len (m : dataset_meta) : prog world Z :=
  x ← lift (int_mul_float (num_items m) (density m));
  n ← lift (Py.int x);
  mret (Z.max 1 n).

Definition trans_len (m : dataset_meta) : prog world Z :=
  match avg_transaction_len m with
  | Some avg => if (avg =? 0)%Z then density_len m else poisson_len m avg
  | None => density_len m
  end.

(** [data[i, selected_items] = 1] *)
Fixpoint set_items (i : Z) (selected_items : list nat) : prog world unit :=
  match selected_items with
  | [] => mret tt
  | c :: rest =>
      _ ← modify_arr (λ data, setitem data i (Z.of_nat c) 1);
      set_items i rest
  end.

(** One iteration of the sampling loop. *)
Definition sample_row (m : dataset_meta) (item_probs : list float) (i : nat)
  : prog world unit :=
  l ← trans_len m;
  selected_items ← choice_p (num_items m) l item_probs;
  set_items (Z.of_nat i) selected_items.

Fixpoint sample_rows (m : dataset_meta) (item_probs : list float) (range : list nat)
  : prog world unit :=
  match range with
  | [] => mret tt
  | i :: rest => _ ← sample_row m item_probs i; sample_rows m item_probs rest
  end.

(** [_generate_transactions(item_probs)]: a fresh matrix, filled row by
    row from the global stream. *)
Definition _generate_transactions (m : dataset_meta) (item_probs : list float)
  (g : Rng) : result ndarray * Rng :=
  match zeros (num_transactions m) (num_items m) with
  | Raise e => (Raise e, g)
  | Ok z =>
      match sample_rows m item_probs (seq 0 (Z.to_nat (num_transactions m)))
              {| arr := z; rng := g |} with
      | (Ok _, w) => (Ok (arr w), rng w)
      | (Raise e, w) => (Raise e, rng w)
      end
  end.

Section Generate.
Context `{Numerics} `{Seeding}.

(** [generate(seed)]: the matrix returned (or the exception), the
    generator object and the global stream afterwards. *)
Definition generate (self : t) (seed : option Z) (g : Rng)
  : result ndarray * t * Rng :=
  let '(seeded, g) :=
    match seed with
    | Some s => seed_rng s g
    | None => (Ok tt, g)
    end in
  match seeded with
  | Raise e => (Raise e, self, g)
  | Ok _ =>
      let c := cfg self in
      match generate_item_frequencies (num_items (meta c))
              (method (dist_config c)) (params (dist_config c)) with
      | Raise e => (Raise e, self, g)
      | Ok item_probs =>
          match _generate_transactions (meta c) item_probs g with
          | (Raise e, g) => (Raise e, self, g)
          | (Ok base, g) =>
              match patterns self with
              | [] => (Ok base, {| cfg := c; data := Some base |}, g)
              | ps =>
                  let '(r, w) :=
                    PatternInjector.inject_multiple_patterns (injector self) ps
                      {| arr := base; rng := g |} in
                  (match r with Ok _ => Ok (arr w) | Raise e => Raise e end,
                   {| cfg := c; data := Some (arr w) |}, rng w)
              end
          end
      end
  end.

End Generate.

(** The exceptions of the methods that need [generate] to have run. *)
Inductive exception : Set := RuntimeError | Builtin (e : exn).

Inductive answer (A : Type) : Type :=
| Return (a : A)
| Fail (e : exception).
Arguments Return {A} a.
Arguments Fail {A} e.

(** [a.sum()] on integers, [self.data.sum(axis=1)] and
    [self.data.sum(axis=0)] *)
Definition sum_list (l : list Z) : Z := foldr Z.add 0%Z l.

Definition sum_axis1 (a : ndarray) : list Z := sum_list <$> rows a.

Definition sum_axis0 (a : ndarray) : list Z :=
  (λ c, sum_list ((λ row, default 0%Z (row !! c)) <$> rows a)) <$> seq 0 (ncols a).

(** [a.min()], [a.max()] and [a.argmax()]: an empty array raises
    [ValueError]; of several largest entries [argmax] gives the first. *)
Definition np_min (l : list Z) : result Z :=
  match l with
  | [] => Raise ValueError
  | x :: l' => Ok (foldl Z.min x l')
  end.

Definition np_max (l : list Z) : result Z :=
  match l with
  | [] => Raise ValueError
  | x :: l' => Ok (foldl Z.max x l')
  end.

Fixpoint argmax_from (best : nat) (best_value : Z) (i : nat) (l : list Z) : nat :=
  match l with
  | [] => best
  | x :: l' =>
      if (best_value <? x)%Z then argmax_from i x (S i) l'
      else argmax_from best best_value (S i) l'
  end.

Definition argmax (l : list Z) : result nat :=
  match l with
  | [] => Raise ValueError
  | x :: l' => Ok (argmax_from 0 x 1 l')
  end.

(** numpy's floating-point reductions of an integer vector. *)
Class Moments : Type :=
  { np_mean : list Z → float;   (* [a.mean()] *)
    np_std : list Z → float }.  (* [a.std()] *)

(** The dictionaries [get_statistics] returns. *)
Record pattern_statistics : Type :=
  { pattern_id : string;
    pattern_items : list Z;
    pattern_target_support : float;
    actual_support : float }.

Record statistics : Type :=
  { stat_num_transactions : Z;
    stat_num_items : Z;
    total_entries : Z;
    actual_density : float;
    avg_transaction_length : float;
    std_transaction_length : float;
    min_transaction_length : Z;
    max_transaction_length : Z;
    most_frequent_item : nat;
    max_item_frequency : Z;
    min_item_frequency : Z;
    num_patterns_injected : nat;
    injected_patterns : option (list pattern_statistics) }.

(** The loop over [self.patterns] at the end of [get_statistics]; the
    field [id] of a pattern is what [pattern.get("id", "unknown")]
    gives. *)
Fixpoint verify_patterns (d : ndarray) (ps : list PatternInjector.pattern)
  : result (list pattern_statistics) :=
  match ps with
  | [] => Ok []
  | p :: rest =>
      match PatternInjector.verify_pattern d (PatternInjector.items p) with
      | Ok support =>
          match verify_patterns d rest with
          | Ok entries =>
              Ok ({| pattern_id := PatternInjector.id p;
                     pattern_items := PatternInjector.items p;
                     pattern_target_support := PatternInjector.target_support p;
                     actual_support := support |} :: entries)
          | Raise e => Raise e
          end
      | Raise e => Raise e
      end
  end.

(** [get_statistics()] *)
Definition get_statistics `{Moments} (self : t) : answer statistics :=
  match data self with
  | None => Fail RuntimeError
  | Some d =>
      let transaction_lengths := sum_axis1 d in
      let item_frequencies := sum_axis0 d in
      let m := meta (cfg self) in
      match np_min transaction_lengths, np_max transaction_lengths,
            argmax item_frequencies, np_max item_frequencies,
            np_min item_frequencies with
      | Ok min_len, Ok max_len, Ok most, Ok max_freq, Ok min_freq =>
          let stats injected :=
            {| stat_num_transactions := num_transactions m;
               stat_num_items := num_items m;
               total_entries := sum_list transaction_lengths;
               actual_density :=
                 PatternInjector.int64_div (sum_list transaction_lengths)
                   (num_transactions m * num_items m);
               avg_transaction_length := np_mean transaction_lengths;
               std_transaction_length := np_std transaction_lengths;
               min_transaction_length := min_len;
               max_transaction_length := max_len;
               most_frequent_item := most;
               max_item_frequency := max_freq;
               min_item_frequency := min_freq;
               num_patterns_injected := length (patterns self);
               injected_patterns := injected |} in
          match patterns self with
          | [] => Return (stats None)
          | ps =>
              match verify_patterns d ps with
              | Ok entries => Return (stats (Some entries))
              | Raise e => Fail (Builtin e)
              end
          end
      | Raise e, _, _, _, _ | _, Raise e, _, _, _ | _, _, Raise e, _, _
      | _, _, _, Raise e, _ | _, _, _, _, Raise e => Fail (Builtin e)
      end
  end.

(** [np.where(transaction == 1)[0]]: the columns that hold 1, in
    increasing order. *)
Definition where_one (transaction : list Z) : list nat :=
  filter (λ i, transaction !! i = Some 1%Z) (seq 0 (length transaction)).

Section Spmf.
Context `{Str.Text}.

(** [" ".join(map(str, items)) + "\n"] *)
Definition spmf_line (items : list Z) : list Str.char :=
  Str.join [Str.space] (Str.str <$> items) ++ [Str.newline].

(** [to_spmf(filepath)]: the text written to the file. *)
Definition to_spmf (self : t) : answer (list Str.char) :=
  match data self with
  | None => Fail RuntimeError
  | Some d =>
      Return (concat ((λ transaction, spmf_line (Z.of_nat <$> where_one transaction))
                        <$> rows d))
  end.

End Spmf.

End DataGenerator.

(** ** utils/file_io.py: SPMF files *)

Module FileIO.

Section Spmf.
Context `{Str.Text}.

(** [write_spmf(transactions, filepath)]: the text written to the file. *)
Definition write_spmf (transactions : list (list Z)) : list Str.char :=
  concat ((λ transaction, Str.join [Str.space] (Str.str <$> transaction)
                          ++ [Str.newline]) <$> transactions).

(** The body of the loop of [read_spmf], over the lines of the file. *)
Fixpoint read_lines (ls : list (list Str.char)) : result (list (list Z)) :=
  match ls with
  | [] => Ok []
  | line :: rest =>
      let line := Str.strip line in
      match line with
      | [] => read_lines rest
      | _ =>
          match Str.ints (filter (λ x, Str.strip x ≠ []) (Str.split line)) with
          | Ok items =>
              match read_lines rest with
              | Ok transactions => Ok (items :: transactions)
              | Raise e => Raise e
              end
          | Raise e => Raise e
          end
      end
  end.

(** [read_spmf(filepath)], from the text of the file. *)
Definition read_spmf (content : list Str.char) : result (list (list Z)) :=
  read_lines (Str.lines content).

End Spmf.

End FileIO.

(** ** Predicates used in the statements *)

Module Props.

Import PatternInjector.

(** The precondition of [inject_pattern]: a non-empty list of item ids in
    range, a support in (0, 1], a noise ratio in [0, 1). *)
Definition valid_call (self : PatternInjector.t) (pattern_items : list Z)
  (target_support noise_ratio : float) : Prop :=
  pattern_items ≠ [] ∧
  Forall (λ item, (0 ≤ item < num_items self)%Z) pattern_items ∧
  ((0 <? target_support)%float = true ∧ (target_support <=? 1)%float = true) ∧
  ((0 <=? noise_ratio)%float = true ∧ (noise_ratio <? 1)%float = true).

Definition valid_pattern (self : PatternInjector.t) (p : pattern) : Prop :=
  valid_call self (items p) (target_support p) (default 0%float (noise_ratio p)).

(** Every cell is 0 or 1. *)
Definition binary (a : ndarray) : Prop :=
  Forall (Forall (λ v, v = 0%Z ∨ v = 1%Z)) (rows a).

(** [a'] has the shape of [a] and no cell of it is smaller. *)
Definition grows (a a' : ndarray) : Prop :=
  ncols a' = ncols a ∧ Forall2 (Forall2 Z.le) (rows a) (rows a').

(** What a program may do to a binary matrix: keep it binary and only
    raise cells. *)
Definition only_sets (a a' : ndarray) : Prop :=
  binary a → binary a' ∧ grows a a'.

(** A program whose effect on the matrix is within [R], whatever the
    state it starts from and whether it returns or raises. *)
Definition arr_rel {A} (R : ndarray → ndarray → Prop) (m : prog world A) : Prop :=
  ∀ w, R (arr w) (arr (m w).2).

(** How a matrix [a'] relates to the matrix [a] it was before an
    injection that never clears a cell: same shape, every cell at least
    what it was, and for every item set a support that did not decrease.
    A matrix without rows has the support 0/0, which is not a number and
    compares with nothing; numpy has no axis of 2^63 entries or more. *)
Definition never_clears (a a' : ndarray) : Prop :=
  (shape0 a' = shape0 a ∧ ncols a' = ncols a) ∧
  (∀ r c, (cell a r c ≤ cell a' r c)%Z) ∧
  (∀ its,
     match verify_pattern a its, verify_pattern a' its with
     | Ok s, Ok s' =>
         (0 < Z.of_nat (shape0 a) < 2 ^ 63)%Z → (s <=? s')%float = true
     | Raise e, Raise e' => e = e'
     | _, _ => False
     end).

(** The generator after [k] more words have been consumed. *)
Definition advance (g : Rng) (k : nat) : Rng :=
  {| word := word g; pos := k + pos g |}.

(** Whether the [m] draws that start at position [p] of the stream all
    exceed the noise ratio, and in how many of [n] consecutive groups of
    [m] draws they do. *)
Definition kept_at (noise_ratio : float) (words : nat → N) (p m : nat) : bool :=
  forallb (λ k, (noise_ratio <? unit_float (words (p + k)%nat))%float) (seq 0 m).

Fixpoint kept_count (noise_ratio : float) (words : nat → N) (p m n : nat) : nat :=
  match n with
  | O => 0
  | S n' => (if kept_at noise_ratio words p m then 1 else 0)
            + kept_count noise_ratio words (m + p) m n'
  end.

(** The number of transactions to target, as the specification words
    it: with noise, [floor(num_transactions * min(target_support *
    (1 / (1 - 0.7 * noise_ratio)), 1.0))]; without,
    [floor(num_transactions * target_support)]. *)
Definition targeted (num_transactions : Z) (target_support noise_ratio : float)
  : result Z :=
  let adjusted :=
    if (0 <? noise_ratio)%float
    then Py.min (target_support * (1 / (1 - 0.7 * noise_ratio)))%float 1
    else target_support in
  match int_mul_float num_transactions adjusted with
  | Ok x => Py.floor x
  | Raise e => Raise e
  end.

(** A float that is not negative: its sign bit is clear, or it is not a
    number at all. *)
Definition has_sign (s : bool) (x : spec_float) : Prop :=
  match x with
  | S754_nan => True
  | S754_zero s' | S754_infinity s' | S754_finite s' _ _ => s' = s
  end.

Definition sign_clear (x : spec_float) : Prop := has_sign false x.

(** Where a remainder [r] of a division by [d] lies: at zero, or below,
    at or above the half of [d]. *)
Definition loc_of_rem (d r : Z) : location :=
  if (r =? 0)%Z then loc_Exact else loc_Inexact (2 * r ?= d)%Z.

(** [n / d] rounded to the nearest integer, ties to even. *)
Definition rne (n d : Z) : Z :=
  round_nearest_even (n / d)%Z (loc_of_rem d (n mod d)%Z).

(** The double with mantissa [m] in [2^52, 2^53] and exponent [e]: a
    mantissa that rounding carried up to 2^53 moves to the next exponent,
    and an exponent past the largest one gives infinity. *)
Definition normal_float (m e : Z) : spec_float :=
  let '(m2, e2) := if (m <? 2 ^ 53)%Z then (m, e) else (2 ^ 52, e + 1)%Z in
  if (e2 <=? emax - prec)%Z then S754_finite false (Z.to_pos m2) e2
  else S754_infinity false.

(** The double a rounded mantissa [m] and its exponent [e] stand for:
    zero, or the double of [normal_float], which also holds the
    subnormal ones (a mantissa below 2^52 at the least exponent). *)
Definition round_float (m e : Z) : spec_float :=
  if (m =? 0)%Z then S754_zero false else normal_float m e.

(** A positive normal double with an exponent between [lo] and [hi]: its
    mantissa has exactly 53 bits. *)
Definition normal53 (x : spec_float) (lo hi : Z) : Prop :=
  ∃ m e, x = S754_finite false m e ∧
    (2 ^ 52 ≤ Z.pos m < 2 ^ 53)%Z ∧ (lo ≤ e ≤ hi)%Z.

(** Two matrices that agree in every column that is not one of the items
    [l]. *)
Definition same_outside (l : list Z) (a a' : ndarray) : Prop :=
  ∀ r c, Z.of_nat c ∉ l → cell a' r c = cell a r c.

(** What the round trips through an SPMF file need to know of Python's
    text: the blank and the two line terminators are whitespace and
    differ from one another, the decimal form of an integer is not empty,
    holds no whitespace and is read back by [int] as that integer. *)
Record python_text `{Str.Text} : Prop :=
  { isspace_space : Str.isspace Str.space = true;
    isspace_newline : Str.isspace Str.newline = true;
    isspace_carriage_return : Str.isspace Str.carriage_return = true;
    space_not_newline : Str.space ≠ Str.newline;
    space_not_carriage_return : Str.space ≠ Str.carriage_return;
    str_nonempty : ∀ n, Str.str n ≠ [];
    str_no_space : ∀ n, Forall (λ c, Str.isspace c = false) (Str.str n);
    int_str : ∀ n, Str.int (Str.str n) = Ok n }.

(** A token: a non-empty run of characters none of which is whitespace. *)
Definition token `{Str.Text} (x : list Str.char) : Prop :=
  x ≠ [] ∧ Forall (λ c, Str.isspace c = false) x.

(** The generator with the patterns taken out of its configuration. *)
Definition without_patterns (self : DataGenerator.t) : DataGenerator.t :=
  {| DataGenerator.cfg :=
       {| DataGenerator.meta := DataGenerator.meta (DataGenerator.cfg self);
          DataGenerator.dist_config := DataGenerator.dist_config (DataGenerator.cfg self);
          DataGenerator.pattern_injection := None |};
     DataGenerator.data := DataGenerator.data self |}.

(** [np.power] on the bases and exponents of a Zipf distribution: for an
    exponent that is not negative, the power of a base of at least one is
    positive and does not decrease with the base. *)
Definition power_monotone `{DistributionEngine.Numerics} : Prop :=
  ∀ a x y : float,
    (0 <=? a)%float = true → (1 <=? x)%float = true → (x <=? y)%float = true →
    (0 <? DistributionEngine.np_power x a)%float = true ∧
    (DistributionEngine.np_power x a <=? DistributionEngine.np_power y a)%float = true.

End Props.

(** ** Concrete environments for the examples *)

Module Examples.

Import DistributionEngine DataGenerator.

(** An environment for the uniform distribution: the sum adds the
    entries from left to right; the power and density routines, which the
    uniform distribution never calls, return nan. *)
Definition left_sum : Numerics :=
  {| np_sum := λ a, fold_left PrimFloat.add a 0%float;
     np_power := λ _ _, nan;
     norm_pdf := λ _ _ _, nan;
     expon_pdf := λ _ _, nan |}.

(** A seeding function and two streams. *)
Definition counting : Seeding :=
  {| init_genrand := λ seed i, (Z.to_N seed + N.of_nat i)%N |}.

Definition ones_rng : Rng := {| word := λ _, 1%N; pos := 0 |}.
Definition halves_rng : Rng := {| word := λ _, 4503599627370496%N; pos := 0 |}.

(** A 4 x 5 matrix of zeros with one cell set. *)
Definition small : ndarray :=
  {| ncols := 5;
     rows := [[0; 0; 0; 0; 0]; [0; 1; 0; 0; 0]; [0; 0; 0; 0; 0]; [0; 0; 0; 0; 0]]%Z |}.

Definition small_injector : PatternInjector.t :=
  {| PatternInjector.num_transactions := 4; PatternInjector.num_items := 5 |}.

Definition good_pattern : PatternInjector.pattern :=
  {| PatternInjector.id := "p1"; PatternInjector.items := [1; 3]%Z;
     PatternInjector.target_support := 0.5; PatternInjector.noise_ratio := None |}.

Definition empty_pattern : PatternInjector.pattern :=
  {| PatternInjector.id := "p2"; PatternInjector.items := [];
     PatternInjector.target_support := 0.5; PatternInjector.noise_ratio := None |}.

Definition small_config : config :=
  {| meta := {| num_transactions := 4; num_items := 5; density := 0.5;
                avg_transaction_len := None |};
     dist_config := {| method := "random"; params := Some ∅ |};
     pattern_injection := Some [good_pattern] |}.

(** One transaction over two items of which only the first has a
    non-zero probability, at a density that asks for both. *)
Definition one_nonzero_meta : dataset_meta :=
  {| num_transactions := 1; num_items := 2; density := 1;
     avg_transaction_len := None |}.

Definition one_nonzero_probs : list float := [1; 0]%float.

(** The injector, the pattern and the all-zero 1000 x 50 matrix of
    [test_inject_simple_pattern]. *)
Definition test_injector : PatternInjector.t :=
  {| PatternInjector.num_transactions := 1000; PatternInjector.num_items := 50 |}.

Definition test_pattern : list Z := [5; 10; 15]%Z.

Definition zero_matrix : ndarray :=
  {| ncols := 50; rows := replicate 1000 (replicate 50 0%Z) |}.

(** A stream whose word number 100 is 0 and whose other words are 1:
    after the 100 words that select the rows, the first
    [np.random.random()] returns 0.0 and every later one 2^-53. *)
Definition zero_draw_rng : Rng :=
  {| word := λ i, if Nat.eqb i 100 then 0%N else 1%N; pos := 0 |}.

(** Text over ASCII characters, with Python's ASCII whitespace and
    integers printed and read in plain decimal. *)
Definition ascii_isspace (c : Ascii.ascii) : bool :=
  let n := Ascii.nat_of_ascii c in
  ((9 <=? n) && (n <=? 13)) || ((28 <=? n) && (n <=? 32)).

Definition ascii_text : Str.Text :=
  {| Str.char := Ascii.ascii;
     Str.char_eq_dec := Ascii.ascii_dec;
     Str.space := Ascii.ascii_of_nat 32;
     Str.newline := Ascii.ascii_of_nat 10;
     Str.carriage_return := Ascii.ascii_of_nat 13;
     Str.isspace := ascii_isspace;
     Str.str := λ n,
       String.list_ascii_of_string
         (DecimalString.NilZero.string_of_int (Z.to_int n));
     Str.int := λ s,
       match DecimalString.NilZero.int_of_string (String.string_of_list_ascii s) with
       | Some d => Ok (Z.of_int d)
       | None => Raise ValueError
       end |}.

(** Floating-point reductions that no statement below looks at. *)
Definition no_moments : Moments := {| np_mean := λ _, nan; np_std := λ _, nan |}.

(** A stand-in for [np.power] that is exact at the exponents 1 and -1:
    the base for an exponent that is not negative, its reciprocal for a
    negative one; sums from left to right. *)
Definition reciprocal_powers : Numerics :=
  {| np_sum := λ a, fold_left PrimFloat.add a 0%float;
     np_power := λ x a, if (a <? 0)%float then (1 / x)%float else x;
     norm_pdf := λ _ _ _, nan;
     expon_pdf := λ _ _, nan |}.

End Examples.

(** * Properties *)

Import PatternInjector Props.

(** ** Running programs *)

Lemma run_bind {S A B} (m : prog S A) (k : A → prog S B) (s : S) :
  (m ≫= k) s = match m s with
               | (Ok a, s') => k a s'
               | (Raise e, s') => (Raise e, s')
               end.
Proof. reflexivity. Qed.

Lemma run_ret {S A} (a : A) (s : S) : (mret a : prog S A) s = (Ok a, s).
Proof. reflexivity. Qed.

Lemma run_bind_ok {S A B} (m : prog S A) (k : A → prog S B) s a s' :
  m s = (Ok a, s') → (m ≫= k) s = k a s'.
Proof. intros E. rewrite run_bind, E. reflexivity. Qed.

Lemma run_bind_raise {S A B} (m : prog S A) (k : A → prog S B) s e s' :
  m s = (Raise e, s') → (m ≫= k) s = (Raise e, s').
Proof. intros E. rewrite run_bind, E. reflexivity. Qed.

(** ** Argument validation in [inject_pattern] *)

Lemma invalid_items_false self l :
  invalid_items self l = false ↔ Forall (λ item, (0 ≤ item < num_items self)%Z) l.
Proof.
  unfold invalid_items. induction l as [|x l IH]; simpl.
  - split; auto.
  - rewrite orb_false_iff, IH, Forall_cons.
    rewrite orb_false_iff, Z.ltb_ge, Z.leb_gt. tauto.
Qed.

(** Once the arguments are valid, what is left of [inject_pattern] is the
    count, the selection and the two loops. *)
Lemma inject_pattern_valid self l ts nr :
  valid_call self l ts nr →
  inject_pattern self l ts nr =
    (n ← lift (num_injections self ts nr);
     if (n =? 0)%Z then mret tt
     else transaction_indices ← choice (num_transactions self) n;
          inject_rows nr transaction_indices l).
Proof.
  intros (Hne & Hit & [Ht1 Ht2] & [Hn1 Hn2]). unfold inject_pattern.
  rewrite bool_decide_eq_false_2 by done.
  rewrite (proj2 (invalid_items_false _ _) Hit).
  unfold valid_support, valid_noise. rewrite Ht1, Ht2, Hn1, Hn2. reflexivity.
Qed.

Lemma inject_pattern_invalid self l ts nr w :
  ¬ valid_call self l ts nr →
  inject_pattern self l ts nr w = (Raise ValueError, w).
Proof.
  intros Hn. unfold inject_pattern.
  case_bool_decide; [done|].
  destruct (invalid_items self l) eqn:Hi; [done|].
  destruct (valid_support ts) eqn:Hs; [|done].
  destruct (valid_noise nr) eqn:Hnr; [|done].
  exfalso. apply Hn. split; [done|]. split; [by apply invalid_items_false|].
  unfold valid_support, valid_noise in *.
  apply andb_true_iff in Hs, Hnr. done.
Qed.

Lemma inject_multiple_app self ps1 ps2 w :
  inject_multiple_patterns self (ps1 ++ ps2) w =
    match inject_multiple_patterns self ps1 w with
    | (Ok _, w1) => inject_multiple_patterns self ps2 w1
    | (Raise e, w1) => (Raise e, w1)
    end.
Proof.
  revert w. induction ps1 as [|p ps1 IH]; intros w; simpl.
  - reflexivity.
  - rewrite !run_bind.
    destruct (inject_pattern self _ _ _ w) as [[[]|e] w']; [apply IH|reflexivity].
Qed.

(** C6. A call of [inject_pattern] whose arguments violate a precondition
    (empty item list, an item outside [0, num_items), a support outside
    (0, 1], a noise ratio outside [0, 1)) raises [ValueError] and leaves the
    matrix (and the random stream) as they were; inside
    [inject_multiple_patterns] such a pattern stops the whole batch: the
    patterns before it stay applied, the ones after it are never run. *)
Theorem invalid_pattern_fails_fast (self : PatternInjector.t) (bad : pattern) :
  ¬ valid_pattern self bad →
  (∀ w, inject_pattern self (items bad) (target_support bad)
          (default 0%float (noise_ratio bad)) w = (Raise ValueError, w)) ∧
  (∀ ps1 ps2 w w1,
     inject_multiple_patterns self ps1 w = (Ok tt, w1) →
     inject_multiple_patterns self (ps1 ++ bad :: ps2) w = (Raise ValueError, w1)).
Proof.
  intros Hbad. split.
  - intros w. by apply inject_pattern_invalid.
  - intros ps1 ps2 w w1 H1.
    rewrite inject_multiple_app, H1. simpl.
    rewrite run_bind, inject_pattern_invalid by done. reflexivity.
Qed.

(** ** Programs that only set cells *)

Lemma grows_refl a : grows a a.
Proof.
  split; [done|]. apply Forall2_same_length_lookup_2; [done|].
  intros i x y Hx Hy. simplify_eq.
  apply Forall2_same_length_lookup_2; [done|]. intros; simplify_eq; lia.
Qed.

Lemma grows_trans a b c : grows a b → grows b c → grows a c.
Proof.
  intros [H1 H2] [H3 H4]. split; [congruence|].
  eapply Forall2_trans; [| exact H2 | exact H4].
  intros x y z Hxy Hyz. eapply Forall2_trans; [| exact Hxy | exact Hyz].
  intros; lia.
Qed.

Lemma only_sets_refl a : only_sets a a.
Proof. intros Hb. split; [done|apply grows_refl]. Qed.

Lemma only_sets_trans a b c : only_sets a b → only_sets b c → only_sets a c.
Proof.
  intros H1 H2 Ha. destruct (H1 Ha) as [Hb Hab]. destruct (H2 Hb) as [Hc Hbc].
  split; [done|]. by eapply grows_trans.
Qed.

Lemma grows_cell a a' r c : grows a a' → (cell a r c ≤ cell a' r c)%Z.
Proof.
  intros [_ H]. unfold cell.
  destruct (rows a !! r) as [row|] eqn:Hr; simpl.
  - destruct (Forall2_lookup_l _ _ _ _ _ H Hr) as (row' & Hr' & Hrow). rewrite Hr'. simpl.
    destruct (row !! c) as [v|] eqn:Hc; simpl.
    + destruct (Forall2_lookup_l _ _ _ _ _ Hrow Hc) as (v' & -> & Hv). done.
    + apply Forall2_length in Hrow.
      rewrite (proj2 (lookup_ge_None row' c)); [done|].
      apply lookup_ge_None in Hc. lia.
  - apply Forall2_length in H. rewrite (proj2 (lookup_ge_None (rows a') r)); [done|].
    apply lookup_ge_None in Hr. lia.
Qed.

Lemma grows_shape a a' : grows a a' → shape0 a' = shape0 a ∧ ncols a' = ncols a.
Proof. intros [H1 H2]. split; [|done]. unfold shape0. by apply Forall2_length in H2. Qed.

Lemma insert_one_le (row : list Z) c :
  Forall (λ v, v = 0 ∨ v = 1)%Z row → Forall2 Z.le row (<[c := 1%Z]> row).
Proof.
  intros Hrow. apply Forall2_same_length_lookup_2; [by rewrite length_insert|].
  intros i x y Hx Hy. destruct (decide (c = i)) as [->|Hne].
  - rewrite list_lookup_insert_eq in Hy by (by eapply lookup_lt_Some). simplify_eq.
    rewrite Forall_lookup in Hrow. destruct (Hrow _ _ Hx); lia.
  - rewrite list_lookup_insert_ne in Hy by done. simplify_eq. lia.
Qed.

Lemma setitem_only_sets a r c a' :
  setitem a r c 1 = Ok a' → only_sets a a'.
Proof.
  unfold setitem. intros Hs Hb.
  destruct (index (shape0 a) r) as [r'|]; [|done].
  destruct (index (ncols a) c) as [c'|]; [|done]. simplify_eq.
  unfold binary, grows in *. simpl. split; [|split; [done|]].
  - apply Forall_alter; [done|]. intros row Hr Hrow.
    apply Forall_insert; [done|by right].
  - apply Forall2_same_length_lookup_2; [by rewrite length_alter|].
    intros i x y Hx Hy. destruct (decide (r' = i)) as [->|Hne].
    + rewrite list_lookup_alter_eq, Hx in Hy. simpl in Hy. simplify_eq.
      apply insert_one_le. rewrite Forall_lookup in Hb. by eapply Hb.
    + rewrite list_lookup_alter_ne in Hy by done. simplify_eq.
      apply Forall2_same_length_lookup_2; [done|]. intros; simplify_eq; lia.
Qed.

#[local] Instance only_sets_preorder : PreOrder only_sets.
Proof. split; [intros a; apply only_sets_refl | intros a b c; apply only_sets_trans]. Qed.

Section ArrRel.
Context (R : ndarray → ndarray → Prop) `{!PreOrder R}.

Lemma arr_rel_ret {A} (a : A) : arr_rel R (mret a).
Proof. intros w. simpl. reflexivity. Qed.

Lemma arr_rel_raise {A} e : arr_rel R (raise e : prog world A).
Proof. intros w. simpl. reflexivity. Qed.

Lemma arr_rel_lift {A} (r : result A) : arr_rel R (lift r).
Proof. intros w. simpl. reflexivity. Qed.

Lemma arr_rel_bind {A B} (m : prog world A) (k : A → prog world B) :
  arr_rel R m → (∀ a, arr_rel R (k a)) → arr_rel R (m ≫= k).
Proof.
  intros Hm Hk w. rewrite run_bind. specialize (Hm w).
  destruct (m w) as [[a|e] w']; simpl in *; [|done].
  etransitivity; [exact Hm|apply Hk].
Qed.

Lemma arr_rel_draw : arr_rel R draw.
Proof. intros w. unfold draw. simpl. reflexivity. Qed.

Lemma arr_rel_random : arr_rel R random.
Proof. apply arr_rel_bind; [apply arr_rel_draw|intros; apply arr_rel_ret]. Qed.

Lemma arr_rel_pick_distinct k pool : arr_rel R (pick_distinct k pool).
Proof.
  revert pool. induction k as [|k IH]; intros pool; simpl; [apply arr_rel_ret|].
  apply arr_rel_bind; [apply arr_rel_draw|]. intros w.
  destruct (pool !! _); [|apply arr_rel_ret].
  apply arr_rel_bind; [apply IH|intros; apply arr_rel_ret].
Qed.

Lemma arr_rel_choice a size : arr_rel R (choice a size).
Proof.
  unfold choice. repeat case_match; try apply arr_rel_raise.
  apply arr_rel_pick_distinct.
Qed.

Lemma arr_rel_choice_p a size p : arr_rel R (choice_p a size p).
Proof.
  unfold choice_p. repeat case_match; try apply arr_rel_raise.
  apply arr_rel_pick_distinct.
Qed.

Lemma arr_rel_poisson lam : arr_rel R (poisson lam).
Proof.
  unfold poisson. apply arr_rel_bind; [apply arr_rel_lift|]. intros rate.
  case_match; [apply arr_rel_raise|].
  apply arr_rel_bind; [apply arr_rel_draw|intros; apply arr_rel_ret].
Qed.

Lemma arr_rel_modify f :
  (∀ a a', f a = Ok a' → R a a') → arr_rel R (modify_arr f).
Proof.
  intros Hf w. unfold modify_arr. destruct (f (arr w)) eqn:E; simpl; [by apply Hf|reflexivity].
Qed.
End ArrRel.

Lemma inject_items_only_sets nr r l : arr_rel only_sets (inject_items nr r l).
Proof.
  induction l as [|c l IH]; simpl; [apply arr_rel_ret, _|].
  apply arr_rel_bind; [apply _|apply arr_rel_random, _|]. intros u.
  apply arr_rel_bind; [apply _| |intros; apply IH].
  case_match; [|apply arr_rel_ret, _].
  apply arr_rel_modify; [apply _|]. intros a a'. apply setitem_only_sets.
Qed.

Lemma inject_rows_only_sets nr idxs l : arr_rel only_sets (inject_rows nr idxs l).
Proof.
  induction idxs as [|r idxs IH]; simpl; [apply arr_rel_ret, _|].
  apply arr_rel_bind; [apply _|apply inject_items_only_sets|intros; apply IH].
Qed.

Lemma inject_pattern_only_sets self l ts nr : arr_rel only_sets (inject_pattern self l ts nr).
Proof.
  unfold inject_pattern. repeat case_match; try apply arr_rel_raise, _.
  apply arr_rel_bind; [apply _|apply arr_rel_lift, _|]. intros n.
  case_match; [apply arr_rel_ret, _|].
  apply arr_rel_bind; [apply _|apply arr_rel_choice, _|]. intros idxs.
  apply inject_rows_only_sets.
Qed.

Lemma inject_multiple_only_sets self ps : arr_rel only_sets (inject_multiple_patterns self ps).
Proof.
  induction ps as [|p ps IH]; simpl; [apply arr_rel_ret, _|].
  apply arr_rel_bind; [apply _|apply inject_pattern_only_sets|intros; apply IH].
Qed.

(** ** What an injection does to a matrix, draw by draw *)

Lemma index_in_range n i : i < n → index n (Z.of_nat i) = Ok i.
Proof.
  intros Hi. unfold index.
  rewrite (proj2 (Z.leb_le _ _)), (proj2 (Z.ltb_lt _ _)) by lia. simpl.
  by rewrite Nat2Z.id.
Qed.

Lemma setitem_in_range a r c row :
  rows a !! r = Some row → c < ncols a →
  setitem a (Z.of_nat r) (Z.of_nat c) 1
  = Ok {| ncols := ncols a; rows := <[r := <[c := 1%Z]> row]> (rows a) |}.
Proof.
  intros Hr Hc. unfold setitem, shape0.
  rewrite !index_in_range by (done || by eapply lookup_lt_Some).
  f_equal. f_equal. apply list_eq. intros i.
  destruct (decide (r = i)) as [->|Hne].
  - rewrite list_lookup_alter_eq, Hr, list_lookup_insert_eq by (by eapply lookup_lt_Some). done.
  - by rewrite list_lookup_alter_ne, list_lookup_insert_ne.
Qed.

Lemma run_random a g :
  random {| arr := a; rng := g |}
  = (Ok (unit_float (word g (pos g))), {| arr := a; rng := advance g 1 |}).
Proof. reflexivity. Qed.

Lemma advance_advance g j k : advance (advance g j) k = advance g (j + k).
Proof. unfold advance. simpl. f_equal. lia. Qed.

Lemma wf_insert_row a r row row' :
  wf a → rows a !! r = Some row → length row' = length row →
  wf {| ncols := ncols a; rows := <[r := row']> (rows a) |}.
Proof.
  unfold wf. simpl. intros Hwf Hr Hlen. apply Forall_insert; [done|].
  rewrite Forall_lookup in Hwf. rewrite Hlen. by eapply Hwf.
Qed.

(** The inner loop on row [r]: it returns, consumes one word per item and
    rewrites row [r] only; a cell of that row holds 1 afterwards exactly
    when it did before or one of the draws for that column exceeded the
    noise ratio. *)
Lemma inject_items_run nr r cols a g row :
  wf a → rows a !! r = Some row → Forall (λ c, c < ncols a) cols →
  ∃ row',
    inject_items nr (Z.of_nat r) (Z.of_nat <$> cols) {| arr := a; rng := g |}
    = (Ok tt, {| arr := {| ncols := ncols a; rows := <[r := row']> (rows a) |};
                 rng := advance g (length cols) |}) ∧
    length row' = length row ∧
    ∀ c, row' !! c = Some 1%Z ↔
         row !! c = Some 1%Z ∨
         ∃ k, cols !! k = Some c ∧
              (nr <? unit_float (word g (pos g + k)%nat))%float = true.
Proof.
  revert a g row. induction cols as [|c cols IH]; intros a g row Hwf Hr Hcols.
  - exists row. simpl. split; [|split; [done|]].
    + rewrite run_ret. repeat f_equal.
      * destruct a; simpl. f_equal. by rewrite list_insert_id.
      * by destruct g.
    + intros c. split; [by left|]. intros [?|(k & Hk & _)]; [done|]. by rewrite lookup_nil in Hk.
  - apply Forall_cons in Hcols as [Hc Hcols].
    assert (c < length row) as Hcrow.
    { unfold wf in Hwf. rewrite Forall_lookup in Hwf. by rewrite (Hwf _ _ Hr). }
    cbn [fmap list_fmap inject_items]. rewrite run_bind, run_random.
    set (u := unit_float (word g (pos g))).
    destruct (nr <? u)%float eqn:Hu.
    + rewrite run_bind. unfold modify_arr. cbn [arr rng].
      rewrite (setitem_in_range _ _ _ _ Hr Hc).
      set (a1 := {| ncols := ncols a; rows := <[r := <[c := 1%Z]> row]> (rows a) |}).
      assert (rows a1 !! r = Some (<[c := 1%Z]> row)) as Hr1.
      { simpl. apply list_lookup_insert_eq. by eapply lookup_lt_Some. }
      destruct (IH a1 (advance g 1) _ (wf_insert_row _ _ _ _ Hwf Hr (length_insert _ _ _)) Hr1 Hcols)
        as (row' & Hrun & Hlen & Hspec).
      exists row'. rewrite Hrun. split; [|split].
      * subst a1. cbn [ncols rows]. rewrite list_insert_insert_eq, advance_advance.
        reflexivity.
      * by rewrite Hlen, length_insert.
      * intros c'. rewrite Hspec. cbn [advance pos word]. split.
        -- intros [H1|(k & Hk & Hf)].
           ++ destruct (decide (c = c')) as [->|Hne].
              ** right. exists 0. split; [done|]. by rewrite Nat.add_0_r.
              ** left. by rewrite list_lookup_insert_ne in H1.
           ++ right. exists (S k). split; [done|].
              by replace (pos g + S k) with (1 + pos g + k) by lia.
        -- intros [H1|(k & Hk & Hf)].
           ++ left. destruct (decide (c = c')) as [->|Hne].
              ** by rewrite list_lookup_insert_eq.
              ** by rewrite list_lookup_insert_ne.
           ++ destruct k as [|k]; simpl in Hk.
              ** simplify_eq. left. by rewrite list_lookup_insert_eq.
              ** right. exists k. split; [done|].
                 by replace (1 + pos g + k) with (pos g + S k) by lia.
    + rewrite run_bind, run_ret.
      destruct (IH a (advance g 1) row Hwf Hr Hcols) as (row' & Hrun & Hlen & Hspec).
      exists row'. rewrite Hrun. split; [|split; [done|]].
      * by rewrite advance_advance.
      * intros c'. rewrite Hspec. cbn [advance pos word]. split.
        -- intros [H1|(k & Hk & Hf)]; [by left|].
           right. exists (S k). split; [done|].
           by replace (pos g + S k) with (1 + pos g + k) by lia.
        -- intros [H1|(k & Hk & Hf)]; [by left|].
           destruct k as [|k]; simpl in Hk.
           ++ simplify_eq. rewrite Nat.add_0_r in Hf. fold u in Hf. congruence.
           ++ right. exists k. split; [done|].
              by replace (1 + pos g + k) with (pos g + S k) by lia.
Qed.

Lemma kept_at_true nr words p m :
  kept_at nr words p m = true ↔
  ∀ k, k < m → (nr <? unit_float (words (p + k)%nat))%float = true.
Proof.
  unfold kept_at. rewrite forallb_forall. split.
  - intros Hall k Hk. apply Hall. apply list_elem_of_In, elem_of_seq. lia.
  - intros Hall k Hk. apply list_elem_of_In, elem_of_seq in Hk. apply Hall. lia.
Qed.

Lemma has_pattern_true cols row :
  has_pattern cols row = true ↔ ∀ c, c ∈ cols → row !! c = Some 1%Z.
Proof.
  unfold has_pattern. rewrite forallb_forall. split.
  - intros H c Hc. eapply bool_decide_eq_true_1, H. by apply list_elem_of_In.
  - intros H c Hc. apply bool_decide_eq_true_2, H. by apply list_elem_of_In.
Qed.

Lemma pattern_count_insert a r row row' cols :
  rows a !! r = Some row → has_pattern cols row = false →
  pattern_count {| ncols := ncols a; rows := <[r := row']> (rows a) |} cols
  = pattern_count a cols + (if has_pattern cols row' then 1 else 0).
Proof.
  intros Hr Hrow. unfold pattern_count, contains_pattern. cbn [rows].
  rewrite <- (take_drop_middle _ _ _ Hr) at 2.
  rewrite insert_take_drop by (by eapply lookup_lt_Some).
  rewrite !filter_app, !filter_cons, !length_app.
  rewrite (decide_False (P := has_pattern cols row = true)) by congruence.
  destruct (has_pattern cols row') eqn:Hrow'.
  - rewrite decide_True by done. simpl. lia.
  - rewrite decide_False by congruence. lia.
Qed.

(** On a row whose pattern columns are all 0, the pattern is complete
    after the inner loop exactly when every one of its draws exceeded the
    noise ratio. *)
Lemma inject_items_pattern nr r cols a g row :
  wf a → rows a !! r = Some row → Forall (λ c, c < ncols a) cols →
  NoDup cols → cols ≠ [] → Forall (λ c, row !! c = Some 0%Z) cols →
  ∃ row',
    inject_items nr (Z.of_nat r) (Z.of_nat <$> cols) {| arr := a; rng := g |}
    = (Ok tt, {| arr := {| ncols := ncols a; rows := <[r := row']> (rows a) |};
                 rng := advance g (length cols) |}) ∧
    length row' = length row ∧
    has_pattern cols row = false ∧
    has_pattern cols row' = kept_at nr (word g) (pos g) (length cols).
Proof.
  intros Hwf Hr Hcols Hnd Hne Hzero.
  destruct (inject_items_run nr r cols a g row Hwf Hr Hcols) as (row' & Hrun & Hlen & Hspec).
  exists row'. split; [done|]. split; [done|].
  rewrite Forall_forall in Hzero. split.
  - apply not_true_is_false. rewrite has_pattern_true. intros Hall.
    destruct cols as [|c cols]; [done|].
    specialize (Hall c (list_elem_of_here _ _)).
    specialize (Hzero c (list_elem_of_here _ _)). congruence.
  - apply eq_true_iff_eq. rewrite has_pattern_true, kept_at_true. split.
    + intros Hall k Hk. destruct (lookup_lt_is_Some_2 cols k Hk) as [c Hc].
      destruct (proj1 (Hspec c) (Hall c (list_elem_of_lookup_2 _ _ _ Hc))) as [H0|(k' & Hk' & Hf)].
      * rewrite (Hzero c (list_elem_of_lookup_2 _ _ _ Hc)) in H0. done.
      * by rewrite (NoDup_lookup _ _ _ _ Hnd Hc Hk').
    + intros Hall c Hc. apply Hspec. right.
      apply list_elem_of_lookup in Hc as [k Hk]. exists k. split; [done|].
      apply Hall. by eapply lookup_lt_Some.
Qed.

(** The outer loop over distinct rows whose pattern columns are all 0: it
    returns, consumes one word per row and item, and adds to the number of
    rows that contain the pattern the number of rows all of whose draws
    exceeded the noise ratio. *)
Lemma inject_rows_run nr idxs cols a g :
  wf a → NoDup idxs → NoDup cols → cols ≠ [] → Forall (λ c, c < ncols a) cols →
  Forall (λ r, ∃ row, rows a !! r = Some row ∧ Forall (λ c, row !! c = Some 0%Z) cols) idxs →
  ∃ a',
    inject_rows nr idxs (Z.of_nat <$> cols) {| arr := a; rng := g |}
    = (Ok tt, {| arr := a'; rng := advance g (length idxs * length cols) |}) ∧
    ncols a' = ncols a ∧ shape0 a' = shape0 a ∧
    pattern_count a' cols
    = pattern_count a cols + kept_count nr (word g) (pos g) (length cols) (length idxs).
Proof.
  intros Hwf Hnd Hndc Hne Hcols. revert a g Hwf Hnd Hcols.
  induction idxs as [|r idxs IH]; intros a g Hwf Hnd Hcols Hz.
  - exists a. simpl. rewrite run_ret. split; [|split; [done|split; [done|lia]]].
    by destruct g.
  - apply NoDup_cons in Hnd as [Hr Hnd]. apply Forall_cons in Hz as [(row & Hrow & Hzero) Hz].
    destruct (inject_items_pattern nr r cols a g row Hwf Hrow Hcols Hndc Hne Hzero)
      as (row' & Hrun & Hlen & Hold & Hnew).
    cbn [inject_rows]. rewrite run_bind, Hrun.
    set (a1 := {| ncols := ncols a; rows := <[r := row']> (rows a) |}).
    destruct (IH a1 (advance g (length cols))) as (a' & Hrun' & Hc' & Hs' & Hcount).
    + by eapply wf_insert_row.
    + done.
    + done.
    + rewrite Forall_forall in Hz. apply Forall_forall. intros r' Hr'.
      destruct (Hz r' Hr') as (row0 & Hrow0 & Hzero0). exists row0. split; [|done].
      subst a1. cbn [rows]. rewrite list_lookup_insert_ne; [done|]. intros ->. done.
    + exists a'. rewrite Hrun', advance_advance. split; [done|].
      split; [by rewrite Hc'|]. split.
      { rewrite Hs'. unfold shape0, a1. cbn [rows]. by rewrite length_insert. }
      rewrite Hcount. unfold a1. rewrite (pattern_count_insert _ _ _ _ _ Hrow Hold), Hnew.
      cbn [kept_count advance word pos length]. lia.
Qed.

(** ** Selecting rows without replacement *)

Lemma NoDup_lookup_not_in_delete (pool : list nat) i x :
  NoDup pool → pool !! i = Some x → x ∉ delete i pool.
Proof.
  intros Hnd Hi. rewrite <- (take_drop_middle _ _ _ Hi) in Hnd.
  rewrite delete_take_drop. apply NoDup_app in Hnd as (_ & H1 & H2).
  apply NoDup_cons in H2 as [H2 _]. intros [Hin|Hin]%elem_of_app; [|done].
  apply (H1 x Hin). apply list_elem_of_here.
Qed.

Lemma pick_distinct_run k pool a g :
  k ≤ length pool → NoDup pool →
  ∃ idxs,
    pick_distinct k pool {| arr := a; rng := g |}
    = (Ok idxs, {| arr := a; rng := advance g k |}) ∧
    length idxs = k ∧ NoDup idxs ∧ idxs ⊆ pool.
Proof.
  revert pool g. induction k as [|k IH]; intros pool g Hk Hnd.
  - exists []. simpl. rewrite run_ret. split; [by destruct g|].
    split; [done|]. split; [constructor|]. apply list_subseteq_nil.
  - cbn [pick_distinct]. rewrite run_bind. unfold draw at 1. cbn [rng arr next_word].
    set (i := N.to_nat (word g (pos g) mod N.of_nat (length pool))).
    assert (i < length pool) as Hi.
    { subst i. pose proof (N.mod_lt (word g (pos g)) (N.of_nat (length pool))). lia. }
    destruct (lookup_lt_is_Some_2 _ _ Hi) as [x Hx]. rewrite Hx.
    destruct (IH (delete i pool) {| word := word g; pos := S (pos g) |}) as (xs & Hrun & Hlen & Hndx & Hsub).
    + rewrite length_delete by eauto. lia.
    + eapply sublist_NoDup; [done|apply sublist_delete].
    + exists (x :: xs). rewrite run_bind, Hrun, run_ret. split.
      { f_equal. f_equal. unfold advance. cbn [word pos]. f_equal. lia. }
      split; [simpl; lia|]. split.
      * apply NoDup_cons. split; [|done]. intros Hin.
        by apply (NoDup_lookup_not_in_delete pool i x Hnd Hx), Hsub.
      * intros y [->|Hy]%elem_of_cons; [by eapply list_elem_of_lookup_2|].
        by eapply list_elem_of_delete_inv, Hsub.
Qed.

Lemma choice_run t n a g :
  (0 < n ≤ t)%Z →
  ∃ idxs,
    choice t n {| arr := a; rng := g |}
    = (Ok idxs, {| arr := a; rng := advance g (Z.to_nat n) |}) ∧
    length idxs = Z.to_nat n ∧ NoDup idxs ∧ Forall (λ r, r < Z.to_nat t) idxs.
Proof.
  intros Hn. unfold choice.
  rewrite (proj2 (Z.leb_gt _ _)) by lia. cbn [andb].
  rewrite (proj2 (Z.ltb_ge _ _)), (proj2 (Z.ltb_ge _ _)) by lia. cbn [orb].
  destruct (pick_distinct_run (Z.to_nat n) (seq 0 (Z.to_nat t)) a g)
    as (idxs & Hrun & Hlen & Hnd & Hsub).
  - rewrite length_seq. lia.
  - apply NoDup_seq.
  - exists idxs. split; [done|]. split; [done|]. split; [done|].
    apply Forall_forall. intros r Hr. apply Hsub, elem_of_seq in Hr. lia.
Qed.

(** ** Injection into an all-zero matrix *)

Lemma zeros_wf t i z : zeros t i = Ok z → wf z.
Proof.
  unfold zeros. case_match; [done|]. intros; simplify_eq. unfold wf. simpl.
  apply Forall_replicate. by rewrite length_replicate.
Qed.

Lemma zeros_rows t i z r :
  zeros t i = Ok z → r < Z.to_nat t →
  rows z !! r = Some (replicate (Z.to_nat i) 0%Z).
Proof.
  unfold zeros. case_match; [done|]. intros; simplify_eq. simpl.
  by apply lookup_replicate_2.
Qed.

Lemma zeros_shape t i z :
  zeros t i = Ok z → shape0 z = Z.to_nat t ∧ ncols z = Z.to_nat i.
Proof.
  unfold zeros, shape0. case_match; [done|]. intros; simplify_eq. simpl.
  by rewrite length_replicate.
Qed.

Lemma zeros_pattern_count t i z cols :
  zeros t i = Ok z → cols ≠ [] → pattern_count z cols = 0.
Proof.
  unfold zeros. case_match; [done|]. intros ? Hne; simplify_eq.
  unfold pattern_count, contains_pattern. simpl.
  induction (Z.to_nat t) as [|n IH]; [done|]. simpl. rewrite filter_cons.
  rewrite decide_False; [done|].
  destruct cols as [|c cols]; [done|]. unfold has_pattern. simpl.
  intros [Hc _]%andb_true_iff. apply bool_decide_eq_true_1 in Hc.
  apply lookup_replicate in Hc as [? _]. done.
Qed.

Lemma columns_in_range a cols :
  Forall (λ c, c < ncols a) cols → columns a (Z.of_nat <$> cols) = Ok cols.
Proof.
  induction 1 as [|c cols Hc _ IH]; [done|].
  cbn [fmap list_fmap columns]. by rewrite index_in_range, IH.
Qed.

(** Injecting a pattern of distinct items into an all-zero matrix: the
    call returns, and the support [verify_pattern] then reports is the
    number of selected rows all of whose draws exceeded the noise ratio,
    divided by the number of rows. *)
Lemma inject_into_zeros self cols ts nr n g z :
  zeros (num_transactions self) (num_items self) = Ok z →
  valid_call self (Z.of_nat <$> cols) ts nr → NoDup cols →
  num_injections self ts nr = Ok n → (0 < n ≤ num_transactions self)%Z →
  ∃ a',
    inject_pattern self (Z.of_nat <$> cols) ts nr {| arr := z; rng := g |}
    = (Ok tt, {| arr := a';
                 rng := advance g (Z.to_nat n + Z.to_nat n * length cols) |}) ∧
    verify_pattern a' (Z.of_nat <$> cols)
    = Ok (int64_div
            (Z.of_nat (kept_count nr (word g) (Z.to_nat n + pos g) (length cols)
                         (Z.to_nat n)))
            (num_transactions self)).
Proof.
  intros Hz Hvalid Hnd Hn Hrange.
  pose proof Hvalid as (Hne & Hit & _).
  assert (cols ≠ []) as Hne' by (by destruct cols).
  assert (Forall (λ c, c < ncols z) cols) as Hcols.
  { destruct (zeros_shape _ _ _ Hz) as [_ ->].
    apply Forall_fmap in Hit. eapply Forall_impl; [exact Hit|]. simpl. lia. }
  rewrite inject_pattern_valid by done.
  rewrite run_bind. unfold lift at 1. rewrite Hn.
  rewrite (proj2 (Z.eqb_neq n 0)) by lia.
  destruct (choice_run (num_transactions self) n z g Hrange)
    as (idxs & Hchoice & Hlen & Hndi & Hidx).
  rewrite run_bind, Hchoice.
  destruct (inject_rows_run nr idxs cols z (advance g (Z.to_nat n)))
    as (a' & Hrun & Hc' & Hs' & Hcount); try done.
  { apply zeros_wf in Hz. done. }
  { eapply Forall_impl; [exact Hidx|]. intros r Hr. eexists. split.
    - by apply (zeros_rows _ _ _ _ Hz).
    - apply Forall_forall. intros c Hc. apply lookup_replicate_2.
      rewrite Forall_forall in Hcols. destruct (zeros_shape _ _ _ Hz) as [_ <-]. eauto. }
  exists a'. rewrite Hrun, advance_advance, Hlen. split; [done|].
  unfold verify_pattern. rewrite columns_in_range by (by rewrite Hc').
  destruct (Z.of_nat <$> cols) eqn:E; [by destruct cols|].
  rewrite Hcount, (zeros_pattern_count _ _ _ _ Hz Hne'), Hs', Hlen.
  destruct (zeros_shape _ _ _ Hz) as [-> _]. cbn [advance word pos].
  rewrite Z2Nat.id by lia. reflexivity.
Qed.

(** ** The two injection tests of [tests/test_generator.py] *)

Import Examples.

Lemma kept_count_le nr words p m n : kept_count nr words p m n ≤ n.
Proof.
  revert p. induction n as [|n IH]; intros p; simpl; [done|].
  specialize (IH (m + p)). case_match; lia.
Qed.

Lemma kept_count_all nr words p m n :
  (∀ k, k < n * m → (nr <? unit_float (words (p + k)%nat))%float = true) →
  kept_count nr words p m n = n.
Proof.
  revert p. induction n as [|n IH]; intros p Hall; simpl; [done|].
  rewrite (proj2 (kept_at_true nr words p m)).
  - rewrite IH; [done|]. intros k Hk.
    replace (m + p + k) with (p + (m + k)) by lia. apply Hall. simpl. lia.
  - intros k Hk. apply Hall. simpl. lia.
Qed.

Lemma test_valid_call nr :
  (0 <=? nr)%float = true → (nr <? 1)%float = true →
  valid_call test_injector (Z.of_nat <$> [5; 10; 15]) 0.1 nr.
Proof.
  intros H1 H2. split; [done|]. split; [|done].
  repeat constructor; done.
Qed.

Lemma test_zeros : zeros 1000 50 = Ok zero_matrix.
Proof. reflexivity. Qed.

Lemma support_below_target k :
  k ≤ 116 → (int64_div (Z.of_nat k) 1000 <? 0.1)%float = true ↔ k < 100.
Proof.
  intros Hk.
  assert (forallb (λ k, Bool.eqb (int64_div (Z.of_nat k) 1000 <? 0.1)%float (k <? 100))
            (seq 0 117) = true) as Hall by (vm_compute; reflexivity).
  rewrite forallb_forall in Hall.
  specialize (Hall k (proj1 (list_elem_of_In _ _) (proj2 (elem_of_seq 0 117 k) ltac:(lia)))).
  apply Bool.eqb_prop in Hall. rewrite Hall. apply Nat.ltb_lt.
Qed.

(** C5, counterexample.  When every draw is 0.5, all 116 selected rows
    receive the three items and the measured support is 0.116, above the
    target 0.1. *)
Lemma noisy_injection_overshoots :
  verify_pattern
    (arr (inject_pattern test_injector test_pattern 0.1 0.2
            {| arr := zero_matrix; rng := halves_rng |}).2) test_pattern
  = Ok 0.116%float ∧ (0.116 <? 0.1)%float = false.
Proof. vm_compute. split; reflexivity. Qed.

(** C5, amended.  On the all-zero 1000 x 50 matrix, [inject_pattern] with
    items [5, 10, 15], target support 0.1 and noise ratio 0.2 selects 116
    rows, and [verify_pattern] then returns k/1000 where k is the number of
    selected rows all three of whose draws exceeded 0.2.  So the measured
    support is at most 0.116, and it is below 0.1 exactly when fewer than
    100 of the 116 rows kept all three items. *)
Theorem noisy_injection_support (g : Rng) :
  ∃ a' k,
    inject_pattern test_injector test_pattern 0.1 0.2 {| arr := zero_matrix; rng := g |}
    = (Ok tt, {| arr := a'; rng := advance g 464 |}) ∧
    k = kept_count 0.2 (word g) (116 + pos g) 3 116 ∧
    verify_pattern a' test_pattern = Ok (int64_div (Z.of_nat k) 1000) ∧
    k ≤ 116 ∧
    ((int64_div (Z.of_nat k) 1000 <? 0.1)%float = true ↔ k < 100).
Proof.
  destruct (inject_into_zeros test_injector [5; 10; 15] 0.1 0.2 116 g zero_matrix)
    as (a' & Hrun & Hverify).
  - exact test_zeros.
  - by apply test_valid_call.
  - apply (bool_decide_unpack _). vm_compute. reflexivity.
  - vm_compute. reflexivity.
  - simpl. lia.
  - exists a', (kept_count 0.2 (word g) (116 + pos g) 3 116).
    split; [exact Hrun|]. split; [done|]. split; [exact Hverify|].
    pose proof (kept_count_le 0.2 (word g) (116 + pos g) 3 116).
    split; [done|]. by apply support_below_target.
Qed.

(** C4, at the failing input.  With noise ratio 0.0 an item is skipped
    when its draw is exactly 0.0: on the stream whose first draw after the
    row selection is 0.0, only 99 rows receive all three items and
    [verify_pattern] returns 0.099, not 0.1. *)
Theorem noiseless_injection_zero_draw :
  let w := inject_pattern test_injector test_pattern 0.1 0
             {| arr := zero_matrix; rng := zero_draw_rng |} in
  w.1 = Ok tt ∧
  verify_pattern (arr w.2) test_pattern = Ok 0.099%float ∧
  (0.099 =? 0.1)%float = false.
Proof. vm_compute. repeat split; reflexivity. Qed.

(** With noise ratio 0.0 and no draw equal to 0.0, exactly 100 rows
    receive all three items and [verify_pattern] returns 0.1. *)
Lemma noiseless_injection_exact (g : Rng) :
  (∀ k, k < 300 → (0 <? unit_float (word g (100 + pos g + k)%nat))%float = true) →
  ∃ a',
    inject_pattern test_injector test_pattern 0.1 0 {| arr := zero_matrix; rng := g |}
    = (Ok tt, {| arr := a'; rng := advance g 400 |}) ∧
    verify_pattern a' test_pattern = Ok 0.1%float.
Proof.
  intros Hpos.
  destruct (inject_into_zeros test_injector [5; 10; 15] 0.1 0 100 g zero_matrix)
    as (a' & Hrun & Hverify).
  - exact test_zeros.
  - by apply test_valid_call.
  - apply (bool_decide_unpack _). vm_compute. reflexivity.
  - vm_compute. reflexivity.
  - simpl. lia.
  - exists a'. split; [exact Hrun|]. unfold test_pattern.
    change [5; 10; 15]%Z with (Z.of_nat <$> [5; 10; 15]). rewrite Hverify.
    rewrite kept_count_all by exact Hpos. vm_compute. reflexivity.
Qed.

(** * Floating-point facts *)

Section FloatFacts.

Local Open Scope Z_scope.

(** ** Signs of floating-point results *)

Lemma binary_round_aux_sign s m e l :
  has_sign s (binary_round_aux prec emax s m e l).
Proof.
  unfold binary_round_aux.
  destruct (shr_fexp _ _ _ _ _) as [mrs' e'].
  destruct (shr_fexp _ _ _ _ _) as [mrs'' e''].
  destruct (shr_m mrs''); simpl; [done| |done].
  by destruct (e'' <=? emax - prec).
Qed.

Lemma SFmul_sign_clear x y :
  sign_clear x → sign_clear y → sign_clear (SFmul prec emax x y).
Proof.
  destruct x as [sx|sx| |sx mx ex], y as [sy|sy| |sy my ey]; simpl; try done;
    try (by intros -> ->).
  intros -> ->. simpl.
  pose proof (binary_round_aux_sign false (Z.pos (mx * my)) (ex + ey) loc_Exact) as H.
  by destruct (binary_round_aux _ _ _ _ _ _).
Qed.

Lemma SFdiv_sign_clear x y :
  sign_clear x → sign_clear y → sign_clear (SFdiv prec emax x y).
Proof.
  destruct x as [sx|sx| |sx mx ex], y as [sy|sy| |sy my ey]; simpl; try done;
    try (by intros -> ->).
  intros -> ->. simpl.
  destruct (SFdiv_core_binary _ _ _ _ _ _) as [[mz ez] lz].
  pose proof (binary_round_aux_sign false mz ez lz) as H.
  by destruct (binary_round_aux _ _ _ _ _ _).
Qed.

Lemma SFmul_comm x y : SFmul prec emax x y = SFmul prec emax y x.
Proof.
  destruct x as [sx|sx| |sx mx ex], y as [sy|sy| |sy my ey]; simpl; try done;
    rewrite ?(xorb_comm sx sy); try done.
  by rewrite Pos.mul_comm, Z.add_comm.
Qed.

Lemma mul_comm (x y : float) : (x * y)%float = (y * x)%float.
Proof. apply Prim2SF_inj. by rewrite !mul_spec, SFmul_comm. Qed.

Lemma Prim2SF_zero : Prim2SF 0 = S754_zero false.
Proof. vm_compute. reflexivity. Qed.

Lemma ltb_zero_sign_clear (x : float) :
  (0 <? x)%float = true →
  match Prim2SF x with
  | S754_finite false _ _ | S754_infinity false => True
  | _ => False
  end.
Proof.
  rewrite ltb_spec, Prim2SF_zero.
  unfold SFltb. destruct (Prim2SF x) as [s|[]| |[] m e]; simpl; done.
Qed.

Lemma binary_round_sign s m e : has_sign s (binary_round prec emax s m e).
Proof.
  unfold binary_round. destruct (shl_align _ _ _) as [mz ez].
  apply binary_round_aux_sign.
Qed.

Lemma binary_normalize_sign_clear z e :
  0 ≤ z → sign_clear (binary_normalize prec emax z e false).
Proof.
  intros Hz. destruct z as [|p|p]; [done| |lia].
  apply (binary_round_sign false).
Qed.

Lemma SF2Prim_sign_clear x : sign_clear x → sign_clear (Prim2SF (SF2Prim x)).
Proof.
  destruct x as [s|s| |s m e]; simpl; try (intros ->; vm_compute; done).
  - done.
  - intros ->. rewrite Z_ldexp_spec, of_uint63_spec.
    pose proof (Uint63.to_Z_bounded (Uint63.of_Z (Z.pos m))) as [Hb _].
    pose proof (binary_normalize_sign_clear _ 0 Hb) as Hn.
    destruct (binary_normalize _ _ _ _ _) as [s'|s'| |s' m' e']; simpl in *; try done.
    subst s'. apply (binary_round_sign false).
Qed.

Lemma float_of_int_sign_clear z f :
  0 ≤ z → float_of_int z = Ok f → sign_clear (Prim2SF f).
Proof.
  unfold float_of_int. intros Hz. case_match; [done|]. intros [= <-].
  by apply SF2Prim_sign_clear, binary_normalize_sign_clear.
Qed.

Lemma int_floor_sign_clear x : sign_clear (Prim2SF x) → Py.int x = Py.floor x.
Proof.
  unfold Py.int, Py.floor. destruct (Prim2SF x) as [s|s| |s m e]; simpl; try done.
  by intros ->.
Qed.

Lemma mul_sign_clear x y :
  sign_clear (Prim2SF x) → sign_clear (Prim2SF y) → sign_clear (Prim2SF (x * y)%float).
Proof. rewrite mul_spec. apply SFmul_sign_clear. Qed.

Lemma div_sign_clear x y :
  sign_clear (Prim2SF x) → sign_clear (Prim2SF y) → sign_clear (Prim2SF (x / y)%float).
Proof. rewrite div_spec. apply SFdiv_sign_clear. Qed.

Lemma min_sign_clear x y :
  sign_clear (Prim2SF x) → sign_clear (Prim2SF y) → sign_clear (Prim2SF (Py.min x y)).
Proof. unfold Py.min. by case_match. Qed.

Lemma positive_sign_clear x : (0 <? x)%float = true → sign_clear (Prim2SF x).
Proof.
  intros H%ltb_zero_sign_clear. by destruct (Prim2SF x) as [s|[]| |[] m e].
Qed.

(** ** Magnitudes: digits, shifts and rounding *)

Lemma digits2_pos_bounds p :
  2 ^ (Z.pos (digits2_pos p) - 1) ≤ Z.pos p < 2 ^ Z.pos (digits2_pos p).
Proof.
  induction p as [p IH|p IH|]; simpl digits2_pos.
  - rewrite Pos2Z.inj_succ, Z.pow_succ_r by lia.
    replace (Z.succ (Z.pos (digits2_pos p)) - 1) with (Z.succ (Z.pos (digits2_pos p) - 1)) by lia.
    rewrite Z.pow_succ_r by lia. lia.
  - rewrite Pos2Z.inj_succ, Z.pow_succ_r by lia.
    replace (Z.succ (Z.pos (digits2_pos p)) - 1) with (Z.succ (Z.pos (digits2_pos p) - 1)) by lia.
    rewrite Z.pow_succ_r by lia. lia.
  - simpl. lia.
Qed.

Lemma Zdigits2_le z k : 0 ≤ z → 0 ≤ k → z < 2 ^ k → Zdigits2 z ≤ k.
Proof.
  intros Hz Hk Hlt. destruct z as [|p|p]; simpl; [done| |lia].
  destruct (Z.le_gt_cases (Z.pos (digits2_pos p)) k) as [|Hgt]; [done|].
  pose proof (digits2_pos_bounds p) as [Hlo _].
  assert (2 ^ k ≤ 2 ^ (Z.pos (digits2_pos p) - 1)) by (apply Z.pow_le_mono_r; lia).
  lia.
Qed.

Lemma Zdigits2_lt z : 0 ≤ z → z < 2 ^ Zdigits2 z.
Proof.
  intros Hz. destruct z as [|p|p]; simpl; [lia| |lia].
  apply digits2_pos_bounds.
Qed.

Lemma shr_1_m mrs : 0 ≤ shr_m mrs → shr_m (shr_1 mrs) = shr_m mrs / 2.
Proof.
  destruct mrs as [m r s]. cbn [shr_m]. intros Hm.
  destruct m as [|[p|p|]|p]; cbn [shr_1 shr_m]; try lia.
  - done.
  - rewrite Pos2Z.inj_xI. apply Z.div_unique with 1; lia.
  - rewrite Pos2Z.inj_xO. apply Z.div_unique with 0; lia.
  - done.
Qed.

Lemma shr_iter_m p mrs :
  0 ≤ shr_m mrs → shr_m (SpecFloat.iter_pos shr_1 p mrs) = shr_m mrs / 2 ^ Z.pos p.
Proof.
  revert mrs. induction p as [p IH|p IH|]; intros mrs Hm; simpl SpecFloat.iter_pos.
  - assert (0 ≤ shr_m (shr_1 mrs)) as H1 by (rewrite shr_1_m by done; apply Z.div_pos; lia).
    assert (0 ≤ shr_m (SpecFloat.iter_pos shr_1 p (shr_1 mrs))) as H2
      by (rewrite IH by done; apply Z.div_pos; lia).
    rewrite IH, IH, shr_1_m by done.
    rewrite !Z.div_div by lia. f_equal.
    replace (Z.pos p~1) with (1 + Z.pos p + Z.pos p) by lia.
    rewrite !Z.pow_add_r by lia. lia.
  - assert (0 ≤ shr_m (SpecFloat.iter_pos shr_1 p mrs)) as H2
      by (rewrite IH by done; apply Z.div_pos; lia).
    rewrite IH, IH by done.
    rewrite !Z.div_div by lia. f_equal.
    replace (Z.pos p~0) with (Z.pos p + Z.pos p) by lia.
    rewrite !Z.pow_add_r by lia. lia.
  - rewrite shr_1_m by done. done.
Qed.

Lemma shr_record_of_loc_m m l : shr_m (shr_record_of_loc m l) = m.
Proof. by destruct l as [|[]]. Qed.

(** What [shr_fexp] returns: the exponent is the larger of the given one
    and the canonical one, the mantissa is shifted accordingly. *)
Lemma shr_fexp_spec m e l :
  0 ≤ m →
  let '(mrs, e') := shr_fexp prec emax m e l in
  e' = Z.max e (fexp prec emax (Zdigits2 m + e)) ∧
  shr_m mrs = m / 2 ^ (e' - e).
Proof.
  intros Hm. unfold shr_fexp, shr.
  destruct (fexp prec emax (Zdigits2 m + e) - e) as [|p|p] eqn:Hn.
  - rewrite shr_record_of_loc_m. split; [lia|].
    replace (e - e) with 0 by lia. by rewrite Z.div_1_r.
  - split; [lia|]. rewrite shr_iter_m by (by rewrite shr_record_of_loc_m).
    rewrite shr_record_of_loc_m. f_equal. f_equal. lia.
  - rewrite shr_record_of_loc_m. split; [lia|].
    replace (e - e) with 0 by lia. by rewrite Z.div_1_r.
Qed.

Lemma round_nearest_even_bounds m l :
  m ≤ round_nearest_even m l ≤ m + 1.
Proof. destruct l as [|[]]; simpl; try lia. case_match; lia. Qed.

(** The product of a float below 1 with 0.7: its exponent stays at most
    -53, that is, the product is below 1 too. *)
Lemma mul_07_exponent m e :
  SpecFloat.bounded prec emax m e = true → e ≤ -53 →
  match binary_round_aux prec emax false (Z.pos (m * 6305039478318694)) (e + -53)
          loc_Exact with
  | S754_zero false => True
  | S754_finite false _ e3 => e3 ≤ -53
  | _ => False
  end.
Proof.
  intros Hb He.
  apply andb_true_iff in Hb as [Hcan _]. apply Z.eqb_eq in Hcan.
  unfold fexp, SpecFloat.emin, prec, emax in Hcan.
  pose proof (digits2_pos_bounds m) as [_ Hm].
  assert (Z.pos m < 2 ^ 53) as Hm53.
  { eapply Z.lt_le_trans; [exact Hm|]. apply Z.pow_le_mono_r; lia. }
  assert (-1074 ≤ e) as Hemin by lia.
  set (M := Z.pos (m * 6305039478318694)).
  assert (M = Z.pos m * 6305039478318694) as HM by (subst M; lia).
  assert (0 < M) as HMpos by (subst M; lia).
  set (E := e + -53).
  unfold binary_round_aux.
  pose proof (shr_fexp_spec M E loc_Exact ltac:(lia)) as H1.
  destruct (shr_fexp prec emax M E loc_Exact) as [mrs1 e1]. destruct H1 as [He1 HM1].
  unfold fexp, SpecFloat.emin, prec, emax in He1.
  set (d := Zdigits2 M) in *.
  assert (0 ≤ d ≤ 106) as Hd.
  { split.
    - subst d. unfold M. simpl. lia.
    - apply Zdigits2_le; [lia|lia|]. rewrite HM.
      change (2 ^ 106) with (2 ^ 53 * 2 ^ 53).
      change (2 ^ 53) with 9007199254740992 in *. nia. }
  assert (M < 2 ^ d) as HMd by (apply Zdigits2_lt; lia).
  assert (0 ≤ e1 - E) as Hk by lia.
  assert (d - 53 ≤ e1 - E) as Hk' by lia.
  assert (0 ≤ shr_m mrs1 < 2 ^ 53) as HM1b.
  { rewrite HM1. split; [apply Z.div_pos; lia|].
    apply Z.div_lt_upper_bound; [lia|].
    rewrite <- Z.pow_add_r by lia.
    eapply Z.lt_le_trans; [exact HMd|]. apply Z.pow_le_mono_r; lia. }
  pose proof (round_nearest_even_bounds (shr_m mrs1) (loc_of_shr_record mrs1)) as Hr.
  set (m2 := round_nearest_even (shr_m mrs1) (loc_of_shr_record mrs1)) in *.
  pose proof (shr_fexp_spec m2 e1 loc_Exact ltac:(lia)) as H2.
  destruct (shr_fexp prec emax m2 e1 loc_Exact) as [mrs2 e2]. destruct H2 as [He2 HM3].
  unfold fexp, SpecFloat.emin, prec, emax in He2.
  assert (Zdigits2 m2 ≤ 54) as Hd2.
  { apply Zdigits2_le; [lia|lia|]. change (2 ^ 54) with (2 * 2 ^ 53). lia. }
  assert (0 ≤ shr_m mrs2) as HM3pos by (rewrite HM3; apply Z.div_pos; lia).
  assert (e2 ≤ -53) as He2'.
  { destruct (Z.le_gt_cases e1 (-54)) as [|Hgt]; [lia|].
    assert (e = -53 ∧ d = 106 ∧ e1 = -53) as (-> & Hd106 & ->) by lia.
    assert (shr_m mrs1 < 6305039478318694) as Hlt.
    { rewrite HM1. subst E. change (-53 - (-53 + -53)) with 53.
      apply Z.div_lt_upper_bound; [lia|]. rewrite HM.
      change (2 ^ 53) with 9007199254740992 in *. nia. }
    assert (Zdigits2 m2 ≤ 53) as Hd53.
    { apply Zdigits2_le; [lia|lia|]. change (2 ^ 53) with 9007199254740992. lia. }
    lia. }
  destruct (shr_m mrs2) as [|p|p]; [done| |lia].
  destruct (Z.leb_spec e2 (emax - prec)) as [|Hgt]; [done|].
  unfold emax, prec in Hgt. lia.
Qed.

(** ** The compensated support is never negative *)

Lemma Prim2SF_one : Prim2SF 1 = S754_finite false 4503599627370496 (-52).
Proof. vm_compute. reflexivity. Qed.

Lemma Prim2SF_07 : Prim2SF 0.7 = S754_finite false 6305039478318694 (-53).
Proof. vm_compute. reflexivity. Qed.

Lemma SFltb_finite m e m' e' :
  SFltb (S754_finite false m e) (S754_finite false m' e') = true →
  e < e' ∨ (e = e' ∧ Z.pos m < Z.pos m').
Proof.
  unfold SFltb, SFcompare.
  destruct (Z.compare_spec e e') as [->|Hlt|Hgt]; [|by left|done].
  change (Pos.compare_cont Eq m m') with (m ?= m')%positive.
  destruct (Pos.compare_spec m m') as [|Hlt|]; [done| |done].
  intros _. right. split; [done|lia].
Qed.

Lemma below_one_exponent (x : float) :
  (0 <? x)%float = true → (x <? 1)%float = true →
  ∃ m e, Prim2SF x = S754_finite false m e ∧ SpecFloat.bounded prec emax m e = true ∧ e ≤ -53.
Proof.
  intros H0 H1. apply ltb_zero_sign_clear in H0.
  pose proof (Prim2SF_valid x) as Hv. rewrite ltb_spec, Prim2SF_one in H1.
  destruct (Prim2SF x) as [s|[]| |[] m e]; try done.
  exists m, e. split; [done|]. cbn [valid_binary] in Hv. split; [done|].
  apply SFltb_finite in H1 as [Hlt|[-> Hm]]; [lia|].
  exfalso. apply andb_true_iff in Hv as [Hcan _]. apply Z.eqb_eq in Hcan.
  unfold fexp, SpecFloat.emin, prec, emax in Hcan.
  assert (Z.pos (digits2_pos m) = 53) as Hd by lia.
  pose proof (digits2_pos_bounds m) as [Hlo _]. rewrite Hd in Hlo.
  change (2 ^ (53 - 1)) with 4503599627370496 in Hlo. lia.
Qed.

Lemma iter_xO_double (m d : positive) : 2 * Z.pos m ≤ Z.pos (Pos.iter xO m d).
Proof.
  induction d as [|d IH] using Pos.peano_ind.
  - simpl. lia.
  - rewrite Pos.iter_succ. lia.
Qed.

Lemma one_minus_sign_clear (p : float) :
  match Prim2SF p with
  | S754_zero false => True
  | S754_finite false _ e => e ≤ -53
  | _ => False
  end →
  sign_clear (Prim2SF (1 - p)%float).
Proof.
  intros Hp. pose proof (Prim2SF_valid p) as Hv. rewrite sub_spec.
  rewrite Prim2SF_one.
  destruct (Prim2SF p) as [[]|s| |[] m e]; try done.
  simpl in Hv. apply andb_true_iff in Hv as [Hcan _]. apply Z.eqb_eq in Hcan.
  unfold fexp, SpecFloat.emin, prec, emax in Hcan.
  pose proof (digits2_pos_bounds m) as [_ Hm].
  assert (Z.pos m < 2 ^ 53) as Hm53.
  { eapply Z.lt_le_trans; [exact Hm|]. apply Z.pow_le_mono_r; lia. }
  change (2 ^ 53) with 9007199254740992 in Hm53.
  unfold SF64sub, SFsub. rewrite Z.min_r by lia.
  apply binary_normalize_sign_clear. unfold cond_Zopp, shl_align.
  replace (e - e) with 0 by lia. cbn [fst].
  destruct (e - -52) as [|d|d] eqn:Hd; [lia|lia|]. cbn [fst].
  pose proof (iter_xO_double 4503599627370496 d). lia.
Qed.

Lemma compensation_sign_clear (nr : float) :
  (0 <? nr)%float = true → (nr <? 1)%float = true →
  sign_clear (Prim2SF (1 / (1 - nr * 0.7))%float).
Proof.
  intros H0 H1. apply div_sign_clear; [vm_compute; done|].
  apply one_minus_sign_clear.
  destruct (below_one_exponent nr H0 H1) as (m & e & Hnr & Hb & He).
  rewrite mul_spec, Hnr.
  rewrite Prim2SF_07.
  apply (mul_07_exponent m e Hb He).
Qed.

(** The count [inject_pattern] computes with [int] is the floor the
    specification asks for: the product it truncates is never negative. *)
Lemma num_injections_targeted self ts nr :
  0 ≤ num_transactions self →
  (0 <? ts)%float = true → (nr <? 1)%float = true →
  num_injections self ts nr = targeted (num_transactions self) ts nr.
Proof.
  intros Ht Hts Hnr. unfold num_injections, targeted, int_mul_float.
  rewrite (mul_comm 0.7 nr).
  destruct (float_of_int (num_transactions self)) as [f|err] eqn:Hf;
    [|by destruct (0 <? nr)%float].
  pose proof (float_of_int_sign_clear _ _ Ht Hf) as Hfs.
  destruct (0 <? nr)%float eqn:Hpos.
  - apply int_floor_sign_clear, mul_sign_clear; [done|].
    apply min_sign_clear; [|vm_compute; done].
    apply mul_sign_clear; [by apply positive_sign_clear|].
    by apply compensation_sign_clear.
  - apply int_floor_sign_clear, mul_sign_clear; [done|].
    by apply positive_sign_clear.
Qed.

(** C3. For every valid call of [inject_pattern] (on an injector with a
    non-negative number of transactions), the number [n] of transactions
    it targets is [floor(num_transactions * min(target_support * (1 / (1 -
    0.7 * noise_ratio)), 1.0))] when [noise_ratio > 0] and
    [floor(num_transactions * target_support)] otherwise; when [n] is 0
    the call returns with the matrix and the random stream untouched, and
    otherwise it selects exactly [n] distinct rows and runs the injection
    loops on them. *)
Theorem targeted_transactions (self : PatternInjector.t) (l : list Z)
  (ts nr : float) :
  valid_call self l ts nr → 0 ≤ num_transactions self →
  num_injections self ts nr = targeted (num_transactions self) ts nr ∧
  ∀ n w, targeted (num_transactions self) ts nr = Ok n →
    (n = 0 → inject_pattern self l ts nr w = (Ok tt, w)) ∧
    (0 < n ≤ num_transactions self →
     ∃ idxs w1,
       choice (num_transactions self) n w = (Ok idxs, w1) ∧
       arr w1 = arr w ∧ length idxs = Z.to_nat n ∧ NoDup idxs ∧
       inject_pattern self l ts nr w = inject_rows nr idxs l w1).
Proof.
  intros Hvalid Ht.
  pose proof Hvalid as (_ & _ & [Hts _] & [_ Hnr]).
  pose proof (num_injections_targeted self ts nr Ht Hts Hnr) as Heq.
  split; [done|]. intros n w Hn. rewrite <- Heq in Hn.
  rewrite inject_pattern_valid by done. rewrite run_bind. unfold lift.
  rewrite Hn. cbv beta iota. split.
  - intros ->. reflexivity.
  - intros Hrange. rewrite (proj2 (Z.eqb_neq n 0)) by lia.
    destruct w as [a g].
    destruct (choice_run (num_transactions self) n a g Hrange)
      as (idxs & Hchoice & Hlen & Hnd & _).
    exists idxs, {| arr := a; rng := advance g (Z.to_nat n) |}.
    split; [done|]. split; [done|]. split; [done|]. split; [done|].
    by rewrite run_bind, Hchoice.
Qed.

Lemma targeted_transactions_witness :
  num_injections test_injector 0.1 0.2 = targeted 1000 0.1 0.2 ∧
  targeted 1000 0.1 0.2 = Ok 116.
Proof.
  split; [|vm_compute; reflexivity].
  refine (proj1 (targeted_transactions test_injector test_pattern 0.1 0.2 _ _)).
  - by apply (test_valid_call 0.2).
  - vm_compute. discriminate.
Defined.

(** ** Rounding a quotient: shifts, locations and monotonicity *)

(** The location [SFdiv_core_binary] computes for a remainder. *)
Lemma new_location_rem d r : new_location d r = loc_of_rem d r.
Proof.
  unfold new_location, new_location_even, new_location_odd, loc_of_rem.
  destruct (Z.even d) eqn:Hd; [done|].
  destruct (r =? 0); [done|]. f_equal.
  assert (Z.odd d = true) as Ho by (by rewrite <- Z.negb_even, Hd).
  apply Z.odd_spec in Ho as [h ->].
  destruct (Z.compare_spec (2 * r + 1) (2 * h + 1)), (Z.compare_spec (2 * r) (2 * h + 1));
    try done; lia.
Qed.

(** One shift to the right of a quotient [n / d] and of the location of
    its remainder gives the quotient and the location for [2 * d]. *)
Lemma shr_1_rem n d mrs :
  0 < d → 0 ≤ n →
  shr_m mrs = n / d → loc_of_shr_record mrs = loc_of_rem d (n mod d) →
  shr_m (shr_1 mrs) = n / (2 * d) ∧
  loc_of_shr_record (shr_1 mrs) = loc_of_rem (2 * d) (n mod (2 * d)).
Proof.
  intros Hd Hn Hm Hl.
  pose proof (Z.div_mod n d ltac:(lia)) as Hdm.
  pose proof (Z.mod_pos_bound n d Hd) as Hr.
  set (r0 := n mod d) in *. set (m := n / d) in *.
  assert (0 ≤ m) as Hm0 by (apply Z.div_pos; lia).
  assert (∀ h b, m = 2 * h + b → 0 ≤ b < 2 →
            n / (2 * d) = h ∧ n mod (2 * d) = b * d + r0) as Hsplit.
  { intros h b Hhb Hb.
    assert (n = (2 * d) * h + (b * d + r0)) as Hn2 by nia.
    assert (0 ≤ b * d + r0 < 2 * d) as Hb2 by nia.
    split.
    - symmetry. by apply (Z.div_unique_pos n (2 * d) h (b * d + r0)).
    - symmetry. by apply (Z.mod_unique_pos n (2 * d) h (b * d + r0)). }
  assert (orb (shr_r mrs) (shr_s mrs) = negb (r0 =? 0)) as Hs.
  { destruct mrs as [m0 [] []]; simpl in Hl |- *; unfold loc_of_rem in Hl;
      destruct (r0 =? 0); done. }
  destruct mrs as [m0 r s]. cbn [shr_m shr_r shr_s] in *. subst m0.
  unfold loc_of_rem.
  destruct m as [|[p|p|]|p] eqn:Em; [| | | |lia]; cbn [shr_1 shr_m loc_of_shr_record]; rewrite Hs.
  - destruct (Hsplit 0 0 ltac:(lia) ltac:(lia)) as [-> ->]. split; [done|].
    replace (0 * d + r0) with r0 by lia.
    destruct (Z.eqb_spec r0 0); simpl; [done|].
    destruct (Z.compare_spec (2 * r0) (2 * d)); (done || lia).
  - destruct (Hsplit (Z.pos p) 1 ltac:(lia) ltac:(lia)) as [-> ->]. split; [done|].
    destruct (Z.eqb_spec (1 * d + r0) 0); [lia|].
    destruct (Z.eqb_spec r0 0); simpl;
      destruct (Z.compare_spec (2 * (1 * d + r0)) (2 * d)); (done || lia).
  - destruct (Hsplit (Z.pos p) 0 ltac:(lia) ltac:(lia)) as [-> ->]. split; [done|].
    replace (0 * d + r0) with r0 by lia.
    destruct (Z.eqb_spec r0 0); simpl; [done|].
    destruct (Z.compare_spec (2 * r0) (2 * d)); (done || lia).
  - destruct (Hsplit 0 1 ltac:(lia) ltac:(lia)) as [-> ->]. split; [done|].
    destruct (Z.eqb_spec (1 * d + r0) 0); [lia|].
    destruct (Z.eqb_spec r0 0); simpl;
      destruct (Z.compare_spec (2 * (1 * d + r0)) (2 * d)); (done || lia).
Qed.

Lemma shr_iter_rem p n d mrs :
  0 < d → 0 ≤ n →
  shr_m mrs = n / d → loc_of_shr_record mrs = loc_of_rem d (n mod d) →
  shr_m (SpecFloat.iter_pos shr_1 p mrs) = n / (d * 2 ^ Z.pos p) ∧
  loc_of_shr_record (SpecFloat.iter_pos shr_1 p mrs)
  = loc_of_rem (d * 2 ^ Z.pos p) (n mod (d * 2 ^ Z.pos p)).
Proof.
  intros Hd Hn. revert d mrs Hd.
  induction p as [p IH|p IH|]; intros d mrs Hd Hm Hl; simpl SpecFloat.iter_pos.
  - destruct (shr_1_rem n d mrs Hd Hn Hm Hl) as [Hm1 Hl1].
    assert (0 < 2 ^ Z.pos p) as Hp by (apply Z.pow_pos_nonneg; lia).
    destruct (IH (2 * d) _ ltac:(lia) Hm1 Hl1) as [Hm2 Hl2].
    destruct (IH (2 * d * 2 ^ Z.pos p) _ ltac:(nia) Hm2 Hl2) as [Hm3 Hl3].
    replace (d * 2 ^ Z.pos p~1) with (2 * d * 2 ^ Z.pos p * 2 ^ Z.pos p); [done|].
    replace (Z.pos p~1) with (1 + Z.pos p + Z.pos p) by lia.
    rewrite !Z.pow_add_r by lia. lia.
  - assert (0 < 2 ^ Z.pos p) as Hp by (apply Z.pow_pos_nonneg; lia).
    destruct (IH d _ Hd Hm Hl) as [Hm2 Hl2].
    destruct (IH (d * 2 ^ Z.pos p) _ ltac:(nia) Hm2 Hl2) as [Hm3 Hl3].
    replace (d * 2 ^ Z.pos p~0) with (d * 2 ^ Z.pos p * 2 ^ Z.pos p); [done|].
    replace (Z.pos p~0) with (Z.pos p + Z.pos p) by lia.
    rewrite !Z.pow_add_r by lia. lia.
  - destruct (shr_1_rem n d mrs Hd Hn Hm Hl) as [Hm1 Hl1].
    change (2 ^ 1) with 2. by rewrite (Z.mul_comm d 2).
Qed.

Lemma shr_record_of_loc_loc m l : loc_of_shr_record (shr_record_of_loc m l) = l.
Proof. by destruct l as [|[]]. Qed.

(** The first half of [binary_round_aux] on a quotient [n / d] located
    by its remainder. *)
Lemma shr_fexp_rem n d e :
  0 < d → 0 ≤ n →
  let '(mrs, e1) := shr_fexp prec emax (n / d) e (loc_of_rem d (n mod d)) in
  e1 = Z.max e (fexp prec emax (Zdigits2 (n / d) + e)) ∧
  round_nearest_even (shr_m mrs) (loc_of_shr_record mrs) = rne n (d * 2 ^ (e1 - e)).
Proof.
  intros Hd Hn. unfold shr_fexp, shr, rne.
  destruct (fexp prec emax (Zdigits2 (n / d) + e) - e) as [|p|p] eqn:Hk.
  - split; [lia|]. rewrite shr_record_of_loc_m, shr_record_of_loc_loc.
    replace (e - e) with 0 by lia. by rewrite Z.mul_1_r.
  - split; [lia|].
    destruct (shr_iter_rem p n d (shr_record_of_loc (n / d) (loc_of_rem d (n mod d))) Hd Hn)
      as [-> ->].
    + apply shr_record_of_loc_m.
    + apply shr_record_of_loc_loc.
    + by replace (e + Z.pos p - e) with (Z.pos p) by lia.
  - split; [lia|]. rewrite shr_record_of_loc_m, shr_record_of_loc_loc.
    replace (e - e) with 0 by lia. by rewrite Z.mul_1_r.
Qed.

Lemma rne_bounds n d : n / d ≤ rne n d ≤ n / d + 1.
Proof. apply round_nearest_even_bounds. Qed.

Lemma rne_le_ceil n d x : 0 < d → n ≤ d * x → rne n d ≤ x.
Proof.
  intros Hd Hx. pose proof (rne_bounds n d) as Hb.
  pose proof (Z.div_mod n d ltac:(lia)) as Hdm.
  pose proof (Z.mod_pos_bound n d Hd) as Hr.
  destruct (Z.eq_dec (n / d) x) as [Heq|Hne]; [|nia].
  assert (n mod d = 0) as H0 by nia.
  unfold rne, loc_of_rem. rewrite H0. simpl. lia.
Qed.

(** Rounding to nearest even is monotone in the numerator and does not
    change when numerator and denominator are scaled together. *)
Lemma rne_mono n n' d : 0 < d → n ≤ n' → rne n d ≤ rne n' d.
Proof.
  intros Hd Hle.
  pose proof (rne_bounds n d) as Hb. pose proof (rne_bounds n' d) as Hb'.
  pose proof (Z.div_mod n d ltac:(lia)) as Hdm.
  pose proof (Z.mod_pos_bound n d Hd) as Hr.
  pose proof (Z.div_mod n' d ltac:(lia)) as Hdm'.
  pose proof (Z.mod_pos_bound n' d Hd) as Hr'.
  assert (n / d ≤ n' / d) as Hq by (apply Z.div_le_mono; lia).
  destruct (Z.eq_dec (n / d) (n' / d)) as [Heq|Hne]; [|lia].
  assert (n mod d ≤ n' mod d) as Hrr by nia.
  unfold rne, loc_of_rem. rewrite <- Heq.
  destruct (Z.eqb_spec (n mod d) 0), (Z.eqb_spec (n' mod d) 0); simpl.
  - lia.
  - destruct (2 * (n' mod d) ?= d); try lia. destruct (Z.even (n / d)); lia.
  - lia.
  - destruct (Z.compare_spec (2 * (n mod d)) d), (Z.compare_spec (2 * (n' mod d)) d);
      try lia; destruct (Z.even (n / d)); lia.
Qed.

Lemma rne_scale n d c : 0 < d → 0 < c → rne (n * c) (d * c) = rne n d.
Proof.
  intros Hd Hc. unfold rne, loc_of_rem.
  rewrite Z.div_mul_cancel_r by lia.
  rewrite Z.mul_mod_distr_r by lia.
  destruct (Z.eqb_spec (n mod d) 0) as [->|Hne]; [done|].
  destruct (Z.eqb_spec (n mod d * c) 0) as [|_]; [nia|].
  do 2 f_equal.
  destruct (Z.compare_spec (2 * (n mod d * c)) (d * c)), (Z.compare_spec (2 * (n mod d)) d);
    try done; nia.
Qed.

Lemma Zdigits2_bounds z : 0 < z → 2 ^ (Zdigits2 z - 1) ≤ z < 2 ^ Zdigits2 z.
Proof. destruct z as [|p|p]; [lia| |lia]. intros _. apply digits2_pos_bounds. Qed.

Lemma Zdigits2_eq z k : 2 ^ (k - 1) ≤ z < 2 ^ k → 0 < k → Zdigits2 z = k.
Proof.
  intros [Hlo Hhi] Hk.
  assert (0 < z) as Hz.
  { eapply Z.lt_le_trans; [|exact Hlo]. apply Z.pow_pos_nonneg; lia. }
  pose proof (Zdigits2_le z k ltac:(lia) ltac:(lia) Hhi) as Hle.
  pose proof (Zdigits2_bounds z Hz) as [_ Hup].
  destruct (Z.le_gt_cases k (Zdigits2 z)) as [|Hgt]; [lia|].
  assert (0 ≤ Zdigits2 z) as Hd0 by (destruct z; simpl; lia).
  assert (2 ^ Zdigits2 z ≤ 2 ^ (k - 1)) by (apply Z.pow_le_mono_r; lia).
  lia.
Qed.

(** [binary_round_aux] on a quotient of at least 53 bits. *)
Lemma binary_round_aux_normal n d e :
  0 < d → 2 ^ 52 * d ≤ n → SpecFloat.emin prec emax ≤ e →
  let k := Zdigits2 (n / d) - 53 in
  0 ≤ k ∧
  d * 2 ^ (k + 52) ≤ n < d * 2 ^ (k + 53) ∧
  2 ^ 52 ≤ rne n (d * 2 ^ k) ≤ 2 ^ 53 ∧
  binary_round_aux prec emax false (n / d) e (loc_of_rem d (n mod d))
  = normal_float (rne n (d * 2 ^ k)) (e + k).
Proof.
  intros Hd Hn He k.
  assert (0 < 2 ^ 52) as H52 by done.
  assert (0 ≤ n) as Hn0 by nia.
  pose proof (Z.div_mod n d ltac:(lia)) as Hdm.
  pose proof (Z.mod_pos_bound n d Hd) as Hr.
  assert (2 ^ 52 ≤ n / d) as Hq by (apply Z.div_le_lower_bound; lia).
  pose proof (Zdigits2_bounds (n / d) ltac:(lia)) as [Hlo Hhi].
  set (dq := Zdigits2 (n / d)) in *.
  assert (53 ≤ dq) as Hdq.
  { destruct (Z.le_gt_cases 53 dq) as [|Hlt]; [done|].
    assert (0 ≤ dq) by (subst dq; destruct (n / d); simpl; lia).
    assert (2 ^ dq ≤ 2 ^ 52) by (apply Z.pow_le_mono_r; lia). lia. }
  assert (0 ≤ k) as Hk by lia.
  assert (0 < 2 ^ k) as Hpk by (apply Z.pow_pos_nonneg; lia).
  assert (2 ^ (dq - 1) = 2 ^ k * 2 ^ 52) as Hp1.
  { rewrite <- Z.pow_add_r by lia. f_equal. lia. }
  assert (2 ^ dq = 2 ^ k * 2 ^ 53) as Hp2.
  { rewrite <- Z.pow_add_r by lia. f_equal. lia. }
  assert (2 ^ (k + 52) = 2 ^ k * 2 ^ 52) as Hp3 by (rewrite Z.pow_add_r; lia).
  assert (2 ^ (k + 53) = 2 ^ k * 2 ^ 53) as Hp4 by (rewrite Z.pow_add_r; lia).
  assert (d * 2 ^ (k + 52) ≤ n < d * 2 ^ (k + 53)) as Hbr by (rewrite Hp3, Hp4; nia).
  assert (2 ^ 52 ≤ rne n (d * 2 ^ k) ≤ 2 ^ 53) as HM.
  { split.
    - etrans; [|apply rne_bounds]. apply Z.div_le_lower_bound; [nia|]. rewrite Hp3 in Hbr. nia.
    - apply rne_le_ceil; [nia|]. rewrite Hp4 in Hbr. nia. }
  split; [done|]. split; [done|]. split; [done|].
  unfold binary_round_aux.
  pose proof (shr_fexp_rem n d e Hd Hn0) as H1.
  destruct (shr_fexp prec emax (n / d) e (loc_of_rem d (n mod d))) as [mrs1 e1].
  destruct H1 as [He1 ->]. fold dq in He1.
  assert (e1 = e + k) as ->.
  { unfold fexp, SpecFloat.emin, prec, emax in He1, He. lia. }
  replace (e + k - e) with k by lia.
  set (M := rne n (d * 2 ^ k)) in *.
  pose proof (shr_fexp_spec M (e + k) loc_Exact ltac:(lia)) as H2.
  destruct (shr_fexp prec emax M (e + k) loc_Exact) as [mrs2 e2].
  destruct H2 as [He2 HM2]. unfold normal_float.
  destruct (Z.ltb_spec M (2 ^ 53)) as [Hlt|Hge].
  - rewrite (Zdigits2_eq M 53) in He2 by (simpl; lia).
    assert (e2 = e + k) as ->
      by (unfold fexp, SpecFloat.emin, prec, emax in He2, He; lia).
    replace (e + k - (e + k)) with 0 in HM2 by lia.
    rewrite Z.div_1_r in HM2. rewrite HM2.
    destruct M as [|p|p]; [lia| |lia]. done.
  - assert (M = 2 ^ 53) as HM53 by lia.
    rewrite (Zdigits2_eq M 54) in He2 by (try rewrite HM53; simpl; lia).
    assert (e2 = e + k + 1) as ->
      by (unfold fexp, SpecFloat.emin, prec, emax in He2, He; lia).
    replace (e + k + 1 - (e + k)) with 1 in HM2 by lia.
    rewrite HM2, HM53. done.
Qed.

Lemma normal_float_valid m e :
  2 ^ 52 ≤ m ≤ 2 ^ 53 → SpecFloat.emin prec emax ≤ e →
  valid_binary (normal_float m e) = true.
Proof.
  intros Hm He. unfold normal_float.
  destruct (Z.ltb_spec m (2 ^ 53)) as [Hlt|Hge].
  - destruct (Z.leb_spec e (emax - prec)) as [Hle|]; [|done].
    cbn [SpecFloat.valid_binary]. unfold SpecFloat.bounded, canonical_mantissa.
    apply andb_true_iff. split; [|by apply Z.leb_le].
    apply Z.eqb_eq.
    change (Z.pos (digits2_pos (Z.to_pos m))) with (Zdigits2 (Z.pos (Z.to_pos m))).
    rewrite Z2Pos.id by lia. rewrite (Zdigits2_eq m 53) by (simpl; lia).
    unfold fexp, SpecFloat.emin, prec, emax in *. lia.
  - destruct (Z.leb_spec (e + 1) (emax - prec)) as [Hle|]; [|done].
    cbn [SpecFloat.valid_binary]. unfold SpecFloat.bounded, canonical_mantissa.
    apply andb_true_iff. split; [|by apply Z.leb_le].
    apply Z.eqb_eq. change (Z.pos (digits2_pos (Z.to_pos (2 ^ 52)))) with 53.
    unfold fexp, SpecFloat.emin, prec, emax in *. lia.
Qed.

Lemma normal_float_le m e m' e' :
  2 ^ 52 ≤ m ≤ 2 ^ 53 → 2 ^ 52 ≤ m' ≤ 2 ^ 53 →
  e < e' ∨ (e = e' ∧ m ≤ m') →
  SFleb (normal_float m e) (normal_float m' e') = true.
Proof.
  intros Hm Hm' Hle.
  assert (∀ a b x y, 0 < a → 0 < b → x < y ∨ (x = y ∧ a ≤ b) →
            SFleb (S754_finite false (Z.to_pos a) x) (S754_finite false (Z.to_pos b) y) = true)
    as Hfin.
  { intros a b x y Ha Hb Hxy. unfold SFleb, SFcompare.
    destruct (Z.compare_spec x y) as [->|Hlt|Hgt]; [|done|lia].
    change (Pos.compare_cont Eq (Z.to_pos a) (Z.to_pos b))
      with (Z.to_pos a ?= Z.to_pos b)%positive.
    destruct (Pos.compare_spec (Z.to_pos a) (Z.to_pos b)); [done|done|lia]. }
  assert (0 < 2 ^ 52) as H52 by done.
  unfold normal_float.
  destruct (Z.ltb_spec m (2 ^ 53)), (Z.ltb_spec m' (2 ^ 53));
    repeat match goal with |- context [Z.leb ?a ?b] => destruct (Z.leb_spec a b) end;
    try done; try lia; apply Hfin; lia.
Qed.

(** Rounding a quotient is monotone in the value of the numerator. *)
Lemma binary_round_aux_mono d n n' e e' :
  0 < d → 2 ^ 52 * d ≤ n → 2 ^ 52 * d ≤ n' →
  SpecFloat.emin prec emax ≤ e → SpecFloat.emin prec emax ≤ e' →
  n * 2 ^ (e - SpecFloat.emin prec emax) ≤ n' * 2 ^ (e' - SpecFloat.emin prec emax) →
  SFleb (binary_round_aux prec emax false (n / d) e (loc_of_rem d (n mod d)))
        (binary_round_aux prec emax false (n' / d) e' (loc_of_rem d (n' mod d))) = true.
Proof.
  intros Hd Hn Hn' He He' Hval.
  destruct (binary_round_aux_normal n d e Hd Hn He) as (Hk & Hbr & HM & ->).
  destruct (binary_round_aux_normal n' d e' Hd Hn' He') as (Hk' & Hbr' & HM' & ->).
  set (k := Zdigits2 (n / d) - 53) in *. set (k' := Zdigits2 (n' / d) - 53) in *.
  set (emin := SpecFloat.emin prec emax) in *.
  set (c := 2 ^ (e - emin)) in *. set (c' := 2 ^ (e' - emin)) in *.
  assert (0 < c) as Hc by (apply Z.pow_pos_nonneg; lia).
  assert (0 < c') as Hc' by (apply Z.pow_pos_nonneg; lia).
  assert (∀ j, 0 ≤ j → 2 ^ (e + k + j - emin) = 2 ^ (k + j) * c) as Hpow.
  { intros j Hj. unfold c. rewrite <- Z.pow_add_r by lia. f_equal. lia. }
  assert (∀ j, 0 ≤ j → 2 ^ (e' + k' + j - emin) = 2 ^ (k' + j) * c') as Hpow'.
  { intros j Hj. unfold c'. rewrite <- Z.pow_add_r by lia. f_equal. lia. }
  apply normal_float_le; [done|done|].
  destruct (Z.lt_trichotomy (e + k) (e' + k')) as [Hlt|[Heq|Hgt]]; [by left| |exfalso].
  - right. split; [done|].
    assert (0 < d * 2 ^ k) as Hdk
      by (apply Z.mul_pos_pos; [done|apply Z.pow_pos_nonneg; lia]).
    assert (0 < d * 2 ^ k') as Hdk'
      by (apply Z.mul_pos_pos; [done|apply Z.pow_pos_nonneg; lia]).
    rewrite <- (rne_scale n (d * 2 ^ k) c), <- (rne_scale n' (d * 2 ^ k') c') by done.
    replace (d * 2 ^ k' * c') with (d * 2 ^ k * c).
    + apply rne_mono; [|done]. by apply Z.mul_pos_pos.
    + pose proof (Hpow 0 ltac:(lia)) as H1. pose proof (Hpow' 0 ltac:(lia)) as H2.
      rewrite !Z.add_0_r in H1, H2. rewrite Heq in H1.
      rewrite <- !Z.mul_assoc, <- H1, <- H2. done.
  - (* the smaller value cannot have the larger exponent *)
    pose proof (Hpow 52 ltac:(lia)) as H1. pose proof (Hpow' 53 ltac:(lia)) as H2.
    assert (2 ^ (e' + k' + 53 - emin) ≤ 2 ^ (e + k + 52 - emin)) as Hp
      by (apply Z.pow_le_mono_r; lia).
    assert (d * 2 ^ (k + 52) * c ≤ n * c) as Ha by nia.
    assert (n' * c' < d * 2 ^ (k' + 53) * c') as Hb by nia.
    rewrite H1, H2 in Hp. nia.
Qed.

Lemma normal_float_normal53 m e :
  2 ^ 52 ≤ m ≤ 2 ^ 53 → e + 1 ≤ emax - prec →
  normal53 (normal_float m e) e (e + 1).
Proof.
  intros Hm He. unfold normal_float.
  destruct (Z.ltb_spec m (2 ^ 53)) as [Hlt|Hge].
  - rewrite (proj2 (Z.leb_le _ _)) by lia.
    exists (Z.to_pos m), e. split; [done|]. rewrite Z2Pos.id by lia. lia.
  - rewrite (proj2 (Z.leb_le _ _)) by lia.
    exists (Z.to_pos (2 ^ 52)), (e + 1). split; [done|]. split; [done|lia].
Qed.

Lemma iter_xO_pow (p d : positive) : Z.pos (Pos.iter xO p d) = Z.pos p * 2 ^ Z.pos d.
Proof.
  induction d as [|d IH] using Pos.peano_ind.
  - simpl. lia.
  - rewrite Pos.iter_succ, Pos2Z.inj_xO, IH, Pos2Z.inj_succ, Z.pow_succ_r by lia. lia.
Qed.

Lemma shl_align_spec p ex' :
  let '(mz, ez) := shl_align p 0 ex' in
  ez = Z.min 0 ex' ∧ Z.pos mz = Z.pos p * 2 ^ (- ez).
Proof.
  unfold shl_align. destruct (ex' - 0) as [|d|d] eqn:Hd.
  - split; [lia|]. simpl. lia.
  - split; [lia|]. simpl. lia.
  - split; [lia|]. rewrite iter_xO_pow. do 2 f_equal. lia.
Qed.

(** The conversion of a positive integer, as a rounded quotient by 1. *)
Lemma binary_normalize_pos c :
  0 < c →
  ∃ n e,
    binary_normalize prec emax c 0 false
    = binary_round_aux prec emax false (n / 1) e (loc_of_rem 1 (n mod 1)) ∧
    2 ^ 52 * 1 ≤ n ∧ SpecFloat.emin prec emax ≤ e ∧
    n * 2 ^ (e - SpecFloat.emin prec emax) = c * 2 ^ (- SpecFloat.emin prec emax) ∧
    e + (Zdigits2 (n / 1) - 53) = Zdigits2 c - 53.
Proof.
  intros Hc. destruct c as [|p|p]; [lia| |lia].
  cbn [binary_normalize]. unfold binary_round.
  pose proof (shl_align_spec p (fexp prec emax (Z.pos (digits2_pos p) + 0))) as Hs.
  destruct (shl_align p 0 _) as [mz ez]. destruct Hs as [Hez Hmz].
  exists (Z.pos mz), ez.
  pose proof (digits2_pos_bounds p) as [Hlo Hhi].
  set (dc := Z.pos (digits2_pos p)) in *.
  assert (0 < dc) as Hdc by (subst dc; lia).
  unfold fexp, SpecFloat.emin, prec, emax in *.
  rewrite Z.div_1_r, Z.mod_1_r. split; [done|].
  assert (0 < 2 ^ 52) as H52 by done.
  cbn [Zdigits2].
  destruct (Z.le_gt_cases 53 dc) as [Hge|Hlt].
  - assert (ez = 0) as -> by lia. simpl in Hmz. rewrite Z.mul_1_r in Hmz.
    injection Hmz as ->.
    assert (2 ^ 52 ≤ 2 ^ (dc - 1)) by (apply Z.pow_le_mono_r; lia).
    split; [lia|]. split; [lia|]. split; [done|]. fold dc. lia.
  - assert (ez = dc - 53) as -> by lia.
    assert (2 ^ (dc - 1) * 2 ^ (- (dc - 53)) = 2 ^ 52) as Hp1.
    { rewrite <- Z.pow_add_r by lia. f_equal. lia. }
    assert (2 ^ dc * 2 ^ (- (dc - 53)) = 2 ^ 53) as Hp2.
    { rewrite <- Z.pow_add_r by lia. f_equal. lia. }
    assert (0 < 2 ^ (- (dc - 53))) as Hp3 by (apply Z.pow_pos_nonneg; lia).
    assert (2 ^ 52 ≤ Z.pos mz < 2 ^ 53) as Hb by (rewrite Hmz; nia).
    split; [lia|]. split; [lia|]. split.
    + rewrite Hmz, <- Z.mul_assoc, <- Z.pow_add_r by lia. do 2 f_equal. lia.
    + change (Z.pos (digits2_pos mz)) with (Zdigits2 (Z.pos mz)).
      rewrite (Zdigits2_eq (Z.pos mz) 53) by (simpl; lia). lia.
Qed.

Lemma binary_normalize_normal53 c :
  0 < c < 2 ^ 63 →
  normal53 (binary_normalize prec emax c 0 false) (-52) 11 ∧
  valid_binary (binary_normalize prec emax c 0 false) = true.
Proof.
  intros [Hc Hc63].
  destruct (binary_normalize_pos c Hc) as (n & e & -> & Hn & He & _ & Hexp).
  destruct (binary_round_aux_normal n 1 e ltac:(lia) Hn He) as (Hk & _ & HM & ->).
  rewrite Z.mul_1_l in *. rewrite Hexp.
  assert (1 ≤ Zdigits2 c ≤ 63) as Hd.
  { split; [destruct c; simpl; lia|]. apply Zdigits2_le; lia. }
  split.
  - destruct (normal_float_normal53 (rne n (2 ^ (Zdigits2 (n / 1) - 53))) (Zdigits2 c - 53))
      as (m & e' & Heq & Hm & He'); [done|unfold emax, prec; lia|].
    exists m, e'. split; [done|]. split; [done|]. lia.
  - apply normal_float_valid; [done|]. unfold SpecFloat.emin, emax, prec. lia.
Qed.

(** The conversion of integers to doubles is monotone. *)
Lemma binary_normalize_mono c c' :
  0 < c ≤ c' →
  SFleb (binary_normalize prec emax c 0 false) (binary_normalize prec emax c' 0 false) = true.
Proof.
  intros [Hc Hle].
  destruct (binary_normalize_pos c Hc) as (n & e & -> & Hn & He & Hv & _).
  destruct (binary_normalize_pos c' ltac:(lia)) as (n' & e' & -> & Hn' & He' & Hv' & _).
  apply binary_round_aux_mono; try done. rewrite Hv, Hv'.
  apply Z.mul_le_mono_nonneg_r; [|done]. apply Z.pow_nonneg. lia.
Qed.

Lemma SFleb_normal53 x x' lo hi :
  normal53 x lo hi → normal53 x' lo hi → SFleb x x' = true →
  ∃ m e m' e', x = S754_finite false m e ∧ x' = S754_finite false m' e' ∧
    2 ^ 52 ≤ Z.pos m < 2 ^ 53 ∧ 2 ^ 52 ≤ Z.pos m' < 2 ^ 53 ∧
    lo ≤ e ≤ hi ∧ lo ≤ e' ≤ hi ∧
    (e < e' ∨ (e = e' ∧ Z.pos m ≤ Z.pos m')).
Proof.
  intros (m & e & -> & Hm & He) (m' & e' & -> & Hm' & He') Hle.
  exists m, e, m', e'. repeat (split; [done|]).
  unfold SFleb, SFcompare in Hle.
  destruct (Z.compare_spec e e') as [->|Hlt|Hgt]; [|by left|done].
  right. split; [done|].
  change (Pos.compare_cont Eq m m') with (m ?= m')%positive in Hle.
  destruct (Pos.compare_spec m m'); [lia|lia|done].
Qed.

(** The quotient of two positive normal doubles, as a rounded quotient. *)
Lemma SFdiv_normal53 mx ex my ey :
  2 ^ 52 ≤ Z.pos mx < 2 ^ 53 → 2 ^ 52 ≤ Z.pos my < 2 ^ 53 →
  SpecFloat.emin prec emax ≤ ex - ey - 53 →
  SFdiv prec emax (S754_finite false mx ex) (S754_finite false my ey)
  = binary_round_aux prec emax false (Z.pos mx * 2 ^ 53 / Z.pos my) (ex - ey - 53)
      (loc_of_rem (Z.pos my) ((Z.pos mx * 2 ^ 53) mod Z.pos my)).
Proof.
  intros Hx Hy He. cbn [SFdiv xorb]. unfold SFdiv_core_binary.
  rewrite (Zdigits2_eq (Z.pos mx) 53), (Zdigits2_eq (Z.pos my) 53) by (simpl; lia).
  assert (Z.min (fexp prec emax (53 + ex - (53 + ey))) (ex - ey) = ex - ey - 53) as ->.
  { unfold fexp, SpecFloat.emin, prec, emax in *. lia. }
  replace (ex - ey - (ex - ey - 53)) with 53 by lia.
  rewrite Z.shiftl_mul_pow2 by lia.
  rewrite <- new_location_rem.
  unfold Z.div, Z.modulo.
  by destruct (Z.div_eucl (Z.pos mx * 2 ^ 53) (Z.pos my)) as [q r].
Qed.

(** Division by a fixed positive normal double is monotone. *)
Lemma SFdiv_mono x x' y :
  normal53 x (-52) 11 → normal53 x' (-52) 11 → normal53 y (-52) 11 →
  SFleb x x' = true →
  SFleb (SFdiv prec emax x y) (SFdiv prec emax x' y) = true.
Proof.
  intros Hx Hx' (my & ey & -> & Hmy & Hey) Hle.
  destruct (SFleb_normal53 x x' _ _ Hx Hx' Hle)
    as (m & e & m' & e' & -> & -> & Hm & Hm' & He & He' & Hord).
  assert (SpecFloat.emin prec emax = -1074) as Hemin by done.
  rewrite !SFdiv_normal53 by (done || lia).
  assert (0 < 2 ^ 52) as H52 by done. assert (2 ^ 53 = 2 * 2 ^ 52) as H53 by done.
  apply binary_round_aux_mono; try lia; try nia.
  rewrite Hemin.
  destruct Hord as [Hlt|[-> Hmm]].
  - set (a := e - ey - 53 - -1074). set (a' := e' - ey - 53 - -1074).
    assert (0 < 2 ^ a) as Ha by (apply Z.pow_pos_nonneg; lia).
    assert (2 * 2 ^ a ≤ 2 ^ a') as Hp.
    { rewrite <- Z.pow_succ_r by lia. apply Z.pow_le_mono_r; lia. }
    nia.
  - apply Z.mul_le_mono_nonneg_r; [apply Z.pow_nonneg; lia|nia].
Qed.

(** The support [verify_pattern] computes is monotone in the count. *)
Lemma int64_div_mono c c' t :
  0 ≤ c ≤ c' → c' < 2 ^ 63 → 0 < t < 2 ^ 63 →
  (int64_div c t <=? int64_div c' t)%float = true.
Proof.
  intros [Hc Hle] Hc' Ht. unfold int64_div.
  rewrite leb_spec, !div_spec. unfold SF64div.
  destruct (binary_normalize_normal53 t Ht) as [Hnt Hvt].
  rewrite (Prim2SF_SF2Prim _ Hvt).
  destruct (Z.eq_dec c' 0) as [->|Hc'0].
  - assert (c = 0) as -> by lia. cbn [binary_normalize].
    rewrite Prim2SF_SF2Prim by done.
    destruct Hnt as (m & e & -> & _). done.
  - destruct (binary_normalize_normal53 c' ltac:(lia)) as [Hn' Hv'].
    rewrite (Prim2SF_SF2Prim _ Hv').
    destruct (Z.eq_dec c 0) as [->|Hc0].
    + cbn [binary_normalize]. rewrite Prim2SF_SF2Prim by done.
      destruct Hn' as (m' & e' & -> & Hm' & He').
      destruct Hnt as (m & e & -> & Hm & He).
      rewrite SFdiv_normal53 by (done || (unfold SpecFloat.emin, prec, emax; lia)).
      assert (0 < 2 ^ 52) as H52 by done. assert (2 ^ 53 = 2 * 2 ^ 52) as H53 by done.
      destruct (binary_round_aux_normal (Z.pos m' * 2 ^ 53) (Z.pos m) (e' - e - 53))
        as (_ & _ & HM & ->); [lia|nia|unfold SpecFloat.emin, prec, emax; lia|].
      cbn [SFdiv xorb]. unfold normal_float.
      repeat case_match; done.
    + destruct (binary_normalize_normal53 c ltac:(lia)) as [Hn Hv].
      rewrite (Prim2SF_SF2Prim _ Hv).
      apply SFdiv_mono; try done. apply binary_normalize_mono. lia.
Qed.

End FloatFacts.

(** ** Support never decreases *)

Lemma row_keeps_pattern (row row' : list Z) cols :
  Forall2 Z.le row row' → Forall (λ v, v = 0 ∨ v = 1)%Z row' →
  has_pattern cols row = true → has_pattern cols row' = true.
Proof.
  intros Hle Hb. unfold has_pattern. rewrite !forallb_forall. intros Hall c Hc.
  specialize (Hall c Hc). apply bool_decide_eq_true in Hall. apply bool_decide_eq_true.
  destruct (Forall2_lookup_l _ _ _ _ _ Hle Hall) as (v' & Hv' & Hv).
  rewrite Forall_lookup in Hb. destruct (Hb _ _ Hv'); [lia|by subst].
Qed.

Lemma pattern_count_mono a a' cols :
  binary a' → grows a a' → pattern_count a cols ≤ pattern_count a' cols.
Proof.
  unfold binary, grows, pattern_count, contains_pattern. intros Hb [_ Hg].
  induction Hg as [|row row' l l' Hrow Hl IH]; [done|].
  apply Forall_cons in Hb as [Hb1 Hb2]. specialize (IH Hb2).
  rewrite !filter_cons.
  destruct (decide (has_pattern cols row = true)) as [Hp|Hp].
  - rewrite decide_True by (by eapply row_keeps_pattern). simpl. lia.
  - case_decide; simpl; lia.
Qed.

Lemma columns_grows a a' l : grows a a' → columns a' l = columns a l.
Proof. intros [Hc _]. induction l as [|c l IH]; simpl; [done|]. by rewrite Hc, IH. Qed.

Lemma pattern_count_le a cols : pattern_count a cols ≤ shape0 a.
Proof. apply length_filter. Qed.

(** C10. [inject_pattern] and [inject_multiple_patterns] never clear a
    cell of a 0/1 matrix: whatever the arguments and the random stream,
    and whether the call returns or raises, the matrix keeps its shape and
    every cell is at least what it was.  Consequently, for every item set,
    [verify_pattern] raises after the call exactly as it did before, and
    otherwise the support it reports after the call is at least the
    support it reported before. *)
Theorem inject_never_clears (self : PatternInjector.t) (ps : list pattern)
  (l : list Z) (ts nr : float) (w : world) :
  binary (arr w) →
  never_clears (arr w) (arr (inject_pattern self l ts nr w).2) ∧
  never_clears (arr w) (arr (inject_multiple_patterns self ps w).2).
Proof.
  intros Hb.
  assert (∀ a', only_sets (arr w) a' → never_clears (arr w) a') as Hnc.
  { intros a' Hos. destruct (Hos Hb) as [Hb' Hg].
    destruct (grows_shape _ _ Hg) as [Hs Hc].
    split; [done|]. split; [intros r c; by apply grows_cell|].
    intros its. unfold verify_pattern. rewrite (columns_grows _ _ _ Hg), Hs.
    destruct its as [|it its]; [done|].
    destruct (columns (arr w) (it :: its)) as [cols|e]; [|done].
    intros Hrows. pose proof (pattern_count_mono _ _ cols Hb' Hg) as Hcount.
    pose proof (pattern_count_le a' cols) as Hle. rewrite Hs in Hle.
    apply int64_div_mono; lia. }
  split; apply Hnc;
    [apply inject_pattern_only_sets | apply inject_multiple_only_sets].
Qed.

(** ** Rounding a quotient, from the subnormal numbers to infinity *)

Section Rounding.

Local Open Scope Z_scope.

(** Rounding a mantissa that is not negative gives a number. *)
Lemma binary_round_aux_number s m e l :
  0 ≤ m → binary_round_aux prec emax s m e l ≠ S754_nan.
Proof.
  intros Hm. unfold binary_round_aux.
  pose proof (shr_fexp_spec m e l Hm) as H1.
  destruct (shr_fexp prec emax m e l) as [mrs1 e1]. destruct H1 as [_ H1].
  pose proof (round_nearest_even_bounds (shr_m mrs1) (loc_of_shr_record mrs1)) as [Hr _].
  assert (0 ≤ shr_m mrs1) as H0
    by (rewrite H1; apply Z_div_nonneg_nonneg; [done|]; apply Z.pow_nonneg; lia).
  pose proof (shr_fexp_spec _ e1 loc_Exact (Z.le_trans _ _ _ H0 Hr)) as H2.
  destruct (shr_fexp prec emax _ e1 loc_Exact) as [mrs2 e2]. destruct H2 as [_ H2].
  assert (0 ≤ shr_m mrs2) as H3.
  { rewrite H2. apply Z_div_nonneg_nonneg; [lia|]. apply Z.pow_nonneg. lia. }
  destruct (shr_m mrs2); [done| |lia]. by case_match.
Qed.

Lemma SFdiv_finite_number s m e y :
  y ≠ S754_nan → SFdiv prec emax (S754_finite s m e) y ≠ S754_nan.
Proof.
  destruct y as [sy|sy| |sy my ey]; try done. intros _. cbn [SFdiv].
  unfold SFdiv_core_binary.
  set (sh := e - ey - Z.min _ _).
  set (m' := match sh with Z.pos _ => _ | Z0 => _ | Z.neg _ => _ end).
  assert (0 ≤ m') as Hm'.
  { subst m'. destruct sh; [done| |done]. apply Z.shiftl_nonneg. done. }
  pose proof (Z_div_mod m' (Z.pos my) ltac:(done)) as Hdm.
  destruct (Z.div_eucl m' (Z.pos my)) as [q r].
  apply binary_round_aux_number. nia.
Qed.

Lemma SFleb_finite m e m' e' :
  SFleb (S754_finite false m e) (S754_finite false m' e') = true →
  e < e' ∨ (e = e' ∧ Z.pos m ≤ Z.pos m').
Proof.
  unfold SFleb, SFcompare.
  destruct (Z.compare_spec e e') as [->|Hlt|Hgt]; [|by left|done].
  change (Pos.compare_cont Eq m m') with (m ?= m')%positive.
  destruct (Pos.compare_spec m m') as [->|Hlt|]; [| |done]; intros _; right; lia.
Qed.

Lemma fexp_eq d : fexp prec emax d = Z.max (d - 53) (-1074).
Proof. reflexivity. Qed.

Lemma Zdigits2_nonneg z : 0 ≤ Zdigits2 z.
Proof. destruct z; simpl; lia. Qed.

(** [binary_round_aux] on a quotient whose exponent is not above the
    canonical one: the quotient is rounded once, at the canonical
    exponent. *)
Lemma binary_round_aux_aligned n d e :
  0 < d → 0 ≤ n → e ≤ fexp prec emax (Zdigits2 (n / d) + e) →
  let e1 := fexp prec emax (Zdigits2 (n / d) + e) in
  let M := rne n (d * 2 ^ (e1 - e)) in
  binary_round_aux prec emax false (n / d) e (loc_of_rem d (n mod d)) = round_float M e1 ∧
  0 ≤ M ≤ 2 ^ 53 ∧ (2 ^ 52 ≤ M ∨ e1 = -1074) ∧ -1074 ≤ e1.
Proof.
  intros Hd Hn Hal e1 M.
  pose proof (Z.div_mod n d ltac:(lia)) as Hdm.
  pose proof (Z.mod_pos_bound n d Hd) as Hr.
  assert (0 ≤ n / d) as Hq0 by (apply Z.div_pos; lia).
  pose proof (Zdigits2_lt (n / d) Hq0) as Hqhi.
  pose proof (Zdigits2_nonneg (n / d)) as Hdq0.
  set (q := n / d) in *. set (dq := Zdigits2 q) in *.
  assert (e1 = Z.max (dq + e - 53) (-1074)) as He1 by (subst e1; apply fexp_eq).
  fold e1 in Hal.
  set (k := e1 - e) in *.
  assert (0 ≤ k) as Hk by lia.
  assert (0 < 2 ^ k) as Hpk by (apply Z.pow_pos_nonneg; lia).
  assert (0 < 2 ^ 52) as H52 by done.
  assert (2 ^ 53 = 2 * 2 ^ 52) as H53 by done.
  assert (n < d * 2 ^ dq) as Hnhi by nia.
  assert (0 ≤ M) as HM0.
  { subst M. etrans; [|apply rne_bounds]. apply Z.div_pos; nia. }
  assert (M ≤ 2 ^ 53 ∧ (2 ^ 52 ≤ M ∨ e1 = -1074)) as [HMhi HMlo].
  { destruct (Z.le_gt_cases (-1074) (dq + e - 53)) as [Hnorm|Hsub].
    - assert (k = dq - 53) as Hkq by lia.
      assert (0 < q) as Hqpos.
      { destruct (Z.eq_dec q 0) as [Hq|]; [|lia]. subst dq. rewrite Hq in *. simpl in *. lia. }
      pose proof (Zdigits2_bounds q Hqpos) as [Hqlo _]. fold dq in Hqlo.
      assert (2 ^ (dq - 1) = 2 ^ k * 2 ^ 52) as Hp1
        by (rewrite <- Z.pow_add_r by lia; f_equal; lia).
      assert (2 ^ dq = 2 ^ k * 2 ^ 53) as Hp2
        by (rewrite <- Z.pow_add_r by lia; f_equal; lia).
      split.
      + subst M. apply rne_le_ceil; [nia|]. rewrite Hp2 in Hnhi. nia.
      + left. subst M. etrans; [|apply rne_bounds].
        apply Z.div_le_lower_bound; [nia|]. nia.
    - assert (e1 = -1074) as He1' by lia.
      assert (2 ^ dq ≤ 2 ^ (k + 52)) as Hp by (apply Z.pow_le_mono_r; lia).
      assert (2 ^ (k + 52) = 2 ^ k * 2 ^ 52) as Hp2 by (rewrite Z.pow_add_r; lia).
      split; [|by right].
      etrans; [|apply (Z.pow_le_mono_r 2 52 53); lia].
      subst M. apply rne_le_ceil; [nia|]. nia. }
  split; [|split; [done|split; [done|lia]]].
  unfold binary_round_aux.
  pose proof (shr_fexp_rem n d e Hd Hn) as H1. fold q in H1.
  destruct (shr_fexp prec emax q e (loc_of_rem d (n mod d))) as [mrs1 e1'].
  destruct H1 as [He1' HM]. fold dq in He1'. fold e1 in He1'.
  assert (e1' = e1) as -> by lia. fold k in HM. fold M in HM. rewrite HM.
  pose proof (shr_fexp_spec M e1 loc_Exact HM0) as H2.
  destruct (shr_fexp prec emax M e1 loc_Exact) as [mrs2 e2].
  destruct H2 as [He2 HM2]. rewrite fexp_eq in He2.
  unfold round_float, normal_float.
  destruct (Z.eqb_spec M 0) as [HMz|HMnz].
  - rewrite HMz in *. simpl in He2. assert (e2 = e1) as -> by lia.
    rewrite HM2. by rewrite Z.sub_diag.
  - destruct (Z.ltb_spec M (2 ^ 53)) as [Hlt|Hge].
    + assert (Zdigits2 M ≤ 53) as HdM by (apply Zdigits2_le; lia).
      assert (e2 = e1) as -> by lia.
      rewrite HM2, Z.sub_diag, Z.div_1_r.
      destruct M as [|p|p]; [lia| |lia]. done.
    + assert (M = 2 ^ 53) as HM53 by lia.
      rewrite HM53 in He2, HM2. change (Zdigits2 (2 ^ 53)) with 54 in He2.
      assert (e2 = e1 + 1) as -> by lia.
      replace (e1 + 1 - e1) with 1 in HM2 by lia. rewrite HM2. done.
Qed.

(** The order of two rounded values is the order of the doubles. *)
Lemma round_float_le M e M' e' :
  0 ≤ M ≤ 2 ^ 53 → (2 ^ 52 ≤ M ∨ e = -1074) → -1074 ≤ e →
  0 ≤ M' ≤ 2 ^ 53 → (2 ^ 52 ≤ M' ∨ e' = -1074) → -1074 ≤ e' →
  M * 2 ^ (e - -1074) ≤ M' * 2 ^ (e' - -1074) →
  SFleb (round_float M e) (round_float M' e') = true.
Proof.
  intros HM Hc He HM' Hc' He' Hval.
  assert (0 < 2 ^ 52) as H52 by done.
  assert (2 ^ 53 = 2 * 2 ^ 52) as H53 by done.
  assert (0 < 2 ^ (e - -1074)) as Hpe by (apply Z.pow_pos_nonneg; lia).
  assert (0 < 2 ^ (e' - -1074)) as Hpe' by (apply Z.pow_pos_nonneg; lia).
  unfold round_float.
  destruct (Z.eqb_spec M 0) as [->|HMnz].
  { destruct (M' =? 0); [done|]. unfold normal_float.
    destruct (M' <? 2 ^ 53); by case_match. }
  destruct (Z.eqb_spec M' 0) as [->|HMnz']; [nia|].
  assert (∀ m x, 0 < m ≤ 2 ^ 53 → (2 ^ 52 ≤ m ∨ x = -1074) → -1074 ≤ x →
            ∃ m2 x2, normal_float m x
                     = (if x2 <=? emax - prec then S754_finite false (Z.to_pos m2) x2
                        else S754_infinity false) ∧
                     0 < m2 < 2 ^ 53 ∧ (2 ^ 52 ≤ m2 ∨ x2 = -1074) ∧ -1074 ≤ x2 ∧
                     m2 * 2 ^ (x2 - -1074) = m * 2 ^ (x - -1074)) as Hcan.
  { intros m x Hm Hcm Hx. unfold normal_float.
    destruct (Z.ltb_spec m (2 ^ 53)) as [Hlt|Hge].
    - exists m, x. split; [done|]. repeat split; (done || lia).
    - exists (2 ^ 52), (x + 1). split; [done|].
      split; [lia|]. split; [by left|]. split; [lia|].
      assert (m = 2 ^ 53) as -> by lia.
      replace (x + 1 - -1074) with (1 + (x - -1074)) by lia.
      rewrite Z.pow_add_r by lia. lia. }
  destruct (Hcan M e ltac:(lia) Hc He) as (m2 & x2 & -> & Hm2 & Hc2 & Hx2 & Hv2).
  destruct (Hcan M' e' ltac:(lia) Hc' He') as (m2' & x2' & -> & Hm2' & Hc2' & Hx2' & Hv2').
  rewrite <- Hv2, <- Hv2' in Hval. clear Hcan Hv2 Hv2'.
  assert (0 < 2 ^ (x2' - -1074)) as Hq' by (apply Z.pow_pos_nonneg; lia).
  assert (x2 < x2' ∨ (x2 = x2' ∧ m2 ≤ m2')) as Hord.
  { destruct (Z.lt_trichotomy x2 x2') as [Hlt|[Heq|Hgt]]; [by left| |exfalso].
    - right. split; [done|]. subst x2'. nia.
    - assert (2 * 2 ^ (x2' - -1074) ≤ 2 ^ (x2 - -1074)) as Hp.
      { rewrite <- Z.pow_succ_r by lia. apply Z.pow_le_mono_r; lia. }
      destruct Hc2 as [Hc2|Hc2]; [|lia]. nia. }
  unfold emax, prec in *.
  destruct (Z.leb_spec x2' (1024 - 53)) as [Hle'|Hgt'].
  - rewrite (proj2 (Z.leb_le x2 (1024 - 53))) by lia.
    unfold SFleb, SFcompare.
    destruct Hord as [Hlt|[-> Hmm]].
    + by rewrite (proj2 (Z.compare_lt_iff _ _) Hlt).
    + rewrite Z.compare_refl.
      change (Pos.compare_cont Eq (Z.to_pos m2) (Z.to_pos m2'))
        with (Z.to_pos m2 ?= Z.to_pos m2')%positive.
      destruct (Pos.compare_spec (Z.to_pos m2) (Z.to_pos m2')); [done|done|lia].
  - by destruct (x2 <=? 1024 - 53).
Qed.

(** Rounding a quotient is monotone in the value of the quotient, from
    the subnormal numbers up to infinity. *)
Lemma binary_round_aux_monotone d n e n' e' c :
  0 < d → 0 ≤ n → 0 ≤ n' →
  e ≤ fexp prec emax (Zdigits2 (n / d) + e) →
  e' ≤ fexp prec emax (Zdigits2 (n' / d) + e') →
  c ≤ e → c ≤ e' →
  n * 2 ^ (e - c) ≤ n' * 2 ^ (e' - c) →
  SFleb (binary_round_aux prec emax false (n / d) e (loc_of_rem d (n mod d)))
        (binary_round_aux prec emax false (n' / d) e' (loc_of_rem d (n' mod d))) = true.
Proof.
  intros Hd Hn Hn' Hal Hal' Hc Hc' Hval.
  pose proof (binary_round_aux_aligned n d e Hd Hn Hal) as HA.
  pose proof (binary_round_aux_aligned n' d e' Hd Hn' Hal') as HA'.
  cbv zeta in HA, HA'.
  remember (fexp prec emax (Zdigits2 (n / d) + e)) as e1 eqn:He1def.
  remember (fexp prec emax (Zdigits2 (n' / d) + e')) as e1' eqn:He1def'.
  rewrite fexp_eq in He1def, He1def'.
  destruct HA as (-> & HM & Hcan & He1). destruct HA' as (-> & HM' & Hcan' & He1').
  set (q := n / d) in *. set (q' := n' / d) in *.
  set (dq := Zdigits2 q) in *. set (dq' := Zdigits2 q') in *.
  pose proof (Z.div_mod n d ltac:(lia)) as Hdm.
  pose proof (Z.mod_pos_bound n d Hd) as Hr.
  pose proof (Z.div_mod n' d ltac:(lia)) as Hdm'.
  pose proof (Z.mod_pos_bound n' d Hd) as Hr'.
  fold q in Hdm. fold q' in Hdm'.
  assert (0 ≤ q) as Hq0 by (apply Z.div_pos; lia).
  assert (0 ≤ q') as Hq0' by (apply Z.div_pos; lia).
  pose proof (Zdigits2_nonneg q) as Hdq0. pose proof (Zdigits2_nonneg q') as Hdq0'.
  fold dq in Hdq0. fold dq' in Hdq0'.
  assert (0 < 2 ^ 52) as H52 by done.
  assert (2 ^ 53 = 2 * 2 ^ 52) as H53 by done.
  assert (0 < 2 ^ (e - c)) as Hpe by (apply Z.pow_pos_nonneg; lia).
  assert (0 < 2 ^ (e' - c)) as Hpe' by (apply Z.pow_pos_nonneg; lia).
  assert (e1 ≤ e1') as Hmono.
  { destruct (Z.eq_dec q 0) as [Hq|Hq].
    - assert (dq = 0) as Hdq by (subst dq; by rewrite Hq). lia.
    - enough (dq + e ≤ dq' + e') by lia.
      destruct (Z.le_gt_cases (dq + e) (dq' + e')) as [|Hgt]; [done|exfalso].
      pose proof (Zdigits2_bounds q ltac:(lia)) as [Hqlo _]. fold dq in Hqlo.
      pose proof (Zdigits2_lt q' Hq0') as Hqhi'. fold dq' in Hqhi'.
      assert (0 < dq) as Hdqpos.
      { pose proof (Zdigits2_lt q Hq0) as Hlt0. fold dq in Hlt0.
        destruct (Z.eq_dec dq 0) as [H0|]; [|lia]. rewrite H0 in Hlt0. simpl in Hlt0. lia. }
      assert (2 ^ (dq' + e' - c) ≤ 2 ^ (dq - 1 + e - c)) as Hp
        by (apply Z.pow_le_mono_r; lia).
      replace (dq - 1 + e - c) with ((dq - 1) + (e - c)) in Hp by lia.
      replace (dq' + e' - c) with (dq' + (e' - c)) in Hp by lia.
      rewrite !Z.pow_add_r in Hp by lia.
      assert (0 < 2 ^ (dq - 1)) by (apply Z.pow_pos_nonneg; lia).
      assert (0 < 2 ^ dq') by (apply Z.pow_pos_nonneg; lia).
      assert (n' < d * 2 ^ dq') by nia.
      assert (d * 2 ^ (dq - 1) ≤ n) by nia.
      assert (n' * 2 ^ (e' - c) < d * 2 ^ dq' * 2 ^ (e' - c)) by nia.
      assert (d * 2 ^ (dq - 1) * 2 ^ (e - c) ≤ n * 2 ^ (e - c)) by nia.
      nia. }
  apply round_float_le; try done.
  set (M := rne n (d * 2 ^ (e1 - e))) in *. set (M' := rne n' (d * 2 ^ (e1' - e'))) in *.
  destruct (Z.eq_dec e1 e1') as [Heq|Hne].
  - subst M M'. rewrite <- Heq. apply Z.mul_le_mono_nonneg_r; [apply Z.pow_nonneg; lia|].
    rewrite <- (rne_scale n (d * 2 ^ (e1 - e)) (2 ^ (e - c))),
            <- (rne_scale n' (d * 2 ^ (e1 - e')) (2 ^ (e' - c)));
      try done; try (apply Z.mul_pos_pos; [done|apply Z.pow_pos_nonneg; lia]).
    rewrite <- !Z.mul_assoc, <- !Z.pow_add_r by lia.
    replace (e1 - e + (e - c)) with (e1 - c) by lia.
    replace (e1 - e' + (e' - c)) with (e1 - c) by lia.
    apply rne_mono; [|done].
    apply Z.mul_pos_pos; [done|apply Z.pow_pos_nonneg; lia].
  - assert (e1 < e1') as Hlt by lia.
    destruct Hcan' as [Hcan'|Hcan']; [|lia].
    assert (2 * 2 ^ (e1 - -1074) ≤ 2 ^ (e1' - -1074)) as Hp.
    { rewrite <- Z.pow_succ_r by lia. apply Z.pow_le_mono_r; lia. }
    assert (0 < 2 ^ (e1 - -1074)) by (apply Z.pow_pos_nonneg; lia).
    nia.
Qed.

Lemma loc_of_rem_scale d r c :
  0 < c → loc_of_rem (d * c) (r * c) = loc_of_rem d r.
Proof.
  intros Hc. unfold loc_of_rem.
  destruct (Z.eqb_spec r 0) as [->|Hr].
  - done.
  - destruct (Z.eqb_spec (r * c) 0) as [H0|_]; [nia|]. f_equal.
    destruct (Z.compare_spec (2 * (r * c)) (d * c)), (Z.compare_spec (2 * r) d);
      (done || nia).
Qed.

Lemma binary_round_aux_scale n d e c :
  0 < d → 0 < c →
  binary_round_aux prec emax false (n * c / (d * c)) e
    (loc_of_rem (d * c) ((n * c) mod (d * c)))
  = binary_round_aux prec emax false (n / d) e (loc_of_rem d (n mod d)).
Proof.
  intros Hd Hc.
  rewrite Z.div_mul_cancel_r, Z.mul_mod_distr_r by lia.
  by rewrite loc_of_rem_scale.
Qed.

(** The quotient of two positive doubles, as a rounded quotient of
    integers at an exponent that is not above the canonical one. *)
Lemma SFdiv_quotient mx ex my ey :
  Z.pos (digits2_pos mx) ≤ 53 →
  ∃ s e',
    0 ≤ s ∧ s + e' = ex - ey ∧
    e' ≤ fexp prec emax (Zdigits2 (Z.pos mx * 2 ^ s / Z.pos my) + e') ∧
    SFdiv prec emax (S754_finite false mx ex) (S754_finite false my ey)
    = binary_round_aux prec emax false (Z.pos mx * 2 ^ s / Z.pos my) e'
        (loc_of_rem (Z.pos my) ((Z.pos mx * 2 ^ s) mod Z.pos my)).
Proof.
  intros Hdx. cbn [SFdiv xorb]. unfold SFdiv_core_binary.
  cbn [Zdigits2].
  pose proof (digits2_pos_bounds mx) as [Hxlo Hxhi].
  pose proof (digits2_pos_bounds my) as [Hylo Hyhi].
  set (dx := Z.pos (digits2_pos mx)) in *. set (dy := Z.pos (digits2_pos my)) in *.
  assert (0 < dx) as Hdx0 by (subst dx; lia).
  assert (0 < dy) as Hdy0 by (subst dy; lia).
  set (e' := Z.min (fexp prec emax (dx + ex - (dy + ey))) (ex - ey)).
  assert (e' = Z.min (Z.max (dx + ex - (dy + ey) - 53) (-1074)) (ex - ey)) as He'
    by (subst e'; by rewrite fexp_eq).
  set (s := ex - ey - e').
  assert (0 ≤ s) as Hs by lia.
  exists s, e'. split; [done|]. split; [lia|].
  assert (match s with
          | 0 => Z.pos mx
          | Z.pos _ => Z.shiftl (Z.pos mx) s
          | Z.neg _ => 0
          end = Z.pos mx * 2 ^ s) as ->.
  { destruct s as [|p|p] eqn:Es; [lia| |lia]. by rewrite Z.shiftl_mul_pow2. }
  split.
  - rewrite fexp_eq.
    destruct (Z.le_gt_cases e' (-1074)) as [Hsub|Hnorm]; [lia|].
    assert (s = 53 - dx + dy) as Hsv by lia.
    assert (0 < 2 ^ 52) as H52 by done.
    assert (2 ^ (dx - 1) * 2 ^ s = 2 ^ 52 * 2 ^ dy) as Hp.
    { rewrite <- !Z.pow_add_r by lia. f_equal. lia. }
    assert (0 < 2 ^ s) as Hps by (apply Z.pow_pos_nonneg; lia).
    assert (2 ^ 52 ≤ Z.pos mx * 2 ^ s / Z.pos my) as Hq.
    { apply Z.div_le_lower_bound; [lia|]. nia. }
    assert (53 ≤ Zdigits2 (Z.pos mx * 2 ^ s / Z.pos my)) as Hdq.
    { destruct (Z.le_gt_cases 53 (Zdigits2 (Z.pos mx * 2 ^ s / Z.pos my))) as [|Hlt];
        [done|exfalso].
      pose proof (Zdigits2_lt (Z.pos mx * 2 ^ s / Z.pos my) ltac:(lia)) as Hlt2.
      pose proof (Zdigits2_nonneg (Z.pos mx * 2 ^ s / Z.pos my)) as H0.
      assert (2 ^ Zdigits2 (Z.pos mx * 2 ^ s / Z.pos my) ≤ 2 ^ 52)
        by (apply Z.pow_le_mono_r; lia).
      lia. }
    lia.
  - rewrite <- new_location_rem. unfold Z.div, Z.modulo.
    by destruct (Z.div_eucl (Z.pos mx * 2 ^ s) (Z.pos my)) as [q r].
Qed.

(** Rounding two quotients with different divisors. *)
Lemma binary_round_aux_monotone2 d d' n n' e e' c :
  0 < d → 0 < d' → 0 ≤ n → 0 ≤ n' →
  e ≤ fexp prec emax (Zdigits2 (n / d) + e) →
  e' ≤ fexp prec emax (Zdigits2 (n' / d') + e') →
  c ≤ e → c ≤ e' →
  n * d' * 2 ^ (e - c) ≤ n' * d * 2 ^ (e' - c) →
  SFleb (binary_round_aux prec emax false (n / d) e (loc_of_rem d (n mod d)))
        (binary_round_aux prec emax false (n' / d') e' (loc_of_rem d' (n' mod d'))) = true.
Proof.
  intros Hd Hd' Hn Hn' Hal Hal' Hc Hc' Hval.
  rewrite <- (binary_round_aux_scale n d e d'), <- (binary_round_aux_scale n' d' e' d) by done.
  rewrite (Z.mul_comm d' d).
  apply (binary_round_aux_monotone (d * d') (n * d') e (n' * d) e' c); try done; try nia.
  - by rewrite Z.div_mul_cancel_r by lia.
  - rewrite (Z.mul_comm d d'). by rewrite Z.div_mul_cancel_r by lia.
Qed.

(** What a canonical mantissa and exponent say. *)
Lemma bounded_canonical m e :
  SpecFloat.bounded prec emax m e = true →
  Z.pos (digits2_pos m) ≤ 53 ∧ -1074 ≤ e ∧ (2 ^ 52 ≤ Z.pos m ∨ e = -1074).
Proof.
  intros Hb. apply andb_true_iff in Hb as [Hcan _]. apply Z.eqb_eq in Hcan.
  rewrite fexp_eq in Hcan.
  pose proof (digits2_pos_bounds m) as [Hlo _].
  split; [lia|]. split; [lia|].
  destruct (Z.eq_dec e (-1074)) as [|Hne]; [by right|left].
  assert (Z.pos (digits2_pos m) = 53) as Hd by lia. by rewrite Hd in Hlo.
Qed.

(** The order of two positive doubles is the order of their values. *)
Lemma finite_le_value m e m' e' c :
  SpecFloat.bounded prec emax m e = true → SpecFloat.bounded prec emax m' e' = true →
  SFleb (S754_finite false m e) (S754_finite false m' e') = true →
  c ≤ e → c ≤ e' →
  Z.pos m * 2 ^ (e - c) ≤ Z.pos m' * 2 ^ (e' - c).
Proof.
  intros Hb Hb' Hle Hc Hc'.
  destruct (bounded_canonical m e Hb) as (Hd & He & _).
  destruct (bounded_canonical m' e' Hb') as (_ & _ & Hcan').
  apply SFleb_finite in Hle as [Hlt|[-> Hm]].
  - destruct Hcan' as [Hm'|]; [|lia].
    pose proof (digits2_pos_bounds m) as [_ Hhi].
    assert (2 ^ Z.pos (digits2_pos m) ≤ 2 ^ 53) by (apply Z.pow_le_mono_r; lia).
    assert (2 * 2 ^ (e - c) ≤ 2 ^ (e' - c)) as Hp.
    { rewrite <- Z.pow_succ_r by lia. apply Z.pow_le_mono_r; lia. }
    assert (0 < 2 ^ (e - c)) by (apply Z.pow_pos_nonneg; lia).
    assert (2 ^ 53 = 2 * 2 ^ 52) as H53 by done.
    assert (0 < 2 ^ 52) by done.
    nia.
  - apply Z.mul_le_mono_nonneg_r; [apply Z.pow_nonneg; lia|done].
Qed.

(** Division of positive doubles is monotone in the dividend and
    antitone in the divisor. *)
Lemma SFdiv_finite_monotone mx ex mx' ex' my ey my' ey' :
  SpecFloat.bounded prec emax mx ex = true → SpecFloat.bounded prec emax mx' ex' = true →
  SpecFloat.bounded prec emax my ey = true → SpecFloat.bounded prec emax my' ey' = true →
  SFleb (S754_finite false mx ex) (S754_finite false mx' ex') = true →
  SFleb (S754_finite false my' ey') (S754_finite false my ey) = true →
  SFleb (SFdiv prec emax (S754_finite false mx ex) (S754_finite false my ey))
        (SFdiv prec emax (S754_finite false mx' ex') (S754_finite false my' ey')) = true.
Proof.
  intros Hbx Hbx' Hby Hby' Hx Hy.
  destruct (bounded_canonical _ _ Hbx) as (Hdx & Hex & _).
  destruct (bounded_canonical _ _ Hbx') as (Hdx' & Hex' & _).
  destruct (bounded_canonical _ _ Hby) as (_ & Hey & _).
  destruct (bounded_canonical _ _ Hby') as (_ & Hey' & _).
  destruct (SFdiv_quotient mx ex my ey Hdx) as (s & e1 & Hs & Hse & Hal & ->).
  destruct (SFdiv_quotient mx' ex' my' ey' Hdx') as (s' & e1' & Hs' & Hse' & Hal' & ->).
  apply (binary_round_aux_monotone2 _ _ _ _ _ _ (Z.min e1 e1')); try done; try lia.
  set (c0 := Z.min e1 e1').
  set (b := Z.min (-1074) (c0 + Z.min ey ey')).
  pose proof (finite_le_value mx ex mx' ex' b Hbx Hbx' Hx ltac:(lia) ltac:(lia)) as Hvx.
  pose proof (finite_le_value my' ey' my ey b Hby' Hby Hy ltac:(lia) ltac:(lia)) as Hvy.
  assert (∀ a, 0 ≤ a → 0 < 2 ^ a) as Hpos by (intros; apply Z.pow_pos_nonneg; lia).
  set (t := ex - ey - c0). set (t' := ex' - ey' - c0).
  set (g := ey + ey' + c0 - 2 * b).
  assert (0 ≤ t ∧ 0 ≤ t' ∧ 0 ≤ g) as (Ht & Ht' & Hg) by lia.
  assert (2 ^ s * 2 ^ (e1 - c0) = 2 ^ t) as Hp1
    by (rewrite <- Z.pow_add_r by lia; f_equal; lia).
  assert (2 ^ s' * 2 ^ (e1' - c0) = 2 ^ t') as Hp2
    by (rewrite <- Z.pow_add_r by lia; f_equal; lia).
  assert (2 ^ (ex - b) * 2 ^ (ey' - b) = 2 ^ t * 2 ^ g) as Hq1
    by (rewrite <- !Z.pow_add_r by lia; f_equal; lia).
  assert (2 ^ (ex' - b) * 2 ^ (ey - b) = 2 ^ t' * 2 ^ g) as Hq2
    by (rewrite <- !Z.pow_add_r by lia; f_equal; lia).
  replace (Z.pos mx * 2 ^ s * Z.pos my' * 2 ^ (e1 - c0))
    with (Z.pos mx * Z.pos my' * (2 ^ s * 2 ^ (e1 - c0))) by ring.
  replace (Z.pos mx' * 2 ^ s' * Z.pos my * 2 ^ (e1' - c0))
    with (Z.pos mx' * Z.pos my * (2 ^ s' * 2 ^ (e1' - c0))) by ring.
  rewrite Hp1, Hp2.
  apply (Z.mul_le_mono_pos_r _ _ (2 ^ g) (Hpos g Hg)).
  assert (Z.pos mx * Z.pos my' * 2 ^ t * 2 ^ g
          = Z.pos mx * 2 ^ (ex - b) * (Z.pos my' * 2 ^ (ey' - b))) as ->
    by (trans (Z.pos mx * Z.pos my' * (2 ^ t * 2 ^ g)); [ring|rewrite <- Hq1; ring]).
  assert (Z.pos mx' * Z.pos my * 2 ^ t' * 2 ^ g
          = Z.pos mx' * 2 ^ (ex' - b) * (Z.pos my * 2 ^ (ey - b))) as ->
    by (trans (Z.pos mx' * Z.pos my * (2 ^ t' * 2 ^ g)); [ring|rewrite <- Hq2; ring]).
  apply Z.mul_le_mono_nonneg; try done.
  - apply Z.mul_nonneg_nonneg; [done|]. apply Z.pow_nonneg. lia.
  - apply Z.mul_nonneg_nonneg; [done|]. apply Z.pow_nonneg. lia.
Qed.

End Rounding.

(** ** The shape of the Zipf distribution *)

Import DistributionEngine.

Lemma Prim2SF_infinity : Prim2SF infinity = S754_infinity false.
Proof. vm_compute. reflexivity. Qed.

Lemma SFleb_refl_finite m e : SFleb (S754_finite false m e) (S754_finite false m e) = true.
Proof.
  unfold SFleb, SFcompare. rewrite Z.compare_refl.
  change (Pos.compare_cont Eq m m) with (m ?= m)%positive. by rewrite Pos.compare_refl.
Qed.

Lemma SFleb_zero_l x :
  sign_clear x → x ≠ S754_nan → SFleb (S754_zero false) x = true.
Proof. destruct x as [[]|[]| |[] m e]; done. Qed.

Lemma SFleb_infinity_r x :
  sign_clear x → x ≠ S754_nan → SFleb x (S754_infinity false) = true.
Proof. destruct x as [[]|[]| |[] m e]; done. Qed.

(** A positive double: finite with a canonical mantissa, or infinite. *)
Lemma positive_cases (x : float) :
  (0 <? x)%float = true →
  Prim2SF x = S754_infinity false ∨
  ∃ m e, Prim2SF x = S754_finite false m e ∧ SpecFloat.bounded prec emax m e = true.
Proof.
  intros H0. apply ltb_zero_sign_clear in H0. pose proof (Prim2SF_valid x) as Hv.
  destruct (Prim2SF x) as [s|[]| |[] m e]; try done; [by left|right].
  by exists m, e.
Qed.

Lemma quotient_number (x y : float) :
  sign_clear (Prim2SF x) → Prim2SF x ≠ S754_nan → (0 <? y)%float = true →
  (y <? infinity)%float = true ∨ (∃ m e, Prim2SF x = S754_finite false m e) →
  sign_clear (Prim2SF (x / y)) ∧ Prim2SF (x / y)%float ≠ S754_nan.
Proof.
  intros Hs Hn Hy Hfin. split.
  - apply div_sign_clear; [done|by apply positive_sign_clear].
  - rewrite div_spec. unfold SF64div.
    rewrite ltb_spec, Prim2SF_infinity in Hfin.
    destruct (positive_cases y Hy) as [Hy'|(m & e & Hy' & _)]; rewrite Hy' in *.
    + destruct Hfin as [Hfin|(mx & ex & Hx)]; [done|]. by rewrite Hx.
    + destruct (Prim2SF x) as [sx|sx| |sx mx ex]; try done.
      by apply SFdiv_finite_number.
Qed.

(** The reciprocal of a positive double does not increase with it. *)
Lemma reciprocal_antitone (y y' : float) :
  (0 <? y)%float = true → (y <=? y')%float = true →
  (1 / y' <=? 1 / y)%float = true.
Proof.
  intros Hy Hle.
  assert (sign_clear (Prim2SF 1) ∧ Prim2SF 1 ≠ S754_nan) as [H1s H1n]
    by (by rewrite Prim2SF_one).
  assert (∃ m e, Prim2SF 1 = S754_finite false m e) as H1f by (rewrite Prim2SF_one; eauto).
  assert ((0 <? y')%float = true) as Hy'.
  { rewrite ltb_spec, Prim2SF_zero. rewrite leb_spec in Hle.
    apply ltb_zero_sign_clear in Hy.
    destruct (Prim2SF y) as [s|[]| |[] m e]; try done;
      by destruct (Prim2SF y') as [s'|[]| |[] m' e']. }
  destruct (quotient_number 1 y H1s H1n Hy (or_intror H1f)) as [Hqs Hqn].
  destruct (quotient_number 1 y' H1s H1n Hy' (or_intror H1f)) as [Hqs' Hqn'].
  rewrite leb_spec in Hle |- *. rewrite !div_spec in *. unfold SF64div in *.
  pose proof (Prim2SF_valid 1) as Hv1. rewrite Prim2SF_one in *.
  destruct (positive_cases y' Hy') as [Hi'|(m' & e' & Hf' & Hb')]; rewrite ?Hi', ?Hf' in *.
  { by apply SFleb_zero_l. }
  destruct (positive_cases y Hy) as [Hi|(m & e & Hf & Hb)]; rewrite ?Hi, ?Hf in *.
  { done. }
  apply SFdiv_finite_monotone; try done; apply SFleb_refl_finite.
Qed.

(** Division by a positive finite double is monotone on the doubles that
    are not negative. *)
Lemma quotient_monotone (w w' s : float) :
  sign_clear (Prim2SF w) → Prim2SF w ≠ S754_nan →
  sign_clear (Prim2SF w') → Prim2SF w' ≠ S754_nan →
  (0 <? s)%float = true → (s <? infinity)%float = true →
  (w <=? w')%float = true →
  (w / s <=? w' / s)%float = true.
Proof.
  intros Hws Hwn Hws' Hwn' Hs0 Hsi Hle.
  destruct (quotient_number w s Hws Hwn Hs0 (or_introl Hsi)) as [Hqs Hqn].
  destruct (quotient_number w' s Hws' Hwn' Hs0 (or_introl Hsi)) as [Hqs' Hqn'].
  rewrite leb_spec in Hle |- *. rewrite !div_spec in *. unfold SF64div in *.
  rewrite ltb_spec, Prim2SF_infinity in Hsi.
  destruct (positive_cases s Hs0) as [Hi|(ms & es & Hf & Hbs)]; rewrite ?Hi, ?Hf in *.
  { done. }
  pose proof (Prim2SF_valid w) as Hv. pose proof (Prim2SF_valid w') as Hv'.
  destruct (Prim2SF w) as [[]|[]| |[] m e]; try done;
    destruct (Prim2SF w') as [[]|[]| |[] m' e']; try done.
  - by apply SFleb_zero_l.
  - by apply SFleb_infinity_r.
  - apply SFdiv_finite_monotone; try done. apply SFleb_refl_finite.
Qed.

Lemma binary_normalize_one :
  binary_normalize prec emax 1 0 false = S754_finite false 4503599627370496 (-52).
Proof. vm_compute. reflexivity. Qed.

(** The ranks [1, 2, ...] as doubles: at least one, and increasing. *)
Lemma ranks_ordered (i j : nat) :
  i ≤ j → (Z.of_nat (S j) < 2 ^ 63)%Z →
  (1 <=? float_of_nat (S i))%float = true ∧
  (float_of_nat (S i) <=? float_of_nat (S j))%float = true.
Proof.
  intros Hij Hj. unfold float_of_nat. rewrite !leb_spec, Prim2SF_one.
  destruct (binary_normalize_normal53 (Z.of_nat (S i)) ltac:(lia)) as [_ Hvi].
  destruct (binary_normalize_normal53 (Z.of_nat (S j)) ltac:(lia)) as [_ Hvj].
  rewrite !Prim2SF_SF2Prim by done. split.
  - rewrite <- binary_normalize_one. apply binary_normalize_mono. lia.
  - apply binary_normalize_mono. lia.
Qed.

Lemma reciprocal_number `{Numerics} (x : float) :
  (0 <? x)%float = true →
  sign_clear (Prim2SF (1 / x)) ∧ Prim2SF (1 / x)%float ≠ S754_nan.
Proof.
  intros Hx. apply quotient_number; [by rewrite Prim2SF_one|by rewrite Prim2SF_one|done|].
  right. rewrite Prim2SF_one. eauto.
Qed.

(** C8.  For a float [alpha] that is not negative, the vector the engine
    returns for the method zipf does not increase with the index, so
    that index 0 holds a largest entry; this under what the code takes
    from numpy: powers that are positive and do not decrease with the
    base, and a sum of the weights that is positive and finite.  The
    reciprocals and the normalisation are the code's own, and their
    rounding keeps the order. *)
Theorem zipf_nonincreasing `{Numerics} (num_items : Z) (params : gmap string float) :
  let alpha := default 1.1%float (params !! "alpha") in
  let weights := (λ r, (1 / np_power r alpha)%float) <$> ranks num_items in
  (num_items < 2 ^ 63)%Z →
  (0 <=? alpha)%float = true →
  power_monotone →
  (0 <? np_sum weights)%float = true →
  (np_sum weights <? infinity)%float = true →
  ∃ probs,
    _zipf_distribution num_items params = Ok probs ∧
    length probs = Z.to_nat num_items ∧
    ∀ i j x y, i ≤ j → probs !! i = Some x → probs !! j = Some y →
               (y <=? x)%float = true.
Proof.
  intros alpha weights Hn Halpha Hpow Hs0 Hsfin.
  exists (normalize weights). split; [done|]. split.
  { unfold normalize, weights, ranks. by rewrite !length_fmap, length_seq. }
  intros i j x y Hij Hx Hy.
  unfold normalize in Hx, Hy. fold weights in Hx, Hy.
  rewrite list_lookup_fmap in Hx, Hy.
  destruct (weights !! i) as [wi|] eqn:Hwi; [|done].
  destruct (weights !! j) as [wj|] eqn:Hwj; [|done].
  simpl in Hx, Hy. injection Hx as <-. injection Hy as <-.
  unfold weights, ranks in Hwi, Hwj. rewrite !list_lookup_fmap in Hwi, Hwj.
  destruct (seq 0 (Z.to_nat num_items) !! i) as [i'|] eqn:Hi; [|done].
  destruct (seq 0 (Z.to_nat num_items) !! j) as [j'|] eqn:Hj; [|done].
  apply lookup_seq in Hi as [-> Hilt]. apply lookup_seq in Hj as [-> Hjlt].
  simpl in Hwi, Hwj. injection Hwi as <-. injection Hwj as <-.
  destruct (ranks_ordered i j Hij ltac:(lia)) as [H1i Hle].
  destruct (ranks_ordered j j ltac:(lia) ltac:(lia)) as [H1j Hjj].
  destruct (Hpow alpha _ _ Halpha H1i Hle) as [Hpi Hpij].
  destruct (Hpow alpha _ _ Halpha H1j Hjj) as [Hpj _].
  destruct (reciprocal_number _ Hpi) as [Hsi Hni].
  destruct (reciprocal_number _ Hpj) as [Hsj Hnj].
  apply quotient_monotone; try done.
  by apply reciprocal_antitone.
Qed.

Lemma reciprocal_powers_monotone : @power_monotone reciprocal_powers.
Proof.
  intros a x y Ha Hx Hxy. cbn [np_power reciprocal_powers].
  assert ((a <? 0)%float = false) as ->.
  { rewrite ltb_spec, Prim2SF_zero. rewrite leb_spec, Prim2SF_zero in Ha.
    by destruct (Prim2SF a) as [s|[]| |[] m e]. }
  split; [|done].
  rewrite ltb_spec, Prim2SF_zero. rewrite leb_spec, Prim2SF_one in Hx.
  by destruct (Prim2SF x) as [s|[]| |[] m e].
Qed.

Lemma zipf_nonincreasing_witness :
  ∃ p0 p1 p2,
    @_zipf_distribution reciprocal_powers 3 {["alpha" := 1%float]} = Ok [p0; p1; p2] ∧
    (p1 <=? p0)%float = true ∧ (p2 <=? p1)%float = true.
Proof.
  destruct (@zipf_nonincreasing reciprocal_powers 3 {["alpha" := 1%float]})
    as (probs & Hprobs & Hlen & Hord).
  - done.
  - vm_compute. reflexivity.
  - apply reciprocal_powers_monotone.
  - vm_compute. reflexivity.
  - vm_compute. reflexivity.
  - destruct probs as [|p0 [|p1 [|p2 [|]]]]; try done.
    exists p0, p1, p2. split; [exact Hprobs|]. split.
    + apply (Hord 0 1 p0 p1); [lia|reflexivity|reflexivity].
    + apply (Hord 1 2 p1 p2); [lia|reflexivity|reflexivity].
Defined.

(** C8, counterexample.  With [alpha = -1.0] and two items the powers
    are 1 and 0.5, the weights 1 and 2, and the vector is
    [1/3, 2/3]: it increases. *)
Lemma zipf_negative_alpha_increases :
  @_zipf_distribution reciprocal_powers 2 {["alpha" := (-1)%float]}
  = Ok [(1 / 3)%float; (2 / 3)%float] ∧
  (1 / 3 <? 2 / 3)%float = true.
Proof. split; vm_compute; reflexivity. Qed.

(** ** Every generated cell is 0 or 1 *)

Import DistributionEngine DataGenerator.

Lemma zeros_binary t i a : zeros t i = Ok a → binary a.
Proof.
  unfold zeros. case_match; [done|]. intros; simplify_eq. unfold binary. simpl.
  apply Forall_replicate, Forall_replicate. by left.
Qed.

Lemma set_items_only_sets i l : arr_rel only_sets (set_items i l).
Proof.
  induction l as [|c l IH]; simpl; [apply arr_rel_ret, _|].
  apply arr_rel_bind; [apply _| |intros; apply IH].
  apply arr_rel_modify; [apply _|]. intros a a'. apply setitem_only_sets.
Qed.

Lemma trans_len_only_sets m : arr_rel only_sets (trans_len m).
Proof.
  assert (arr_rel only_sets (density_len m)) as Hd.
  { apply arr_rel_bind; [apply _|apply arr_rel_lift, _|]. intros x.
    apply arr_rel_bind; [apply _|apply arr_rel_lift, _|]. intros n.
    apply arr_rel_ret, _. }
  unfold trans_len. destruct (avg_transaction_len m) as [avg|]; [|done].
  case_match; [done|].
  apply arr_rel_bind; [apply _|apply arr_rel_poisson, _|]. intros l.
  apply arr_rel_ret, _.
Qed.

Lemma sample_row_only_sets m p i : arr_rel only_sets (sample_row m p i).
Proof.
  unfold sample_row.
  apply arr_rel_bind; [apply _|apply trans_len_only_sets|]. intros l.
  apply arr_rel_bind; [apply _|apply arr_rel_choice_p, _|]. intros sel.
  apply set_items_only_sets.
Qed.

Lemma sample_rows_only_sets m p range : arr_rel only_sets (sample_rows m p range).
Proof.
  induction range as [|i range IH]; simpl; [apply arr_rel_ret, _|].
  apply arr_rel_bind; [apply _|apply sample_row_only_sets|intros; apply IH].
Qed.

Lemma generate_transactions_binary m p g base g' :
  _generate_transactions m p g = (Ok base, g') → binary base.
Proof.
  unfold _generate_transactions. destruct (zeros _ _) as [z|] eqn:Hz; [|done].
  pose proof (sample_rows_only_sets m p (seq 0 (Z.to_nat (num_transactions m)))
                {| arr := z; rng := g |}) as Hs.
  destruct (sample_rows _ _ _ _) as [[[]|e] w]; [|done].
  intros; simplify_eq. simpl in Hs. by apply Hs, (zeros_binary _ _ _ Hz).
Qed.

(** C9. Every cell of the matrix [generate] returns is 0 or 1, whatever
    the configuration, the seed and the random stream; base sampling
    produces a 0/1 matrix and injection keeps a 0/1 matrix 0/1. *)
Theorem generated_cells_binary `{Numerics} `{Seeding} (self : DataGenerator.t)
  (seed : option Z) (g : Rng) (m : ndarray) :
  (generate self seed g).1.1 = Ok m →
  binary m ∧
  (∀ item_probs g0 base g1,
     _generate_transactions (meta (cfg self)) item_probs g0 = (Ok base, g1) →
     binary base) ∧
  (∀ l ts nr w, binary (arr w) →
     binary (arr (inject_pattern (injector self) l ts nr w).2)).
Proof.
  intros Hgen. split; [|split].
  - unfold generate in Hgen.
    destruct (match seed with Some s => seed_rng s g | None => (Ok (), g) end)
      as [[[]|e] g0]; [|done].
    destruct (generate_item_frequencies _ _ _) as [item_probs|]; [|done].
    destruct (_generate_transactions _ _ _) as [[base|] g1] eqn:Hbase; [|done].
    apply generate_transactions_binary in Hbase.
    destruct (patterns self) as [|p ps]; [simpl in Hgen; by simplify_eq|].
    pose proof (inject_multiple_only_sets (injector self) (p :: ps)
                  {| arr := base; rng := g1 |}) as Hinj.
    destruct (inject_multiple_patterns _ _ _) as [[[]|e] w]; [|done].
    simpl in *. simplify_eq. by apply Hinj.
  - intros item_probs g0 base g1. apply generate_transactions_binary.
  - intros l ts nr w Hb. by apply (inject_pattern_only_sets (injector self) l ts nr w).
Qed.

(** ** Reproducibility *)

(** C2. Two calls [generate(seed=S)] on generators with the same
    configuration return the same matrix (or raise the same exception),
    whatever the state of the global random stream before each call and
    whatever either generator had generated before. *)
Theorem generate_reproducible `{Numerics} `{Seeding} (g1 g2 : DataGenerator.t)
  (seed : Z) (r1 r2 : Rng) :
  cfg g1 = cfg g2 →
  (generate g1 (Some seed) r1).1.1 = (generate g2 (Some seed) r2).1.1.
Proof.
  intros Hcfg. unfold generate, patterns, injector, seed_rng. rewrite <- Hcfg.
  destruct ((seed <? 0)%Z || (2 ^ 32 <=? seed)%Z); [reflexivity|].
  destruct (generate_item_frequencies _ _ _) as [item_probs|e]; [|reflexivity].
  destruct (_generate_transactions _ _ _) as [[base|e] g]; [|reflexivity].
  destruct (default [] _) as [|p ps]; [reflexivity|].
  destruct (inject_multiple_patterns _ _ _) as [[[]|e] w]; reflexivity.
Qed.

(** ** The distribution engine: what does not depend on rounding *)

Lemma normalize_length `{Numerics} probs : length (normalize probs) = length probs.
Proof. unfold normalize. by rewrite length_fmap. Qed.

Lemma linspace_length start stop num xs :
  linspace start stop num = Ok xs → length xs = Z.to_nat num.
Proof.
  unfold linspace. case_match; [done|]. intros [= <-].
  repeat case_match; rewrite ?length_insert, length_fmap, length_seq; done.
Qed.

(** X15.  A vector the engine returns has one entry per item, whatever the
    method. *)
Lemma generate_item_frequencies_length `{Numerics} num_items method params probs :
  generate_item_frequencies num_items method params = Ok probs →
  length probs = Z.to_nat num_items.
Proof.
  unfold generate_item_frequencies.
  repeat case_match; [| | | |done].
  - unfold _random_distribution, ones. destruct (num_items <? 0)%Z; [done|].
    intros [= <-]. by rewrite normalize_length, length_replicate.
  - unfold _zipf_distribution, ranks. intros [= <-].
    by rewrite normalize_length, !length_fmap, length_seq.
  - unfold _normal_distribution.
    destruct (linspace 0 1 num_items) as [xs|] eqn:Hxs; [|done]. intros [= <-].
    rewrite normalize_length, !length_fmap. by eapply linspace_length.
  - unfold _exponential_distribution.
    destruct (linspace 0 5 num_items) as [xs|] eqn:Hxs; [|done]. intros [= <-].
    rewrite normalize_length, !length_fmap. by eapply linspace_length.
Qed.

(** A method name other than the four supported ones raises
    [ValueError], whatever the other arguments. *)
Lemma generate_item_frequencies_unknown `{Numerics} num_items method params :
  method ∉ ["random"; "zipf"; "normal"; "exponential"] →
  generate_item_frequencies num_items method params = Raise ValueError.
Proof.
  intros Hm. unfold generate_item_frequencies.
  repeat (rewrite bool_decide_eq_false_2;
          [|intros ->; apply Hm; repeat constructor]).
  done.
Qed.

(** ** Sampling more items than have a non-zero probability *)

Lemma choice_p_too_few a size p w :
  (Z.of_nat (length (positive_entries p)) < size)%Z →
  choice_p a size p w = (Raise ValueError, w).
Proof.
  intros Hlt. unfold choice_p.
  repeat case_match; try reflexivity.
  match goal with H : (_ <? size)%Z = false |- _ => apply Z.ltb_ge in H; lia end.
Qed.

Lemma sample_rows_app m p l1 l2 w :
  sample_rows m p (l1 ++ l2) w =
    match sample_rows m p l1 w with
    | (Ok _, w1) => sample_rows m p l2 w1
    | (Raise e, w1) => (Raise e, w1)
    end.
Proof.
  revert w. induction l1 as [|i l1 IH]; intros w; simpl; [reflexivity|].
  rewrite !run_bind.
  destruct (sample_row m p i w) as [[[]|e] w']; [apply IH|reflexivity].
Qed.

Import Examples.

(** C1, counterexample.  With one item of non-zero probability and a
    transaction length of two, sampling raises [ValueError]. *)
Lemma sampling_one_nonzero_raises :
  _generate_transactions one_nonzero_meta one_nonzero_probs ones_rng
  = (Raise ValueError, ones_rng).
Proof. vm_compute. reflexivity. Qed.

(** C1, amended.  Whenever the length chosen for a transaction exceeds the
    number of entries of the probability vector that are greater than
    zero, [_generate_transactions] raises [ValueError] at that transaction
    (numpy refuses to draw that many distinct items); no matrix is
    returned. *)
Theorem sampling_raises_when_too_few_nonzero (m : dataset_meta)
  (item_probs : list float) (g : Rng) (i : nat) (z : ndarray) (w w' : world)
  (len : Z) :
  zeros (num_transactions m) (num_items m) = Ok z →
  i < Z.to_nat (num_transactions m) →
  sample_rows m item_probs (seq 0 i) {| arr := z; rng := g |} = (Ok tt, w) →
  trans_len m w = (Ok len, w') →
  (Z.of_nat (length (positive_entries item_probs)) < len)%Z →
  _generate_transactions m item_probs g = (Raise ValueError, rng w').
Proof.
  intros Hz Hi Hrows Hlen Hfew. unfold _generate_transactions. rewrite Hz.
  replace (seq 0 (Z.to_nat (num_transactions m)))
    with (seq 0 i ++ i :: seq (S i) (Z.to_nat (num_transactions m) - S i)).
  2:{ change (i :: seq (S i) (Z.to_nat (num_transactions m) - S i))
        with (seq (0 + i) (S (Z.to_nat (num_transactions m) - S i))).
      rewrite <- seq_app. f_equal. lia. }
  rewrite sample_rows_app, Hrows. simpl.
  rewrite run_bind. unfold sample_row at 1.
  rewrite run_bind, Hlen, run_bind, choice_p_too_few by done. reflexivity.
Qed.

Lemma sampling_raises_when_too_few_nonzero_witness :
  _generate_transactions one_nonzero_meta one_nonzero_probs ones_rng
  = (Raise ValueError, ones_rng).
Proof.
  refine (sampling_raises_when_too_few_nonzero one_nonzero_meta one_nonzero_probs
            ones_rng 0 _ _ {| arr := _; rng := ones_rng |} 2 _ _ _ _ _).
  - vm_compute. reflexivity.
  - vm_compute. lia.
  - reflexivity.
  - vm_compute. reflexivity.
  - vm_compute. reflexivity.
Defined.

(** ** Instances of the theorems above *)

Import Examples.

Lemma invalid_pattern_fails_fast_witness :
  let w := {| arr := small; rng := ones_rng |} in
  inject_pattern small_injector [] 0.5 0 w = (Raise ValueError, w) ∧
  inject_multiple_patterns small_injector ([good_pattern] ++ empty_pattern :: [good_pattern]) w
    = (Raise ValueError, (inject_multiple_patterns small_injector [good_pattern] w).2).
Proof.
  intros w.
  assert (¬ valid_pattern small_injector empty_pattern) as Hbad.
  { intros [Hne _]. by apply Hne. }
  split.
  - apply (proj1 (invalid_pattern_fails_fast small_injector empty_pattern Hbad)).
  - apply (proj2 (invalid_pattern_fails_fast small_injector empty_pattern Hbad)).
    vm_compute. reflexivity.
Defined.

Lemma inject_never_clears_witness :
  let w := {| arr := small; rng := halves_rng |} in
  never_clears small (arr (inject_pattern small_injector [1; 3]%Z 0.5 0.25 w).2) ∧
  never_clears small (arr (inject_multiple_patterns small_injector [good_pattern] w).2).
Proof.
  intros w. apply (inject_never_clears small_injector [good_pattern] [1; 3]%Z 0.5 0.25 w).
  unfold binary. simpl. apply (bool_decide_unpack _). vm_compute. reflexivity.
Defined.

Lemma generated_cells_binary_witness :
  ∃ m, (@generate left_sum counting (init small_config) (Some 7%Z) ones_rng).1.1 = Ok m
       ∧ binary m.
Proof.
  eexists. split; [vm_compute; reflexivity|].
  refine (proj1 (@generated_cells_binary left_sum counting (init small_config)
                   (Some 7%Z) ones_rng _ _)).
  vm_compute. reflexivity.
Defined.

Lemma generate_reproducible_witness :
  (@generate left_sum counting (init small_config) (Some 7%Z) ones_rng).1.1
  = (@generate left_sum counting {| cfg := small_config; data := Some small |}
       (Some 7%Z) halves_rng).1.1.
Proof.
  apply (@generate_reproducible left_sum counting). reflexivity.
Defined.
(** * Further properties of the generator *)

Import DistributionEngine DataGenerator.
Import Examples.

(** ** What [verify_pattern] reports *)

Lemma columns_Ok a l cols :
  columns a l = Ok cols ↔ Forall2 (λ i c, index (ncols a) i = Ok c) l cols.
Proof.
  revert cols. induction l as [|i l IH]; intros cols; simpl.
  - split; [intros [= <-]; constructor|by inversion 1].
  - destruct (index (ncols a) i) as [c|e] eqn:Hi.
    + destruct (columns a l) as [cs|e] eqn:Hl.
      * split.
        -- intros [= <-]. constructor; [done|]. by apply (proj1 (IH _)).
        -- inversion 1 as [|? c' ? cs' Hc Hcs]; subst.
           apply (proj2 (IH _)) in Hcs. congruence.
      * split; [done|]. inversion 1 as [|? c' ? cs' Hc Hcs]; subst.
        apply (proj2 (IH _)) in Hcs. done.
    + split; [done|]. inversion 1; congruence.
Qed.

Lemma index_Ok n i c :
  index n i = Ok c ↔
  (- Z.of_nat n ≤ i < Z.of_nat n)%Z ∧ Z.of_nat c = (i mod Z.of_nat n)%Z.
Proof.
  unfold index.
  destruct (Z.leb_spec 0 i) as [H0|H0], (Z.ltb_spec i (Z.of_nat n)) as [Hn|Hn];
    destruct (Z.leb_spec (- Z.of_nat n) i) as [Hm|Hm], (Z.ltb_spec i 0) as [Hz|Hz];
    simpl; try lia; try (split; [done|lia]).
  - rewrite Z.mod_small by lia. split; [intros [= <-]; lia|]. intros [_ Hc]. f_equal. lia.
  - assert (i mod Z.of_nat n = i + Z.of_nat n)%Z as ->.
    { symmetry. apply (Z.mod_unique_pos _ _ (-1)); lia. }
    split; [intros [= <-]; lia|]. intros [_ Hc]. f_equal. lia.
Qed.

Lemma index_Raise n i e :
  index n i = Raise e ↔ e = IndexError ∧ (i < - Z.of_nat n ∨ Z.of_nat n ≤ i)%Z.
Proof.
  unfold index.
  destruct (Z.leb_spec 0 i) as [H0|H0], (Z.ltb_spec i (Z.of_nat n)) as [Hn|Hn];
    destruct (Z.leb_spec (- Z.of_nat n) i) as [Hm|Hm], (Z.ltb_spec i 0) as [Hz|Hz];
    simpl; try lia;
    try (split; [done|intros [_ ?]; lia]);
    (split; [intros [= <-]; split; [done|lia]|by intros [-> _]]).
Qed.

Lemma columns_Raise a l e :
  columns a l = Raise e ↔
  e = IndexError ∧ Exists (λ i, i < - Z.of_nat (ncols a) ∨ Z.of_nat (ncols a) ≤ i)%Z l.
Proof.
  revert e. induction l as [|i l IH]; intros e; simpl.
  - split; [done|]. intros [_ H]. inversion H.
  - rewrite Exists_cons.
    destruct (index (ncols a) i) as [c|e'] eqn:Hi.
    + apply index_Ok in Hi as [Hi _].
      destruct (columns a l) as [cs|e'] eqn:Hl.
      * split; [done|]. intros [-> [H|H]]; [lia|].
        by pose proof (proj2 (IH IndexError) (conj eq_refl H)).
      * rewrite IH. split; [intros [-> H]; split; [done|by right]|].
        intros [-> [H|H]]; [lia|done].
    + apply index_Raise in Hi as [-> Hi].
      split; [intros [= <-]; split; [done|by left]|]. by intros [-> _].
Qed.

Lemma has_pattern_subseteq cols cols' row :
  cols ⊆ cols' → has_pattern cols' row = true → has_pattern cols row = true.
Proof.
  intros Hsub. rewrite !has_pattern_true. intros H c Hc. apply H, Hsub, Hc.
Qed.

Lemma pattern_count_subseteq a cols cols' :
  cols ⊆ cols' → pattern_count a cols' ≤ pattern_count a cols.
Proof.
  intros Hsub. unfold pattern_count, contains_pattern.
  induction (rows a) as [|row l IH]; [done|].
  rewrite !filter_cons.
  destruct (decide (has_pattern cols' row = true)) as [Hp|Hp].
  - rewrite decide_True by (by eapply has_pattern_subseteq). simpl. lia.
  - case_decide; simpl; lia.
Qed.

Lemma columns_subseteq a l l' cols' :
  l ⊆ l' → columns a l' = Ok cols' →
  ∃ cols, columns a l = Ok cols ∧ cols ⊆ cols'.
Proof.
  intros Hsub Hl'. apply columns_Ok in Hl'.
  induction l as [|i l IH].
  - exists []. split; [done|]. apply list_subseteq_nil.
  - destruct IH as (cols & Hcols & Hincl).
    { intros x Hx. apply Hsub. by right. }
    assert (i ∈ l') as Hi by (apply Hsub; by left).
    apply list_elem_of_lookup in Hi as [k Hk].
    destruct (Forall2_lookup_l _ _ _ _ _ Hl' Hk) as (c & Hc & Hic).
    exists (c :: cols). simpl. rewrite Hic, Hcols. split; [done|].
    intros x [->|Hx]%elem_of_cons; [by eapply list_elem_of_lookup_2|by apply Hincl].
Qed.

Lemma int64_div_zero t :
  (0 < t < 2 ^ 63)%Z → int64_div 0 t = 0%float.
Proof.
  intros Ht. apply Prim2SF_inj. unfold int64_div.
  rewrite div_spec. unfold SF64div.
  destruct (binary_normalize_normal53 t Ht) as [(m & e & Hn & _) Hv].
  rewrite (Prim2SF_SF2Prim _ Hv), Hn. cbn [binary_normalize].
  rewrite Prim2SF_SF2Prim by done. by rewrite Prim2SF_zero.
Qed.

Lemma int64_div_self t :
  (0 < t < 2 ^ 63)%Z → int64_div t t = 1%float.
Proof.
  intros Ht. apply Prim2SF_inj. unfold int64_div.
  rewrite div_spec. unfold SF64div.
  destruct (binary_normalize_normal53 t Ht) as [(m & e & Hn & Hm & He) Hv].
  rewrite (Prim2SF_SF2Prim _ Hv), Hn, Prim2SF_one.
  rewrite SFdiv_normal53 by (done || (unfold SpecFloat.emin, prec, emax; lia)).
  assert (0 < 2 ^ 52)%Z as H52 by done.
  assert (2 ^ 53 = 2 * 2 ^ 52)%Z as H53 by done.
  destruct (binary_round_aux_normal (Z.pos m * 2 ^ 53) (Z.pos m) (e - e - 53))
    as (_ & _ & _ & ->); [lia|nia|unfold SpecFloat.emin, prec, emax; lia|].
  replace (Z.pos m * 2 ^ 53 / Z.pos m)%Z with (2 ^ 53)%Z
    by (rewrite (Z.mul_comm (Z.pos m)), Z.div_mul; lia).
  change (Zdigits2 (2 ^ 53) - 53)%Z with 1%Z.
  assert (rne (Z.pos m * 2 ^ 53) (Z.pos m * 2 ^ 1) = 2 ^ 52)%Z as ->.
  { replace (Z.pos m * 2 ^ 53)%Z with (2 ^ 52 * (Z.pos m * 2 ^ 1))%Z
      by (change (2 ^ 1)%Z with 2%Z; lia).
    unfold rne, loc_of_rem. rewrite Z.div_mul, Z.mod_mul by lia. done. }
  replace (e - e - 53 + 1)%Z with (-52)%Z by lia. done.
Qed.

(** X1.  The support [verify_pattern] reports is a fraction: it lies between
    0.0 and 1.0. *)
Theorem verify_pattern_unit_interval (a : ndarray) (its : list Z) (s : float) :
  (0 < Z.of_nat (shape0 a) < 2 ^ 63)%Z →
  verify_pattern a its = Ok s →
  (0 <=? s)%float = true ∧ (s <=? 1)%float = true.
Proof.
  intros Hrows. unfold verify_pattern.
  destruct its as [|it its]; [by intros [= <-]|].
  destruct (columns a (it :: its)) as [cols|e]; [|done]. intros [= <-].
  pose proof (pattern_count_le a cols) as Hle.
  split.
  - rewrite <- (int64_div_zero (Z.of_nat (shape0 a)) Hrows).
    apply int64_div_mono; lia.
  - rewrite <- (int64_div_self (Z.of_nat (shape0 a)) Hrows).
    apply int64_div_mono; lia.
Qed.

Lemma verify_pattern_unit_interval_witness :
  ∃ s, verify_pattern small [1]%Z = Ok s ∧
       (0 <=? s)%float = true ∧ (s <=? 1)%float = true.
Proof.
  eexists. split; [reflexivity|].
  apply (verify_pattern_unit_interval small [1]%Z); [by vm_compute|reflexivity].
Defined.

(** X2.  The support of a larger item set is at most the support of a
    smaller one. *)
Theorem verify_pattern_antitone (a : ndarray) (its its' : list Z) (s' : float) :
  (0 < Z.of_nat (shape0 a) < 2 ^ 63)%Z →
  its ≠ [] → its ⊆ its' →
  verify_pattern a its' = Ok s' →
  ∃ s, verify_pattern a its = Ok s ∧ (s' <=? s)%float = true.
Proof.
  intros Hrows Hne Hsub. unfold verify_pattern.
  destruct its' as [|it' its'].
  { destruct its as [|it its]; [done|].
    by destruct (not_elem_of_nil it (Hsub it (list_elem_of_here _ _))). }
  destruct (columns a (it' :: its')) as [cols'|e] eqn:Hcols'; [|done]. intros [= <-].
  destruct (columns_subseteq a its _ cols' Hsub Hcols') as (cols & -> & Hincl).
  destruct its as [|it its]; [done|]. eexists. split; [done|].
  pose proof (pattern_count_subseteq a cols cols' Hincl).
  pose proof (pattern_count_le a cols).
  apply int64_div_mono; lia.
Qed.

Lemma verify_pattern_antitone_witness :
  ∃ s s', verify_pattern small [3; 1]%Z = Ok s' ∧
          verify_pattern small [1]%Z = Ok s ∧ (s' <=? s)%float = true.
Proof.
  destruct (verify_pattern_antitone small [1]%Z [3; 1]%Z 0) as (s & Hs & Hle).
  - by vm_compute.
  - done.
  - by apply list_subseteq_cons.
  - vm_compute. reflexivity.
  - exists s, 0%float. split; [vm_compute; reflexivity|]. done.
Defined.

Lemma has_pattern_equiv cols cols' row :
  cols ⊆ cols' → cols' ⊆ cols → has_pattern cols row = has_pattern cols' row.
Proof.
  intros H1 H2. apply eq_true_iff_eq. split; by apply has_pattern_subseteq.
Qed.

Lemma pattern_count_equiv a cols cols' :
  cols ⊆ cols' → cols' ⊆ cols → pattern_count a cols = pattern_count a cols'.
Proof.
  intros H1 H2.
  pose proof (pattern_count_subseteq a cols cols' H1).
  pose proof (pattern_count_subseteq a cols' cols H2). lia.
Qed.

(** X3.  [verify_pattern] depends on the set of items only: neither their
    order nor repetitions matter, for the support and for the exception
    alike. *)
Theorem verify_pattern_set (a : ndarray) (its its' : list Z) :
  its ⊆ its' → its' ⊆ its →
  verify_pattern a its = verify_pattern a its'.
Proof.
  intros H1 H2. unfold verify_pattern.
  destruct its as [|it its], its' as [|it' its']; [done| | |].
  { by destruct (not_elem_of_nil it' (H2 it' (list_elem_of_here _ _))). }
  { by destruct (not_elem_of_nil it (H1 it (list_elem_of_here _ _))). }
  destruct (columns a (it' :: its')) as [cols'|e'] eqn:Hc'.
  - destruct (columns_subseteq a _ _ cols' H1 Hc') as (cols & Hc & Hincl).
    destruct (columns_subseteq a _ _ cols H2 Hc) as (cols2 & Hc2 & Hincl2).
    rewrite Hc. rewrite Hc' in Hc2. simplify_eq.
    by rewrite (pattern_count_equiv a cols cols2).
  - destruct (columns a (it :: its)) as [cols|e] eqn:Hc.
    + destruct (columns_subseteq a _ _ cols H2 Hc) as (cols2 & Hc2 & _). congruence.
    + apply columns_Raise in Hc as [-> _]. by apply columns_Raise in Hc' as [-> _].
Qed.

Lemma verify_pattern_set_witness :
  verify_pattern small [1; 3; 1]%Z = verify_pattern small [3; 1]%Z.
Proof.
  apply verify_pattern_set.
  - intros x. rewrite !elem_of_cons. tauto.
  - intros x. rewrite !elem_of_cons. tauto.
Defined.

(** Items that name a column, from the front or from the back, are
    always measured. *)
Lemma verify_pattern_in_range a its :
  Forall (λ i, - Z.of_nat (ncols a) ≤ i < Z.of_nat (ncols a))%Z its →
  ∃ s, verify_pattern a its = Ok s.
Proof.
  intros Hall. unfold verify_pattern. destruct its as [|it its]; [by eexists|].
  destruct (columns a (it :: its)) as [cols|e] eqn:Hc; [by eexists|].
  apply columns_Raise in Hc as [_ Hex]. apply Exists_exists in Hex as (i & Hi & Hbad).
  rewrite Forall_forall in Hall. specialize (Hall i Hi). lia.
Qed.

(** X4.  [verify_pattern] does not validate its items: an item outside
    [-ncols, ncols) raises [IndexError], and nothing else makes it raise. *)
Theorem verify_pattern_outcome (a : ndarray) (its : list Z) :
  match verify_pattern a its with
  | Ok _ => Forall (λ i, - Z.of_nat (ncols a) ≤ i < Z.of_nat (ncols a))%Z its
  | Raise e =>
      e = IndexError ∧
      Exists (λ i, i < - Z.of_nat (ncols a) ∨ Z.of_nat (ncols a) ≤ i)%Z its
  end.
Proof.
  unfold verify_pattern. destruct its as [|it its]; [constructor|].
  destruct (columns a (it :: its)) as [cols|e] eqn:Hc.
  - apply columns_Ok in Hc. revert Hc. generalize (it :: its). intros l Hc.
    induction Hc as [|i c l cols Hi _ IH]; constructor; [|done].
    by apply index_Ok in Hi as [Hi _].
  - by apply columns_Raise in Hc.
Qed.

Lemma index_mod n i :
  (- Z.of_nat n ≤ i < Z.of_nat n)%Z → index n (i mod Z.of_nat n) = index n i.
Proof.
  intros Hi.
  assert (0 ≤ i mod Z.of_nat n < Z.of_nat n)%Z as Hm by (apply Z.mod_pos_bound; lia).
  destruct (index n i) as [c|e] eqn:Hc.
  - apply index_Ok in Hc as [_ Hc]. apply index_Ok. split; [lia|].
    by rewrite Z.mod_mod by lia.
  - apply index_Raise in Hc as [_ Hc]. lia.
Qed.

(** X5.  A negative item counts from the last column: item [-k] stands for
    item [ncols - k], as in numpy indexing. *)
Theorem verify_pattern_negative_items (a : ndarray) (its : list Z) :
  Forall (λ i, - Z.of_nat (ncols a) ≤ i < Z.of_nat (ncols a))%Z its →
  verify_pattern a ((λ i, i mod Z.of_nat (ncols a))%Z <$> its) = verify_pattern a its.
Proof.
  intros Hall. unfold verify_pattern.
  assert (columns a ((λ i, i mod Z.of_nat (ncols a))%Z <$> its) = columns a its) as Hc.
  { induction Hall as [|i l Hi _ IH]; [done|].
    cbn [fmap list_fmap columns]. by rewrite index_mod, IH. }
  rewrite Hc. by destruct its.
Qed.

Lemma verify_pattern_negative_items_witness :
  verify_pattern small [1; 3]%Z = verify_pattern small [-4; -2]%Z.
Proof.
  apply (verify_pattern_negative_items small [-4; -2]%Z).
  repeat constructor; by vm_compute.
Defined.

(** ** Cells an injection leaves alone *)

#[local] Instance same_outside_preorder l : PreOrder (same_outside l).
Proof.
  split.
  - by intros a r c Hc.
  - intros a b c Hab Hbc r col Hcol. by rewrite Hbc, Hab.
Qed.

Lemma cell_setitem a r c v a' r0 c0 :
  setitem a r c v = Ok a' →
  (∀ c', index (ncols a) c = Ok c' → c' ≠ c0) →
  cell a' r0 c0 = cell a r0 c0.
Proof.
  unfold setitem. destruct (index (shape0 a) r) as [r'|]; [|done].
  destruct (index (ncols a) c) as [c'|]; [|done].
  intros [= <-] Hne. unfold cell. cbn [rows].
  destruct (decide (r' = r0)) as [->|Hr].
  - rewrite list_lookup_alter_eq. destruct (rows a !! r0) as [row|]; [|done].
    simpl. by rewrite list_lookup_insert_ne by (by apply Hne).
  - by rewrite list_lookup_alter_ne.
Qed.

Lemma inject_items_same_outside l nr r l0 :
  Forall (λ i, 0 ≤ i)%Z l0 → l0 ⊆ l →
  arr_rel (same_outside l) (inject_items nr r l0).
Proof.
  induction l0 as [|i l0 IH]; intros Hpos Hsub; simpl; [apply arr_rel_ret, _|].
  apply Forall_cons in Hpos as [Hi Hpos].
  apply arr_rel_bind; [apply _|apply arr_rel_random, _|]. intros u.
  apply arr_rel_bind; [apply _| |intros; apply IH; [done|]].
  - case_match; [|apply arr_rel_ret, _].
    apply arr_rel_modify; [apply _|]. intros a a' Hset r0 c0 Hc0.
    apply (cell_setitem _ _ _ _ _ _ _ Hset). intros c' Hc' ->.
    apply index_Ok in Hc' as [Hr Hc']. rewrite Z.mod_small in Hc' by lia.
    apply Hc0. rewrite Hc'. apply Hsub. by left.
  - intros x Hx. apply Hsub. by right.
Qed.

Lemma inject_rows_same_outside l nr idxs l0 :
  Forall (λ i, 0 ≤ i)%Z l0 → l0 ⊆ l →
  arr_rel (same_outside l) (inject_rows nr idxs l0).
Proof.
  intros Hpos Hsub. induction idxs as [|r idxs IH]; simpl; [apply arr_rel_ret, _|].
  apply arr_rel_bind; [apply _|by apply inject_items_same_outside|intros; apply IH].
Qed.

Lemma inject_pattern_same_outside self l l0 ts nr :
  l0 ⊆ l → arr_rel (same_outside l) (inject_pattern self l0 ts nr).
Proof.
  intros Hsub. unfold inject_pattern.
  case_bool_decide; [apply arr_rel_raise, _|].
  destruct (invalid_items self l0) eqn:Hinv; [apply arr_rel_raise, _|].
  apply invalid_items_false in Hinv.
  repeat (case_match; [apply arr_rel_raise, _|]).
  apply arr_rel_bind; [apply _|apply arr_rel_lift, _|]. intros n.
  case_match; [apply arr_rel_ret, _|].
  apply arr_rel_bind; [apply _|apply arr_rel_choice, _|]. intros idxs.
  apply inject_rows_same_outside; [|done].
  eapply Forall_impl; [exact Hinv|]. simpl. lia.
Qed.

Lemma inject_multiple_same_outside self l ps :
  concat (items <$> ps) ⊆ l →
  arr_rel (same_outside l) (inject_multiple_patterns self ps).
Proof.
  induction ps as [|p ps IH]; intros Hsub; simpl; [apply arr_rel_ret, _|].
  simpl in Hsub. apply arr_rel_bind; [apply _| |intros; apply IH].
  - apply inject_pattern_same_outside. intros x Hx. apply Hsub, elem_of_app. by left.
  - intros x Hx. apply Hsub, elem_of_app. by right.
Qed.

(** X6.  An injection writes in the columns of its patterns only: every
    other cell holds afterwards what it held before, whether the call
    returns or raises. *)
Theorem inject_leaves_other_columns (self : PatternInjector.t) (ps : list pattern)
  (w : world) (r c : nat) :
  Z.of_nat c ∉ concat (items <$> ps) →
  cell (arr (inject_multiple_patterns self ps w).2) r c = cell (arr w) r c.
Proof. intros Hc. by apply (inject_multiple_same_outside self _ ps (reflexivity _) w). Qed.

Lemma inject_leaves_other_columns_witness :
  cell (arr (inject_multiple_patterns small_injector [good_pattern]
               {| arr := small; rng := halves_rng |}).2) 1 2
  = cell small 1 2.
Proof.
  apply (inject_leaves_other_columns small_injector [good_pattern]
           {| arr := small; rng := halves_rng |} 1 2).
  apply (bool_decide_unpack _). vm_compute. exact I.
Defined.

(** ** The matrix [generate] returns *)

Lemma generate_Ok `{Numerics} `{Seeding} self seed g m :
  (generate self seed g).1.1 = Ok m →
  ∃ item_probs g0 base g1 w,
    _generate_transactions (meta (cfg self)) item_probs g0 = (Ok base, g1) ∧
    inject_multiple_patterns (injector self) (patterns self) {| arr := base; rng := g1 |}
    = (Ok tt, w) ∧
    m = arr w ∧
    (generate self seed g).1.2 = {| cfg := cfg self; data := Some m |}.
Proof.
  unfold generate.
  destruct (match seed with Some s => seed_rng s g | None => (Ok (), g) end)
    as [[[]|e] g0]; [|done].
  destruct (generate_item_frequencies _ _ _) as [item_probs|]; [|done].
  destruct (_generate_transactions _ _ _) as [[base|] g1] eqn:Hbase; [|done].
  destruct (patterns self) as [|p ps] eqn:Hps.
  - simpl. intros [= <-]. by exists item_probs, g0, base, g1, {| arr := base; rng := g1 |}.
  - destruct (inject_multiple_patterns _ _ _) as [[[]|e] w] eqn:Hinj; [|done].
    simpl. intros [= <-]. by exists item_probs, g0, base, g1, w.
Qed.

Lemma generate_transactions_Ok m p g base g' :
  _generate_transactions m p g = (Ok base, g') →
  ∃ z w, zeros (num_transactions m) (num_items m) = Ok z ∧
    sample_rows m p (seq 0 (Z.to_nat (num_transactions m))) {| arr := z; rng := g |}
    = (Ok tt, w) ∧ base = arr w.
Proof.
  unfold _generate_transactions. destruct (zeros _ _) as [z|] eqn:Hz; [|done].
  destruct (sample_rows _ _ _ _) as [[[]|e] w] eqn:Hs; [|done].
  intros [= <- <-]. by exists z, w.
Qed.

Lemma grows_wf a a' : wf a → grows a a' → wf a'.
Proof.
  unfold wf. intros Hwf [Hc Hg]. rewrite Hc.
  induction Hg as [|row row' l l' Hrow _ IH]; [constructor|].
  apply Forall_cons in Hwf as [H1 H2]. constructor; [|by apply IH].
  apply Forall2_length in Hrow. congruence.
Qed.

Lemma generate_Ok_matrix `{Numerics} `{Seeding} self seed g m :
  (generate self seed g).1.1 = Ok m →
  shape0 m = Z.to_nat (num_transactions (meta (cfg self))) ∧
  ncols m = Z.to_nat (num_items (meta (cfg self))) ∧
  wf m ∧ binary m ∧
  (generate self seed g).1.2 = {| cfg := cfg self; data := Some m |}.
Proof.
  intros Hgen.
  destruct (generate_Ok _ _ _ _ Hgen) as (p & g0 & base & g1 & w & Hbase & Hinj & -> & ->).
  destruct (generate_transactions_Ok _ _ _ _ _ Hbase) as (z & w0 & Hz & Hrows & ->).
  pose proof (sample_rows_only_sets (meta (cfg self)) p
                (seq 0 (Z.to_nat (num_transactions (meta (cfg self)))))
                {| arr := z; rng := g0 |}) as Hs.
  rewrite Hrows in Hs. cbn [arr snd] in Hs.
  destruct (Hs (zeros_binary _ _ _ Hz)) as [Hb0 Hg0].
  pose proof (inject_multiple_only_sets (injector self) (patterns self)
                {| arr := arr w0; rng := g1 |}) as Hi.
  rewrite Hinj in Hi. cbn [arr snd] in Hi.
  destruct (Hi Hb0) as [Hb1 Hg1].
  pose proof (grows_trans _ _ _ Hg0 Hg1) as Hg.
  destruct (grows_shape _ _ Hg) as [-> ->].
  destruct (zeros_shape _ _ _ Hz) as [-> ->].
  split; [done|]. split; [done|]. split; [|done].
  eapply grows_wf; [|exact Hg]. by eapply zeros_wf.
Qed.

(** X7.  [generate] returns a matrix of the configured shape, with rows of
    one length, which is also what it leaves in [self.data]. *)
Theorem generate_shape `{Numerics} `{Seeding} (self : DataGenerator.t)
  (seed : option Z) (g : Rng) (m : ndarray) :
  (generate self seed g).1.1 = Ok m →
  shape0 m = Z.to_nat (num_transactions (meta (cfg self))) ∧
  ncols m = Z.to_nat (num_items (meta (cfg self))) ∧
  wf m ∧
  data (generate self seed g).1.2 = Some m.
Proof.
  intros Hgen.
  destruct (generate_Ok_matrix _ _ _ _ Hgen) as (Hs & Hc & Hwf & _ & ->).
  done.
Qed.

Lemma generate_shape_witness :
  ∃ m, (@generate left_sum counting (init small_config) (Some 7%Z) ones_rng).1.1 = Ok m
       ∧ shape0 m = 4 ∧ ncols m = 5.
Proof.
  eexists. split; [vm_compute; reflexivity|].
  destruct (@generate_shape left_sum counting (init small_config) (Some 7%Z) ones_rng _
              ltac:(vm_compute; reflexivity)) as (H1 & H2 & _).
  split; [exact H1|exact H2].
Defined.

(** ** Sampling one transaction *)

Lemma run_lift {S A} (r : result A) (s : S) : lift r s = (r, s).
Proof. reflexivity. Qed.

Lemma trans_len_Ok m w l w' :
  trans_len m w = (Ok l, w') → (1 ≤ l)%Z ∧ arr w' = arr w.
Proof.
  assert (∀ w l w', density_len m w = (Ok l, w') → (1 ≤ l)%Z ∧ arr w' = arr w) as Hd.
  { clear. intros w l w'. unfold density_len. rewrite run_bind, run_lift.
    destruct (int_mul_float _ _) as [x|]; [|done].
    rewrite run_bind, run_lift. destruct (Py.int x) as [n|]; [|done].
    rewrite run_ret. intros [= <- <-]. split; [lia|done]. }
  unfold trans_len. destruct (avg_transaction_len m) as [avg|]; [|apply Hd].
  destruct (avg =? 0)%Z; [apply Hd|].
  unfold poisson_len, poisson. rewrite !run_bind, run_lift.
  destruct (float_of_int avg) as [rate|]; [|done].
  destruct (_ || _); [done|]. rewrite run_bind. unfold draw. cbn.
  intros [= <- <-]. split; [lia|done].
Qed.

Lemma positive_entries_lt p c : c ∈ positive_entries p → c < length p.
Proof.
  unfold positive_entries. intros [_ Hc%elem_of_seq]%list_elem_of_filter. lia.
Qed.

Lemma positive_entries_NoDup p : NoDup (positive_entries p).
Proof. apply NoDup_filter, NoDup_seq. Qed.

Lemma choice_p_Ok a size p w sel w' :
  choice_p a size p w = (Ok sel, w') →
  arr w' = arr w ∧ length sel = Z.to_nat size ∧ NoDup sel ∧
  Forall (λ c, Z.of_nat c < a)%Z sel ∧ sel ⊆ positive_entries p.
Proof.
  unfold choice_p.
  destruct (_ && _); [done|].
  destruct (Z.eqb_spec (Z.of_nat (length p)) a) as [Hlen|]; [|done]. cbn [negb].
  repeat (case_match; [done|]).
  match goal with H : (_ <? size)%Z = false |- _ => apply Z.ltb_ge in H; rename H into Hsize end.
  destruct w as [a0 g].
  destruct (pick_distinct_run (Z.to_nat size) (positive_entries p) a0 g)
    as (idxs & -> & Hl & Hnd & Hsub); [lia|apply positive_entries_NoDup|].
  intros [= <- <-]. split; [done|]. split; [done|]. split; [done|].
  split; [|done].
  apply Forall_forall. intros c Hc. apply Hsub, positive_entries_lt in Hc. lia.
Qed.

Lemma setitem_cells a r c a' :
  wf a → setitem a (Z.of_nat r) (Z.of_nat c) 1 = Ok a' →
  r < shape0 a ∧ c < ncols a ∧
  ∀ r0 c0, cell a' r0 c0 = if decide (r0 = r ∧ c0 = c) then 1%Z else cell a r0 c0.
Proof.
  intros Hwf Hset.
  assert (r < shape0 a ∧ c < ncols a) as [Hr Hc].
  { unfold setitem in Hset.
    destruct (index (shape0 a) (Z.of_nat r)) as [r'|] eqn:Hr; [|done].
    destruct (index (ncols a) (Z.of_nat c)) as [c'|] eqn:Hc; [|done].
    apply index_Ok in Hr, Hc. lia. }
  split; [done|]. split; [done|].
  unfold shape0 in Hr. destruct (lookup_lt_is_Some_2 _ _ Hr) as [row Hrow].
  rewrite (setitem_in_range a r c row Hrow Hc) in Hset. injection Hset as <-.
  assert (length row = ncols a) as Hlen.
  { unfold wf in Hwf. rewrite Forall_lookup in Hwf. by apply (Hwf _ _ Hrow). }
  intros r0 c0. unfold cell. cbn [rows].
  destruct (decide (r0 = r)) as [->|Hr0].
  - rewrite list_lookup_insert_eq by done. rewrite Hrow. simpl.
    destruct (decide (c0 = c)) as [->|Hc0].
    + rewrite decide_True by done. by rewrite list_lookup_insert_eq by lia.
    + rewrite decide_False by tauto. by rewrite list_lookup_insert_ne.
  - rewrite decide_False by tauto. by rewrite list_lookup_insert_ne.
Qed.

(** After [data[i, selected_items] = 1] every selected cell of row [i]
    holds 1, and no other cell has changed. *)
Lemma set_items_Ok r sel w w' :
  wf (arr w) → binary (arr w) →
  set_items (Z.of_nat r) sel w = (Ok tt, w') →
  rng w' = rng w ∧ wf (arr w') ∧ binary (arr w') ∧ grows (arr w) (arr w') ∧
  (sel ≠ [] → r < shape0 (arr w)) ∧
  Forall (λ c, c < ncols (arr w)) sel ∧
  ∀ r0 c0, cell (arr w') r0 c0
           = if decide (r0 = r ∧ c0 ∈ sel) then 1%Z else cell (arr w) r0 c0.
Proof.
  revert w. induction sel as [|c sel IH]; intros w Hwf Hb; simpl.
  - rewrite run_ret. intros [= <-].
    do 3 (split; [done|]). split; [apply grows_refl|]. split; [done|].
    split; [constructor|].
    intros r0 c0. rewrite decide_False; [done|]. intros [_ Hc]. by apply not_elem_of_nil in Hc.
  - rewrite run_bind. unfold modify_arr at 1.
    destruct (setitem (arr w) (Z.of_nat r) (Z.of_nat c) 1) as [a1|] eqn:Hset; [|done].
    intros Hrest.
    destruct (setitem_only_sets _ _ _ _ Hset Hb) as [Hb1 Hg1].
    pose proof (grows_wf _ _ Hwf Hg1) as Hwf1.
    destruct (grows_shape _ _ Hg1) as [Hs1 Hc1].
    destruct (setitem_cells _ _ _ _ Hwf Hset) as (Hr & Hc & Hcells).
    destruct (IH {| arr := a1; rng := rng w |} Hwf1 Hb1 Hrest)
      as (Hrng & Hwf' & Hb' & Hg' & _ & Hsel & Hcells').
    cbn [arr rng] in *. split; [done|]. split; [done|]. split; [done|].
    split; [by eapply grows_trans|]. split; [done|]. split.
    + constructor; [done|]. by rewrite <- Hc1.
    + intros r0 c0. rewrite Hcells', Hcells.
      destruct (decide (r0 = r ∧ c0 ∈ sel)) as [[-> Hin]|Hn1].
      * rewrite decide_True; [done|]. split; [done|by right].
      * destruct (decide (r0 = r ∧ c0 = c)) as [[-> ->]|Hn2].
        -- rewrite decide_True; [done|]. split; [done|by left].
        -- rewrite decide_False; [done|]. intros [-> [->|Hin]%elem_of_cons]; tauto.
Qed.

(** One iteration of the sampling loop sets in row [i] the cells of as
    many distinct items as the drawn length says and touches no other
    cell. *)
Lemma sample_row_Ok m p i w w' :
  wf (arr w) → binary (arr w) →
  sample_row m p i w = (Ok tt, w') →
  ∃ l sel,
    (trans_len m w).1 = Ok l ∧
    (1 ≤ l)%Z ∧ length sel = Z.to_nat l ∧ NoDup sel ∧
    sel ⊆ positive_entries p ∧
    wf (arr w') ∧ binary (arr w') ∧ grows (arr w) (arr w') ∧
    i < shape0 (arr w) ∧ Forall (λ c, c < ncols (arr w)) sel ∧
    ∀ r0 c0, cell (arr w') r0 c0
             = if decide (r0 = i ∧ c0 ∈ sel) then 1%Z else cell (arr w) r0 c0.
Proof.
  intros Hwf Hb. unfold sample_row. rewrite run_bind.
  destruct (trans_len m w) as [[l|] w1] eqn:Hlen; [|done].
  destruct (trans_len_Ok _ _ _ _ Hlen) as [Hl Ha1].
  rewrite run_bind.
  destruct (choice_p (num_items m) l p w1) as [[sel|] w2] eqn:Hsel; [|done].
  destruct (choice_p_Ok _ _ _ _ _ _ Hsel) as (Ha2 & Hlsel & Hnd & Hrange & Hpos).
  intros Hset.
  destruct (set_items_Ok i sel w2 w') as (_ & Hwf' & Hb' & Hg & Hi & Hcols & Hcells);
    [congruence|congruence|done|].
  rewrite Ha2, Ha1 in *.
  exists l, sel. repeat (split; [done|]). split; [|done].
  apply Hi. intros ->. simpl in Hlsel. lia.
Qed.

(** The sampling loop over distinct rows: each of them receives the
    drawn number of distinct items, and no other row is touched. *)
Lemma sample_rows_Ok m p range w w' :
  wf (arr w) → binary (arr w) → NoDup range →
  sample_rows m p range w = (Ok tt, w') →
  wf (arr w') ∧ binary (arr w') ∧ grows (arr w) (arr w') ∧
  (∀ r0 c0, r0 ∉ range → cell (arr w') r0 c0 = cell (arr w) r0 c0) ∧
  ∀ i, i ∈ range →
    ∃ wi l sel,
      (trans_len m wi).1 = Ok l ∧ (1 ≤ l)%Z ∧
      length sel = Z.to_nat l ∧ NoDup sel ∧ sel ⊆ positive_entries p ∧
      i < shape0 (arr w) ∧ Forall (λ c, c < ncols (arr w)) sel ∧
      ∀ c0, cell (arr w') i c0
            = if decide (c0 ∈ sel) then 1%Z else cell (arr w) i c0.
Proof.
  revert w. induction range as [|i range IH]; intros w Hwf Hb Hnd; simpl.
  - rewrite run_ret. intros [= <-]. do 2 (split; [done|]).
    split; [apply grows_refl|]. split; [done|]. by intros i Hi%not_elem_of_nil.
  - apply NoDup_cons in Hnd as [Hi Hnd]. rewrite run_bind.
    destruct (sample_row m p i w) as [[[]|] w1] eqn:Hrow; [|done].
    destruct (sample_row_Ok _ _ _ _ _ Hwf Hb Hrow)
      as (l & sel & Hl & Hl1 & Hlen & Hndsel & Hpos & Hwf1 & Hb1 & Hg1 & Hir & Hsel
          & Hcells1).
    intros Hrest.
    destruct (IH w1 Hwf1 Hb1 Hnd Hrest) as (Hwf' & Hb' & Hg' & Hother & Hrows).
    destruct (grows_shape _ _ Hg1) as [Hs1 Hc1].
    split; [done|]. split; [done|]. split; [by eapply grows_trans|]. split.
    + intros r0 c0 Hr0. rewrite Hother, Hcells1.
      * rewrite decide_False; [done|]. intros [-> _]. apply Hr0. by left.
      * intros Hin. apply Hr0. by right.
    + intros i0 [->|Hi0]%elem_of_cons.
      * exists w, l, sel. repeat (split; [done|]).
        intros c0. rewrite Hother by done. rewrite Hcells1.
        destruct (decide (c0 ∈ sel)); [by rewrite decide_True|].
        rewrite decide_False; [done|]. tauto.
      * destruct (Hrows i0 Hi0)
          as (wi & l0 & sel0 & H1 & H2 & H3 & H4 & Hp0 & H5 & H6 & H7).
        exists wi, l0, sel0. repeat (split; [done|]).
        split; [lia|]. split; [by rewrite <- Hc1|].
        intros c0. rewrite H7, Hcells1.
        rewrite (decide_False (P := i0 = i ∧ c0 ∈ sel)); [done|].
        intros [-> _]. done.
Qed.

Lemma binary_cell a r c : binary a → cell a r c = 0%Z ∨ cell a r c = 1%Z.
Proof.
  intros Hb. unfold cell.
  destruct (rows a !! r) as [row|] eqn:Hrow; simpl; [|by left].
  destruct (row !! c) as [v|] eqn:Hv; simpl; [|by left].
  unfold binary in Hb. rewrite Forall_lookup in Hb. specialize (Hb _ _ Hrow).
  rewrite Forall_lookup in Hb. by apply (Hb _ _ Hv).
Qed.

Lemma generate_Ok_rows `{Numerics} `{Seeding} self seed g m :
  (generate self seed g).1.1 = Ok m →
  ∀ r row, rows m !! r = Some row → ∃ c, c < ncols m ∧ row !! c = Some 1%Z.
Proof.
  intros Hgen r row Hrow.
  assert (r < shape0 m) as Hr by (by eapply lookup_lt_Some).
  enough (∃ c, c < ncols m ∧ cell m r c = 1%Z) as (c & Hc & Hcell).
  { exists c. split; [done|]. unfold cell in Hcell. rewrite Hrow in Hcell.
    simpl in Hcell. destruct (row !! c) as [v|]; [|done]. simpl in Hcell. by subst. }
  destruct (generate_Ok_matrix _ _ _ _ Hgen) as (Hs & Hc & _ & _).
  destruct (generate_Ok _ _ _ _ Hgen) as (p & g0 & base & g1 & w & Hbase & Hinj & -> & _).
  destruct (generate_transactions_Ok _ _ _ _ _ Hbase) as (z & w0 & Hz & Hrows & ->).
  destruct (sample_rows_Ok _ _ _ {| arr := z; rng := g0 |} _
              (zeros_wf _ _ _ Hz) (zeros_binary _ _ _ Hz) (NoDup_seq _ _) Hrows)
    as (Hwf0 & Hb0 & Hg0 & _ & Hsel).
  destruct (Hsel r) as (wi & l & sel & _ & Hl & Hlen & _ & _ & _ & Hcols & Hcells).
  { apply elem_of_seq. lia. }
  cbn [arr] in *.
  destruct sel as [|c sel]; [simpl in Hlen; lia|].
  apply Forall_cons in Hcols as [Hcn _].
  destruct (zeros_shape _ _ _ Hz) as [_ Hzc].
  exists c. split; [lia|].
  pose proof (Hcells c) as H1. rewrite decide_True in H1 by (by left).
  pose proof (inject_multiple_only_sets (injector self) (patterns self)
                {| arr := arr w0; rng := g1 |}) as Hi.
  rewrite Hinj in Hi. cbn [arr snd] in Hi. destruct (Hi Hb0) as [Hb1 Hg1].
  pose proof (grows_cell _ _ r c Hg1) as Hle.
  destruct (binary_cell (arr w) r c Hb1); lia.
Qed.

(** X8.  Every transaction of a generated dataset holds at least one item. *)
Theorem generated_transactions_nonempty `{Numerics} `{Seeding}
  (self : DataGenerator.t) (seed : option Z) (g : Rng) (m : ndarray) :
  (generate self seed g).1.1 = Ok m →
  ∀ r, r < shape0 m → ∃ c, c < ncols m ∧ cell m r c = 1%Z.
Proof.
  intros Hgen r Hr.
  destruct (rows m !! r) as [row|] eqn:Hrow.
  - destruct (generate_Ok_rows _ _ _ _ Hgen r row Hrow) as (c & Hc & Hcell).
    exists c. split; [done|]. unfold cell. by rewrite Hrow; simpl; rewrite Hcell.
  - apply lookup_ge_None in Hrow. unfold shape0 in Hr. lia.
Qed.

Lemma generated_transactions_nonempty_witness :
  ∃ m, (@generate left_sum counting (init small_config) (Some 7%Z) ones_rng).1.1 = Ok m
       ∧ ∃ c, c < ncols m ∧ cell m 3 c = 1%Z.
Proof.
  eexists. split; [vm_compute; reflexivity|].
  apply (@generated_transactions_nonempty left_sum counting (init small_config)
           (Some 7%Z) ones_rng _ ltac:(vm_compute; reflexivity) 3).
  vm_compute. lia.
Defined.

(** ** Transaction lengths of the base matrix *)

Lemma sum_list_app l k : sum_list (l ++ k) = (sum_list l + sum_list k)%Z.
Proof. induction l as [|x l IH]; simpl; lia. Qed.

Lemma sum_list_indicator (sel : list nat) n :
  NoDup sel → Forall (λ c, c < n) sel →
  sum_list ((λ c, if decide (c ∈ sel) then 1%Z else 0%Z) <$> seq 0 n)
  = Z.of_nat (length sel).
Proof.
  intros Hnd Hlt.
  assert (∀ l : list nat,
            sum_list ((λ c, if decide (c ∈ sel) then 1%Z else 0%Z) <$> l)
            = Z.of_nat (length (filter (λ c, c ∈ sel) l))) as Hf.
  { induction l as [|x l IH]; [done|]. rewrite fmap_cons, filter_cons.
    change (sum_list (?a :: ?b)) with (a + sum_list b)%Z. rewrite IH.
    destruct (decide (x ∈ sel)); simpl; lia. }
  rewrite Hf. f_equal. apply Permutation_length, NoDup_Permutation.
  - apply NoDup_filter, NoDup_seq.
  - done.
  - intros x. rewrite list_elem_of_filter, elem_of_seq. split; [tauto|].
    intros Hx. split; [done|]. rewrite Forall_forall in Hlt. specialize (Hlt x Hx). lia.
Qed.

Lemma row_cells a r row :
  wf a → rows a !! r = Some row →
  row = (λ c, cell a r c) <$> seq 0 (ncols a).
Proof.
  intros Hwf Hrow.
  assert (length row = ncols a) as Hlen.
  { unfold wf in Hwf. rewrite Forall_lookup in Hwf. by apply (Hwf _ _ Hrow). }
  apply list_eq. intros c. rewrite list_lookup_fmap. unfold cell. rewrite Hrow. simpl.
  destruct (decide (c < ncols a)) as [Hc|Hc].
  - rewrite lookup_seq_lt by done. simpl.
    destruct (lookup_lt_is_Some_2 row c ltac:(lia)) as [v ->]. done.
  - rewrite lookup_seq_ge by lia. apply lookup_ge_None. lia.
Qed.

(** X9.  When the length of a transaction comes from the density, every
    transaction of the base matrix holds exactly [max(1, int(num_items *
    density))] items. *)
Theorem base_transaction_lengths (m : dataset_meta) (p : list float) (g g' : Rng)
  (base : ndarray) (r : nat) (len : Z) :
  avg_transaction_len m = None ∨ avg_transaction_len m = Some 0%Z →
  _generate_transactions m p g = (Ok base, g') →
  sum_axis1 base !! r = Some len →
  ∃ x n, int_mul_float (num_items m) (density m) = Ok x ∧ Py.int x = Ok n ∧
         len = Z.max 1 n.
Proof.
  intros Havg Hbase Hr.
  destruct (generate_transactions_Ok _ _ _ _ _ Hbase) as (z & w0 & Hz & Hrows & ->).
  destruct (sample_rows_Ok _ _ _ {| arr := z; rng := g |} _
              (zeros_wf _ _ _ Hz) (zeros_binary _ _ _ Hz) (NoDup_seq _ _) Hrows)
    as (Hwf0 & Hb0 & Hg0 & _ & Hsel).
  destruct (grows_shape _ _ Hg0) as [Hs0 Hc0]. cbn [arr] in *.
  destruct (zeros_shape _ _ _ Hz) as [Hzs Hzc].
  unfold sum_axis1 in Hr. rewrite list_lookup_fmap in Hr.
  destruct (rows (arr w0) !! r) as [row|] eqn:Hrow; [|done]. simpl in Hr. simplify_eq.
  assert (r < Z.to_nat (num_transactions m)) as Hrt.
  { apply lookup_lt_Some in Hrow. unfold shape0 in *. lia. }
  destruct (Hsel r) as (wi & l & sel & Hl & _ & Hlen & Hnd & _ & _ & Hcols & Hcells).
  { apply elem_of_seq. lia. }
  assert (trans_len m wi = density_len m wi) as Htl.
  { unfold trans_len. by destruct Havg as [->| ->]. }
  rewrite Htl in Hl. unfold density_len in Hl. rewrite run_bind, run_lift in Hl.
  destruct (int_mul_float (num_items m) (density m)) as [x|]; [|done].
  rewrite run_bind, run_lift in Hl. destruct (Py.int x) as [n|] eqn:Hn; [|done].
  rewrite run_ret in Hl. simpl in Hl. simplify_eq.
  exists x, n. split; [done|]. split; [done|].
  rewrite (row_cells _ _ _ Hwf0 Hrow).
  erewrite list_fmap_ext; [|intros i c _; rewrite Hcells; reflexivity].
  assert (∀ c, cell z r c = 0%Z) as Hzero.
  { intros c. unfold cell. rewrite (zeros_rows _ _ _ _ Hz Hrt). simpl.
    destruct (replicate _ _ !! c) as [v|] eqn:Hv; [|done].
    by apply lookup_replicate in Hv as [-> _]. }
  erewrite list_fmap_ext; [|intros i c _; rewrite Hzero; reflexivity].
  rewrite sum_list_indicator; [lia|done|]. by rewrite Hc0.
Qed.

Lemma base_transaction_lengths_witness :
  ∃ x n, int_mul_float 5 0.5 = Ok x ∧ Py.int x = Ok n ∧ 2%Z = Z.max 1 n.
Proof.
  eapply (base_transaction_lengths (meta small_config) [0.5; 0.5; 0; 0; 0]%float
            ones_rng _ _ 0 2).
  - left. reflexivity.
  - vm_compute. reflexivity.
  - vm_compute. reflexivity.
Defined.

(** ** A configuration with an invalid pattern *)




(** ** The distribution engine without items *)

Lemma generate_item_frequencies_length_witness :
  ∃ probs, @generate_item_frequencies left_sum 5 "zipf" None = Ok probs ∧
           length probs = 5.
Proof.
  eexists. split; [vm_compute; reflexivity|].
  by apply (@generate_item_frequencies_length left_sum 5 "zipf" None).
Defined.

(** X11.  With no items every method returns an empty vector; for a negative
    [num_items] the Zipf method still returns an empty vector, while the
    three others raise [ValueError]. *)
Theorem engine_without_items `{Numerics} (num_items : Z) (method : string)
  (params : option (gmap string float)) :
  (num_items ≤ 0)%Z → method ∈ ["random"; "zipf"; "normal"; "exponential"] →
  generate_item_frequencies num_items method params
  = if bool_decide (method = "zipf" ∨ num_items = 0%Z) then Ok [] else Raise ValueError.
Proof.
  intros Hn Hm. unfold generate_item_frequencies.
  assert (∀ start stop, linspace start stop num_items
            = if bool_decide (num_items = 0%Z) then Ok [] else Raise ValueError) as Hlin.
  { intros start stop. unfold linspace.
    destruct (Z.ltb_spec num_items 0) as [Hlt|Hge].
    - by rewrite bool_decide_eq_false_2 by lia.
    - assert (num_items = 0%Z) as -> by lia. done. }
  assert (∀ b : bool, (if b then Raise ValueError else Raise ValueError)
                      = (Raise ValueError : result (list float))) as Hif
    by (by intros []).
  repeat (apply elem_of_cons in Hm as [->|Hm]); [| | | |by apply not_elem_of_nil in Hm].
  - rewrite (bool_decide_eq_true_2 ("random" = "random")) by done.
    unfold _random_distribution, ones.
    destruct (Z.ltb_spec num_items 0) as [Hlt|Hge].
    + rewrite bool_decide_eq_false_2; [done|]. intros [|]; [done|lia].
    + assert (num_items = 0%Z) as -> by lia. by rewrite bool_decide_eq_true_2 by (by right).
  - rewrite (bool_decide_eq_false_2 ("zipf" = "random")) by done.
    rewrite (bool_decide_eq_true_2 ("zipf" = "zipf")) by done.
    unfold _zipf_distribution, ranks.
    rewrite bool_decide_eq_true_2 by (by left).
    by replace (Z.to_nat num_items) with 0 by lia.
  - rewrite (bool_decide_eq_false_2 ("normal" = "random")) by done.
    rewrite (bool_decide_eq_false_2 ("normal" = "zipf")) by done.
    rewrite (bool_decide_eq_true_2 ("normal" = "normal")) by done.
    unfold _normal_distribution. rewrite Hlin.
    destruct (decide (num_items = 0%Z)) as [->|Hne].
    + by rewrite !bool_decide_eq_true_2 by (done || by right).
    + rewrite !bool_decide_eq_false_2; [done| |done]. intros [|]; done.
  - rewrite (bool_decide_eq_false_2 ("exponential" = "random")) by done.
    rewrite (bool_decide_eq_false_2 ("exponential" = "zipf")) by done.
    rewrite (bool_decide_eq_false_2 ("exponential" = "normal")) by done.
    rewrite (bool_decide_eq_true_2 ("exponential" = "exponential")) by done.
    unfold _exponential_distribution. rewrite Hlin.
    destruct (decide (num_items = 0%Z)) as [->|Hne].
    + by rewrite !bool_decide_eq_true_2 by (done || by right).
    + rewrite !bool_decide_eq_false_2; [done| |done]. intros [|]; done.
Qed.

Lemma engine_without_items_witness :
  @generate_item_frequencies left_sum (-3) "zipf" None = Ok [] ∧
  @generate_item_frequencies left_sum (-3) "normal" None = Raise ValueError.
Proof.
  split.
  - apply (@engine_without_items left_sum (-3) "zipf" None); [lia|].
    right. left.
  - apply (@engine_without_items left_sum (-3) "normal" None); [lia|].
    right. right. left.
Defined.

Lemma filter_all {A} (P : A → Prop) `{!∀ x, Decision (P x)} (l : list A) :
  Forall P l → filter P l = l.
Proof.
  induction 1 as [|x l Hx _ IH]; [done|]. by rewrite filter_cons_True, IH.
Qed.

Section SpmfRoundTrip.
Context `{Str.Text} (Hpy : python_text).
Import Str.

Lemma str_token n : token (str n).
Proof. split; [apply str_nonempty|apply str_no_space]; done. Qed.

Lemma lstrip_token x s : token x → lstrip (x ++ s) = x ++ s.
Proof.
  intros [Hne Hx]. destruct x as [|c x]; [done|].
  apply Forall_cons in Hx as [Hc _]. simpl. by rewrite Hc.
Qed.

Lemma lstrip_spaces sp s :
  Forall (λ c, isspace c = true) sp → lstrip (sp ++ s) = lstrip s.
Proof. induction 1 as [|c sp Hc _ IH]; [done|]. simpl. by rewrite Hc. Qed.

Lemma split_from_word word x s :
  Forall (λ c, isspace c = false) x →
  split_from word (x ++ s) = split_from (reverse x ++ word) s.
Proof.
  revert word. induction x as [|c x IH]; intros word Hx; [done|].
  apply Forall_cons in Hx as [Hc Hx]. simpl. rewrite Hc, IH by done.
  by rewrite reverse_cons, <- app_assoc.
Qed.

(** Splitting what [join] put together gives the tokens back. *)
Lemma split_join ts :
  Forall token ts → split (join [space] ts) = ts.
Proof.
  unfold split. induction 1 as [|x ts [Hne Hx] Hts IH]; [done|].
  destruct ts as [|y ts].
  - simpl. rewrite <- (app_nil_r x) at 1. rewrite split_from_word by done.
    rewrite app_nil_r. simpl.
    destruct (reverse x) as [|c r] eqn:Hr.
    + apply (f_equal reverse) in Hr. rewrite reverse_involutive in Hr. done.
    + by rewrite <- Hr, reverse_involutive.
  - change (join [space] (x :: y :: ts)) with (x ++ [space] ++ join [space] (y :: ts)).
    rewrite split_from_word by done. rewrite app_nil_r.
    cbn [app split_from]. rewrite isspace_space by done.
    destruct (reverse x) as [|c r] eqn:Hr.
    + apply (f_equal reverse) in Hr. rewrite reverse_involutive in Hr. done.
    + rewrite <- Hr, reverse_involutive. by rewrite IH.
Qed.

Lemma join_head x ts : ∃ s, join [space] (x :: ts) = x ++ s.
Proof.
  destruct ts as [|y ts].
  - exists []. simpl. by rewrite app_nil_r.
  - by exists ([space] ++ join [space] (y :: ts)).
Qed.

Lemma join_last ts x : ∃ s, join [space] (ts ++ [x]) = s ++ x.
Proof.
  induction ts as [|y ts [s IH]].
  - by exists [].
  - destruct ts as [|z ts].
    + exists (y ++ [space]). simpl. by rewrite <- app_assoc.
    + exists (y ++ [space] ++ s).
      change (join [space] ((y :: z :: ts) ++ [x]))
        with (y ++ [space] ++ join [space] ((z :: ts) ++ [x])).
      rewrite IH. by rewrite <- !app_assoc.
Qed.

(** Stripping a written line removes its newline and nothing else. *)
Lemma strip_line ts :
  Forall token ts → ts ≠ [] →
  strip (join [space] ts ++ [newline]) = join [space] ts.
Proof.
  intros Hts Hne. unfold strip.
  destruct ts as [|x ts]; [done|]. clear Hne.
  destruct (join_head x ts) as [s Hs].
  pose proof (Forall_inv Hts) as Hx.
  rewrite Hs, <- app_assoc, lstrip_token by done.
  rewrite app_assoc, <- Hs, reverse_app.
  change (reverse [newline]) with [newline]. cbn [app lstrip].
  rewrite isspace_newline by done.
  destruct (exists_last (l := x :: ts) ltac:(done)) as (ts' & y & Heq).
  rewrite Heq in *. destruct (join_last ts' y) as [s' Hs'].
  rewrite Hs', reverse_app.
  assert (token y) as Hy.
  { rewrite Forall_app in Hts. destruct Hts as [_ Hy]. by apply Forall_inv in Hy. }
  assert (token (reverse y)) as Hry.
  { destruct Hy as [Hyne Hy]. split.
    - intros Hr. apply Hyne. by rewrite <- (reverse_involutive y), Hr.
    - by apply Forall_reverse. }
  rewrite lstrip_token by done. by rewrite <- reverse_app, reverse_involutive.
Qed.

Lemma strip_token x : token x → strip x = x.
Proof.
  intros Hx. unfold strip.
  rewrite <- (app_nil_r x) at 1. rewrite lstrip_token, app_nil_r by done.
  assert (token (reverse x)) as Hrx.
  { destruct Hx as [Hne Hx]. split.
    - intros Hr. apply Hne. by rewrite <- (reverse_involutive x), Hr.
    - by apply Forall_reverse. }
  rewrite <- (app_nil_r (reverse x)). rewrite lstrip_token, app_nil_r by done.
  apply reverse_involutive.
Qed.

Lemma ints_str t : ints (str <$> t) = Ok t.
Proof.
  induction t as [|n t IH]; [done|]. cbn [fmap list_fmap ints].
  rewrite int_str by done. fold (fmap (M := list) str t). by rewrite IH.
Qed.

(** A written line holds no line terminator except its last character. *)
Lemma lines_from_plain line x s :
  Forall (λ c, c ≠ newline ∧ c ≠ carriage_return) x →
  lines_from line (x ++ s) = lines_from (reverse x ++ line) s.
Proof.
  revert line. induction x as [|c x IH]; intros line Hx; [done|].
  apply Forall_cons in Hx as [[Hc1 Hc2] Hx]. simpl.
  rewrite !decide_False by done. rewrite IH by done.
  by rewrite reverse_cons, <- app_assoc.
Qed.

Lemma join_plain ts :
  Forall token ts →
  Forall (λ c, c ≠ newline ∧ c ≠ carriage_return) (join [space] ts).
Proof.
  assert (∀ x, token x → Forall (λ c, c ≠ newline ∧ c ≠ carriage_return) x) as Htok.
  { intros x [_ Hx]. eapply Forall_impl; [exact Hx|]. simpl. intros c Hc.
    split; intros ->.
    - by rewrite isspace_newline in Hc.
    - by rewrite isspace_carriage_return in Hc. }
  induction 1 as [|x ts Hx Hts IH]; [constructor|].
  destruct ts as [|y ts]; [by apply Htok|].
  change (join [space] (x :: y :: ts)) with (x ++ [space] ++ join [space] (y :: ts)).
  apply Forall_app. split; [by apply Htok|]. apply Forall_app. split; [|done].
  constructor; [|constructor].
  split; [apply space_not_newline|apply space_not_carriage_return]; done.
Qed.

Lemma lines_written (ls : list (list (list char))) :
  Forall (Forall token) ls →
  lines (concat ((λ ts, join [space] ts ++ [newline]) <$> ls))
  = (λ ts, join [space] ts ++ [newline]) <$> ls.
Proof.
  unfold lines. induction 1 as [|ts ls Hts _ IH]; [done|].
  cbn [fmap list_fmap concat]. rewrite <- app_assoc.
  rewrite lines_from_plain by (by apply join_plain). simpl.
  rewrite decide_True by done. rewrite app_nil_r.
  rewrite reverse_cons, reverse_involutive. f_equal. apply IH.
Qed.

Lemma read_lines_written (ts : list (list Z)) :
  FileIO.read_lines ((λ t, join [space] (str <$> t) ++ [newline]) <$> ts)
  = Ok (filter (λ t, t ≠ []) ts).
Proof.
  induction ts as [|t ts IH]; [done|].
  cbn [fmap list_fmap FileIO.read_lines]. rewrite filter_cons.
  assert (Forall token (str <$> t)) as Htok.
  { apply Forall_fmap, Forall_forall. intros n _. apply str_token. }
  destruct t as [|n t].
  - simpl. unfold strip. simpl. rewrite isspace_newline by done. simpl.
    try rewrite decide_False by done. apply IH.
  - rewrite strip_line by done.
    destruct (join [space] (str <$> n :: t)) as [|c s] eqn:Hj.
    { destruct (join_head (str n) (str <$> t)) as [s Hs].
      rewrite fmap_cons, Hs in Hj. apply app_eq_nil in Hj as [Hj _].
      by apply str_nonempty in Hj. }
    rewrite <- Hj, split_join by done.
    assert (filter (λ x, strip x ≠ []) (str <$> n :: t) = str <$> n :: t) as ->.
    { apply filter_all, Forall_fmap, Forall_forall. intros k _. simpl.
      rewrite strip_token by apply str_token. by apply str_nonempty. }
    rewrite ints_str, IH. by case_decide.
Qed.

(** The lines of a written file are the lines that were written. *)
Lemma lines_write_spmf (ts : list (list Z)) :
  lines (FileIO.write_spmf ts) = (λ t, join [space] (str <$> t) ++ [newline]) <$> ts.
Proof.
  unfold FileIO.write_spmf.
  assert ((λ t, join [space] (str <$> t) ++ [newline]) <$> ts
          = (λ ts, join [space] ts ++ [newline]) <$> (fmap str <$> ts)) as Heq
    by (by rewrite <- list_fmap_compose).
  rewrite Heq, lines_written; [done|].
  apply Forall_fmap, Forall_forall. intros t _.
  apply Forall_fmap, Forall_forall. intros n _. by apply str_token.
Qed.

End SpmfRoundTrip.

(** ** Reading back what was written *)

(** X12.  [read_spmf] gives back the transactions [write_spmf] wrote, in
    order, except the empty ones: their lines are blank and are skipped. *)
Theorem read_write_spmf `{Str.Text} (transactions : list (list Z)) :
  python_text →
  FileIO.read_spmf (FileIO.write_spmf transactions)
  = Ok (filter (λ t, t ≠ []) transactions).
Proof.
  intros Hpy. unfold FileIO.read_spmf.
  rewrite lines_write_spmf by done. by apply read_lines_written.
Qed.

Lemma uint_no_space d :
  Forall (λ c, ascii_isspace c = false)
         (String.list_ascii_of_string (DecimalString.NilEmpty.string_of_uint d)).
Proof. induction d; simpl; constructor; done. Qed.

Lemma to_uint_nonnil p : Pos.to_uint p ≠ Decimal.Nil.
Proof.
  intros Hnil. pose proof (DecimalPos.Unsigned.of_to p) as Hp.
  rewrite Hnil in Hp. done.
Qed.

Lemma ascii_python_text : @python_text ascii_text.
Proof.
  split; try done.
  - intros n. cbn. destruct n as [|p|p]; cbn; [done| |done].
    unfold DecimalString.NilZero.string_of_uint. pose proof (to_uint_nonnil p).
    destruct (Pos.to_uint p); try done.
  - intros n. cbn.
    assert (∀ d, Forall (λ c, ascii_isspace c = false)
                   (String.list_ascii_of_string (DecimalString.NilZero.string_of_uint d))) as Hu.
    { intros d. destruct d; try apply uint_no_space. repeat constructor. }
    destruct n as [|p|p]; cbn; [repeat constructor|apply Hu|].
    constructor; [done|apply Hu].
  - intros n. cbn -[DecimalString.NilZero.int_of_string DecimalString.NilZero.string_of_int].
    rewrite String.string_of_list_ascii_of_string, DecimalString.NilZero.isi.
    + by rewrite DecimalZ.of_to.
    + destruct n as [|p|p]; cbn; try done. intros [= Hp]. by apply to_uint_nonnil in Hp.
    + destruct n as [|p|p]; cbn; try done. intros [= Hp]. by apply to_uint_nonnil in Hp.
Qed.

Lemma read_write_spmf_witness :
  @FileIO.read_spmf ascii_text (@FileIO.write_spmf ascii_text [[1; 22]; []; [3]]%Z)
  = Ok [[1; 22]; [3]]%Z.
Proof. apply (@read_write_spmf ascii_text [[1; 22]; []; [3]]%Z ascii_python_text). Defined.

(** ** The items of a transaction *)

Lemma where_one_elem row c : c ∈ where_one row ↔ row !! c = Some 1%Z.
Proof.
  unfold where_one. rewrite list_elem_of_filter, elem_of_seq. split; [tauto|].
  intros Hc. split; [done|]. apply lookup_lt_Some in Hc. lia.
Qed.

Lemma sorted_filter_seq (P : nat → Prop) `{!∀ x, Decision (P x)} j n :
  Sorted.StronglySorted lt (filter P (seq j n)).
Proof.
  revert j. induction n as [|n IH]; intros j; simpl; [constructor|].
  rewrite filter_cons. case_decide; [|apply IH].
  constructor; [apply IH|]. apply Forall_forall.
  intros x [_ Hx%elem_of_seq]%list_elem_of_filter. lia.
Qed.

Lemma sorted_fmap_of_nat l :
  Sorted.StronglySorted lt l → Sorted.StronglySorted Z.lt (Z.of_nat <$> l).
Proof.
  induction 1 as [|x l _ IH Hx]; [constructor|]. cbn [fmap list_fmap].
  constructor; [done|]. apply Forall_fmap. eapply Forall_impl; [exact Hx|]. simpl. lia.
Qed.

(** X13.  The file [to_spmf] writes for a generated dataset reads back as
    one transaction per row, which lists in increasing order exactly the
    items set in that row. *)
Theorem to_spmf_read_back `{Numerics} `{Seeding} `{Str.Text}
  (self : DataGenerator.t) (seed : option Z) (g : Rng) (m : ndarray) :
  python_text →
  (generate self seed g).1.1 = Ok m →
  ∃ content transactions,
    to_spmf (generate self seed g).1.2 = Return content ∧
    FileIO.read_spmf content = Ok transactions ∧
    length transactions = Z.to_nat (num_transactions (meta (cfg self))) ∧
    ∀ r items, transactions !! r = Some items →
      Sorted.StronglySorted Z.lt items ∧
      Forall (λ item, 0 ≤ item)%Z items ∧
      ∀ c, Z.of_nat c ∈ items ↔ cell m r c = 1%Z.
Proof.
  intros Hpy Hgen.
  destruct (generate_Ok_matrix _ _ _ _ Hgen) as (Hs & Hc & Hwf & _ & Hself).
  pose proof (generate_Ok_rows _ _ _ _ Hgen) as Hne.
  set (ts := (λ row, Z.of_nat <$> where_one row) <$> rows m).
  exists (FileIO.write_spmf ts), ts.
  split; [|split; [|split]].
  - unfold to_spmf. rewrite Hself. cbn [data].
    unfold FileIO.write_spmf, spmf_line, ts.
    by rewrite <- list_fmap_compose.
  - unfold FileIO.read_spmf. rewrite lines_write_spmf, read_lines_written by done.
    f_equal. apply filter_all.
    apply Forall_fmap, Forall_forall. intros row Hrow. simpl.
    apply list_elem_of_lookup in Hrow as [r Hr].
    destruct (Hne r row Hr) as (c & Hcn & Hv).
    apply where_one_elem in Hv. intros Hnil. apply fmap_nil_inv in Hnil.
    rewrite Hnil in Hv. by apply not_elem_of_nil in Hv.
  - unfold ts. rewrite length_fmap. exact Hs.
  - intros r items Hr. unfold ts in Hr. rewrite list_lookup_fmap in Hr.
    destruct (rows m !! r) as [row|] eqn:Hrow; [|done]. simpl in Hr. simplify_eq.
    split; [apply sorted_fmap_of_nat, sorted_filter_seq|].
    split; [apply Forall_fmap, Forall_forall; intros c _; simpl; lia|].
    intros c. rewrite list_elem_of_fmap. split.
    + intros (c' & Hcc & Hin). apply Nat2Z.inj in Hcc. subst c'.
      apply where_one_elem in Hin. unfold cell. by rewrite Hrow; simpl; rewrite Hin.
    + intros Hcell. exists c. split; [done|]. apply where_one_elem.
      unfold cell in Hcell. rewrite Hrow in Hcell. simpl in Hcell.
      destruct (row !! c) as [v|] eqn:Hv; [|done]. simpl in Hcell. by subst.
Qed.

Lemma to_spmf_read_back_witness :
  ∃ content transactions,
    @to_spmf ascii_text
      (@generate left_sum counting (init small_config) (Some 7%Z) ones_rng).1.2
    = Return content ∧
    @FileIO.read_spmf ascii_text content = Ok transactions ∧
    length transactions = 4.
Proof.
  destruct (@to_spmf_read_back left_sum counting ascii_text (init small_config)
              (Some 7%Z) ones_rng _ ascii_python_text ltac:(vm_compute; reflexivity))
    as (content & ts & H1 & H2 & H3 & _).
  exists content, ts. split; [exact H1|]. split; [exact H2|exact H3].
Defined.

(** ** Reductions of integer vectors *)

Lemma foldl_min_spec x l :
  (foldl Z.min x l = x ∨ foldl Z.min x l ∈ l) ∧
  (foldl Z.min x l ≤ x)%Z ∧ Forall (λ y, foldl Z.min x l ≤ y)%Z l.
Proof.
  revert x. induction l as [|y l IH]; intros x; simpl.
  - split; [by left|]. split; [lia|constructor].
  - destruct (IH (Z.min x y)) as ([Heq|Hin] & Hle & Hall).
    + split; [|split; [lia|constructor; [lia|done]]].
      rewrite Heq. destruct (Z.min_spec x y) as [[_ ->]|[_ ->]]; [by left|right; by left].
    + split; [right; by right|]. split; [lia|constructor; [lia|done]].
Qed.

Lemma foldl_max_spec x l :
  (foldl Z.max x l = x ∨ foldl Z.max x l ∈ l) ∧
  (x ≤ foldl Z.max x l)%Z ∧ Forall (λ y, y ≤ foldl Z.max x l)%Z l.
Proof.
  revert x. induction l as [|y l IH]; intros x; simpl.
  - split; [by left|]. split; [lia|constructor].
  - destruct (IH (Z.max x y)) as ([Heq|Hin] & Hle & Hall).
    + split; [|split; [lia|constructor; [lia|done]]].
      rewrite Heq. destruct (Z.max_spec x y) as [[_ ->]|[_ ->]]; [right; by left|by left].
    + split; [right; by right|]. split; [lia|constructor; [lia|done]].
Qed.

Lemma np_min_Ok l x :
  np_min l = Ok x ↔ l ≠ [] ∧ x ∈ l ∧ Forall (λ y, x ≤ y)%Z l.
Proof.
  destruct l as [|a l]; simpl; [split; [done|by intros [? _]]|].
  destruct (foldl_min_spec a l) as (Hin & Hle & Hall). split.
  - intros [= <-]. split; [done|]. split.
    + destruct Hin as [->|Hin]; [by left|by right].
    + by constructor.
  - intros (_ & Hx & Hmin). f_equal.
    apply Forall_cons in Hmin as [Hxa Hxl].
    assert (foldl Z.min a l ∈ a :: l) as Hm
      by (destruct Hin as [->|Hin]; [by left|by right]).
    rewrite Forall_forall in Hall, Hxl.
    apply elem_of_cons in Hx as [->|Hx], Hm as [Hm|Hm];
      try specialize (Hall _ Hx); try specialize (Hxl _ Hm); lia.
Qed.

Lemma np_max_Ok l x :
  np_max l = Ok x ↔ l ≠ [] ∧ x ∈ l ∧ Forall (λ y, y ≤ x)%Z l.
Proof.
  destruct l as [|a l]; simpl; [split; [done|by intros [? _]]|].
  destruct (foldl_max_spec a l) as (Hin & Hle & Hall). split.
  - intros [= <-]. split; [done|]. split.
    + destruct Hin as [->|Hin]; [by left|by right].
    + by constructor.
  - intros (_ & Hx & Hmax). f_equal.
    apply Forall_cons in Hmax as [Hxa Hxl].
    assert (foldl Z.max a l ∈ a :: l) as Hm
      by (destruct Hin as [->|Hin]; [by left|by right]).
    rewrite Forall_forall in Hall, Hxl.
    apply elem_of_cons in Hx as [->|Hx], Hm as [Hm|Hm];
      try specialize (Hall _ Hx); try specialize (Hxl _ Hm); lia.
Qed.

(** [argmax] gives the first position of the largest entry. *)
Lemma argmax_from_spec pre l best bv :
  pre !! best = Some bv →
  Forall (λ y, y ≤ bv)%Z pre →
  (∀ j y, j < best → pre !! j = Some y → (y < bv)%Z) →
  ∃ mx, (pre ++ l) !! argmax_from best bv (length pre) l = Some mx ∧
        Forall (λ y, y ≤ mx)%Z (pre ++ l) ∧
        ∀ j y, j < argmax_from best bv (length pre) l →
               (pre ++ l) !! j = Some y → (y < mx)%Z.
Proof.
  revert pre best bv. induction l as [|x l IH]; intros pre best bv Hb Hall Hfirst; simpl.
  - rewrite app_nil_r. by exists bv.
  - replace (pre ++ x :: l) with ((pre ++ [x]) ++ l) by (by rewrite <- app_assoc).
    replace (S (length pre)) with (length (pre ++ [x])) by (rewrite length_app; simpl; lia).
    destruct (Z.ltb_spec bv x) as [Hlt|Hge].
    + apply IH.
      * by apply list_lookup_middle.
      * apply Forall_app. split; [|by repeat constructor].
        eapply Forall_impl; [exact Hall|]. simpl. lia.
      * intros j y Hj Hy. rewrite lookup_app_l in Hy by lia.
        rewrite Forall_lookup in Hall. specialize (Hall _ _ Hy). lia.
    + apply IH.
      * rewrite lookup_app_l; [done|]. by eapply lookup_lt_Some.
      * apply Forall_app. split; [done|]. repeat constructor. lia.
      * intros j y Hj Hy. apply (Hfirst j y Hj).
        rewrite lookup_app_l in Hy; [done|]. apply lookup_lt_Some in Hb. lia.
Qed.

Lemma argmax_Ok l k :
  argmax l = Ok k →
  ∃ mx, l !! k = Some mx ∧ Forall (λ y, y ≤ mx)%Z l ∧
        ∀ j y, j < k → l !! j = Some y → (y < mx)%Z.
Proof.
  destruct l as [|x l]; [done|]. simpl. intros [= <-].
  apply (argmax_from_spec [x] l 0 x); [done|by repeat constructor|]. intros; lia.
Qed.

Lemma argmax_nonempty l : l ≠ [] → ∃ k, argmax l = Ok k.
Proof. destruct l; [done|]. by eexists. Qed.

(** ** Row and column sums of a 0/1 matrix *)

Lemma sum_list_binary row :
  Forall (λ v, v = 0 ∨ v = 1)%Z row → (0 ≤ sum_list row ≤ Z.of_nat (length row))%Z.
Proof. induction 1 as [|v row Hv _ IH]; simpl; lia. Qed.

Lemma sum_list_one row c :
  Forall (λ v, v = 0 ∨ v = 1)%Z row → row !! c = Some 1%Z → (1 ≤ sum_list row)%Z.
Proof.
  intros Hb. revert c. induction Hb as [|v row Hv Hrow IH]; intros c Hc; [done|].
  pose proof (sum_list_binary row Hrow). destruct c as [|c]; simpl in *.
  - simplify_eq. lia.
  - specialize (IH _ Hc). lia.
Qed.

Lemma sum_axis0_bounds a f :
  binary a → f ∈ sum_axis0 a → (0 ≤ f ≤ Z.of_nat (shape0 a))%Z.
Proof.
  intros Hb. unfold sum_axis0. rewrite list_elem_of_fmap. intros (c & -> & _).
  pose proof (sum_list_binary ((λ row, default 0%Z (row !! c)) <$> rows a)) as Hs.
  rewrite length_fmap in Hs. apply Hs.
  apply Forall_fmap, Forall_forall. intros row Hrow. simpl.
  destruct (row !! c) as [v|] eqn:Hv; simpl; [|by left].
  unfold binary in Hb. rewrite Forall_forall in Hb. specialize (Hb _ Hrow).
  rewrite Forall_lookup in Hb. by apply (Hb _ _ Hv).
Qed.

(** ** The statistics of a generated dataset *)

Lemma inject_pattern_Ok_items self l ts nr w :
  (inject_pattern self l ts nr w).1 = Ok tt →
  Forall (λ item, 0 ≤ item < PatternInjector.num_items self)%Z l.
Proof.
  unfold inject_pattern. case_bool_decide; [done|].
  destruct (invalid_items self l) eqn:Hinv; [done|]. intros _.
  by apply invalid_items_false.
Qed.

Lemma inject_multiple_Ok_items self ps w :
  (inject_multiple_patterns self ps w).1 = Ok tt →
  Forall (λ p, Forall (λ item, 0 ≤ item < PatternInjector.num_items self)%Z (items p)) ps.
Proof.
  revert w. induction ps as [|p ps IH]; intros w; [constructor|].
  simpl. rewrite run_bind.
  destruct (inject_pattern self _ _ _ w) as [[[]|e] w1] eqn:Hp; [|done].
  intros Hrest. constructor; [|by eapply IH].
  eapply inject_pattern_Ok_items. by rewrite Hp.
Qed.

Lemma verify_patterns_Ok d ps :
  Forall (λ p, Forall (λ item, 0 ≤ item < Z.of_nat (ncols d))%Z (items p)) ps →
  ∃ entries,
    verify_patterns d ps = Ok entries ∧
    Forall2 (λ p e, pattern_id e = id p ∧ pattern_items e = items p ∧
                    pattern_target_support e = target_support p ∧
                    verify_pattern d (items p) = Ok (actual_support e)) ps entries.
Proof.
  induction 1 as [|p ps Hp _ (entries & IH & Hall)].
  - exists []. split; [done|constructor].
  - simpl. destruct (verify_pattern_in_range d (items p)) as [s Hv].
    { eapply Forall_impl; [exact Hp|]. simpl. lia. }
    rewrite Hv, IH. eexists. split; [done|]. constructor; [|done]. by simpl.
Qed.

Lemma sum_list_bounds l lo hi :
  Forall (λ x, lo ≤ x ≤ hi)%Z l →
  (Z.of_nat (length l) * lo ≤ sum_list l ≤ Z.of_nat (length l) * hi)%Z.
Proof. induction 1 as [|x l Hx _ IH]; simpl length; simpl sum_list; [lia|nia]. Qed.

(** X14.  After a successful [generate], [get_statistics] raises
    [ValueError] when the dataset has no transactions, and otherwise
    returns statistics in which every transaction has between 1 and
    [num_items] items, every item occurs in at most [num_transactions]
    transactions, the most frequent item is the first one with the
    largest frequency, the density lies between 0.0 and 1.0, and every
    configured pattern is reported with the support [verify_pattern]
    measures. *)
Theorem generated_statistics `{Numerics} `{Seeding} `{Moments}
  (self : DataGenerator.t) (seed : option Z) (g : Rng) (m : ndarray) :
  (generate self seed g).1.1 = Ok m →
  let T := num_transactions (meta (cfg self)) in
  let N := num_items (meta (cfg self)) in
  match get_statistics (generate self seed g).1.2 with
  | Fail e => e = Builtin ValueError ∧ (T ≤ 0)%Z
  | Return st =>
      (0 < T)%Z ∧
      stat_num_transactions st = T ∧ stat_num_items st = N ∧
      (1 ≤ min_transaction_length st ≤ max_transaction_length st)%Z ∧
      (max_transaction_length st ≤ N)%Z ∧
      (0 ≤ min_item_frequency st ≤ max_item_frequency st)%Z ∧
      (max_item_frequency st ≤ T)%Z ∧
      (sum_axis0 m !! most_frequent_item st = Some (max_item_frequency st) ∧
       ∀ j f, j < most_frequent_item st → sum_axis0 m !! j = Some f →
              (f < max_item_frequency st)%Z) ∧
      (T ≤ total_entries st ≤ T * N)%Z ∧
      ((T * N < 2 ^ 63)%Z →
       (0 <=? actual_density st)%float = true ∧
       (actual_density st <=? 1)%float = true) ∧
      num_patterns_injected st = length (patterns self) ∧
      match injected_patterns st with
      | None => patterns self = []
      | Some entries =>
          patterns self ≠ [] ∧
          Forall2 (λ p e, pattern_id e = id p ∧ pattern_items e = items p ∧
                          pattern_target_support e = target_support p ∧
                          verify_pattern m (items p) = Ok (actual_support e))
                  (patterns self) entries
      end
  end.
Proof.
  intros Hgen T N.
  destruct (generate_Ok_matrix _ _ _ _ Hgen) as (Hs & Hc & Hwf & Hb & Hself).
  pose proof (generate_Ok_rows _ _ _ _ Hgen) as Hne.
  destruct (generate_Ok _ _ _ _ Hgen) as (p & g0 & base & g1 & w & _ & Hinj & _ & _).
  assert (Forall (λ p, Forall (λ item, 0 ≤ item < Z.of_nat (ncols m))%Z (items p))
            (patterns self)) as Hitems.
  { pose proof (inject_multiple_Ok_items (injector self) (patterns self)
                  {| arr := base; rng := g1 |}) as Hi.
    rewrite Hinj in Hi. specialize (Hi eq_refl).
    eapply Forall_impl; [exact Hi|]. intros q Hq.
    eapply Forall_impl; [exact Hq|]. simpl. intros item. unfold injector. simpl.
    fold N. lia. }
  unfold get_statistics. rewrite Hself. cbn [data cfg].
  fold T N.
  unfold patterns at 1 2 3. cbn [cfg]. fold (patterns self).
  destruct (Z.le_gt_cases T 0) as [HT|HT].
  - assert (rows m = []) as Hrows.
    { apply nil_length_inv. unfold shape0 in Hs. fold T in Hs. lia. }
    unfold sum_axis1. rewrite Hrows. simpl. done.
  - assert (rows m ≠ []) as Hrows.
    { intros Hnil. unfold shape0 in Hs. rewrite Hnil in Hs. simpl in Hs. fold T in Hs. lia. }
    assert (0 < ncols m) as Hncols.
    { destruct (rows m) as [|row0 rest] eqn:Hrows0; [done|].
      destruct (Hne 0 row0) as (c & Hcn & _); [by try rewrite Hrows0|lia]. }
    assert (Forall (λ x, 1 ≤ x ≤ N)%Z (sum_axis1 m)) as Hlens.
    { unfold sum_axis1. apply Forall_fmap, Forall_lookup. intros r row Hrow. simpl.
      assert (Forall (λ v, v = 0 ∨ v = 1)%Z row) as Hbrow.
      { unfold binary in Hb. rewrite Forall_lookup in Hb. by eapply Hb. }
      assert (length row = ncols m) as Hlen.
      { unfold wf in Hwf. rewrite Forall_lookup in Hwf. by eapply Hwf. }
      pose proof (sum_list_binary row Hbrow) as Hsum.
      destruct (Hne r row Hrow) as (c & _ & Hv).
      pose proof (sum_list_one row c Hbrow Hv). fold N in Hc. lia. }
    assert (sum_axis1 m ≠ []) as Hl1.
    { unfold sum_axis1. intros Hnil. by apply fmap_nil_inv in Hnil. }
    assert (sum_axis0 m ≠ []) as Hl0.
    { unfold sum_axis0. intros Hnil. apply fmap_nil_inv in Hnil.
      destruct (ncols m); [lia|done]. }
    destruct (np_min (sum_axis1 m)) as [min_len|e] eqn:Hmin;
      [|by destruct (sum_axis1 m)].
    destruct (np_max (sum_axis1 m)) as [max_len|e] eqn:Hmax;
      [|by destruct (sum_axis1 m)].
    destruct (argmax (sum_axis0 m)) as [most|e] eqn:Harg;
      [|by destruct (sum_axis0 m)].
    destruct (np_max (sum_axis0 m)) as [max_freq|e] eqn:Hmaxf;
      [|by destruct (sum_axis0 m)].
    destruct (np_min (sum_axis0 m)) as [min_freq|e] eqn:Hminf;
      [|by destruct (sum_axis0 m)].
    apply np_min_Ok in Hmin as (_ & Hmin_in & Hmin_le).
    apply np_max_Ok in Hmax as (_ & Hmax_in & Hmax_ge).
    apply np_max_Ok in Hmaxf as (_ & Hmaxf_in & Hmaxf_ge).
    apply np_min_Ok in Hminf as (_ & Hminf_in & Hminf_le).
    destruct (argmax_Ok _ _ Harg) as (mx & Hmost & Hmx & Hfirst).
    assert (mx = max_freq) as ->.
    { rewrite Forall_forall in Hmx, Hmaxf_ge.
      pose proof (Hmx _ Hmaxf_in). pose proof (Hmaxf_ge _ (list_elem_of_lookup_2 _ _ _ Hmost)).
      lia. }
    rewrite Forall_forall in Hlens, Hmin_le, Hmax_ge, Hminf_le.
    pose proof (Hlens _ Hmin_in) as Hq1. pose proof (Hlens _ Hmax_in) as Hq2.
    pose proof (Hmin_le _ Hmax_in) as Hq3.
    pose proof (sum_axis0_bounds m _ Hb Hminf_in) as Hq4.
    pose proof (sum_axis0_bounds m _ Hb Hmaxf_in) as Hq5.
    pose proof (Hminf_le _ Hmaxf_in) as Hq6.
    assert (Z.of_nat (shape0 m) = T) as HsT by (fold T in Hs; lia).
    rewrite HsT in Hq4, Hq5.
    pose proof (sum_list_bounds (sum_axis1 m) 1 N ltac:(by apply Forall_forall)) as Htot.
    assert (length (sum_axis1 m) = shape0 m) as Hlen1
      by (unfold sum_axis1, shape0; by rewrite length_fmap).
    rewrite Hlen1, HsT in Htot.
    assert ((T * N < 2 ^ 63)%Z →
            (0 <=? int64_div (sum_list (sum_axis1 m)) (T * N))%float = true ∧
            (int64_div (sum_list (sum_axis1 m)) (T * N) <=? 1)%float = true) as Hdens.
    { intros H63. assert (0 < T * N < 2 ^ 63)%Z as HTN by nia. split.
      - rewrite <- (int64_div_zero (T * N)%Z HTN). apply int64_div_mono; lia.
      - rewrite <- (int64_div_self (T * N)%Z HTN). apply int64_div_mono; lia. }
    destruct (verify_patterns_Ok m (patterns self) Hitems) as (entries & Hver & Hall).
    destruct (patterns self) as [|q qs] eqn:Hps.
    + cbn. repeat (split; [done || lia|]). done.
    + rewrite Hver. cbn. repeat (split; [done || lia|]). done.
Qed.

Lemma generated_statistics_witness :
  ∃ st,
    @get_statistics no_moments
      (@generate left_sum counting (init small_config) (Some 7%Z) ones_rng).1.2
    = Return st ∧
    (1 ≤ min_transaction_length st ≤ max_transaction_length st)%Z ∧
    (max_item_frequency st ≤ 4)%Z.
Proof.
  assert (∃ st, @get_statistics no_moments
            (@generate left_sum counting (init small_config) (Some 7%Z) ones_rng).1.2
          = Return st) as [st Hget] by (eexists; vm_compute; reflexivity).
  exists st. split; [exact Hget|].
  pose proof (@generated_statistics left_sum counting no_moments (init small_config)
                (Some 7%Z) ones_rng _ ltac:(vm_compute; reflexivity)) as Hst.
  cbv zeta in Hst. rewrite Hget in Hst.
  destruct Hst as (_ & _ & _ & H1 & _ & _ & H2 & _). split; [exact H1|exact H2].
Defined.

(** ** How many transactions an injection targets *)

Section InjectionCount.

Local Open Scope Z_scope.

(** The product of an integer below 2^53 with a factor of at most one,
    once rounded, is still at most that integer. *)
Lemma round_product_le m e T :
  0 ≤ m → e ≤ 0 → 0 ≤ T < 2 ^ 53 → m ≤ T * 2 ^ (- e) →
  match binary_round_aux prec emax false m e loc_Exact with
  | S754_zero _ => True
  | S754_finite _ m' e' => 0 ≤ Z.shiftl (Z.pos m') e' ≤ T
  | _ => False
  end.
Proof.
  intros Hm He HT Hle. unfold binary_round_aux.
  pose proof (shr_fexp_rem m 1 e ltac:(lia) Hm) as H1.
  rewrite Z.div_1_r, Z.mod_1_r in H1. change (loc_of_rem 1 0) with loc_Exact in H1.
  destruct (shr_fexp prec emax m e loc_Exact) as [mrs1 e1].
  destruct H1 as [He1 ->]. rewrite Z.mul_1_l.
  assert (∀ a, a ≤ 0 → 0 < 2 ^ (- a)) as Hpos by (intros; apply Z.pow_pos_nonneg; lia).
  assert (∀ a, a ≤ 0 → 2 ^ (53 - a) = 2 ^ 53 * 2 ^ (- a)) as Hp53.
  { intros a Ha. rewrite <- Z.pow_add_r by lia. f_equal; lia. }
  assert (Zdigits2 m ≤ 53 - e) as Hdm.
  { apply Zdigits2_le; [done|lia|]. rewrite Hp53 by done. pose proof (Hpos e He). nia. }
  assert (e ≤ e1 ≤ 0) as He1b by (unfold fexp, SpecFloat.emin, prec, emax in He1; lia).
  set (k := e1 - e) in *. set (M := rne m (2 ^ k)).
  assert (0 < 2 ^ k) as Hk by (apply Z.pow_pos_nonneg; lia).
  assert (2 ^ k * 2 ^ (- e1) = 2 ^ (- e)) as Hsplit.
  { rewrite <- Z.pow_add_r by lia. f_equal; lia. }
  assert (0 ≤ M ≤ T * 2 ^ (- e1)) as HM.
  { split.
    - etrans; [|apply rne_bounds]. apply Z.div_pos; lia.
    - apply rne_le_ceil; [done|].
      by rewrite Z.mul_comm, <- Z.mul_assoc, (Z.mul_comm _ (2 ^ k)), Hsplit. }
  pose proof (shr_fexp_spec M e1 loc_Exact ltac:(lia)) as H2.
  destruct (shr_fexp prec emax M e1 loc_Exact) as [mrs2 e2]. destruct H2 as [He2 HM2].
  assert (Zdigits2 M ≤ 53 - e1) as HdM.
  { apply Zdigits2_le; [lia|lia|]. rewrite Hp53 by lia. pose proof (Hpos e1 ltac:(lia)). nia. }
  assert (e1 ≤ e2 ≤ 0) as He2b by (unfold fexp, SpecFloat.emin, prec, emax in He2; lia).
  assert (0 ≤ shr_m mrs2) as H3.
  { rewrite HM2. apply Z_div_nonneg_nonneg; [lia|]. apply Z.pow_nonneg. lia. }
  destruct (shr_m mrs2) as [|p|p]; [done| |lia].
  rewrite (proj2 (Z.leb_le _ _)) by (unfold emax, prec; lia).
  rewrite Z.shiftl_div_pow2 by lia. rewrite HM2.
  pose proof (Hpos e1 ltac:(lia)) as Hq1. pose proof (Hpos e2 ltac:(lia)) as Hq2.
  assert (0 < 2 ^ (e2 - e1)) as Hq3 by (apply Z.pow_pos_nonneg; lia).
  rewrite Z.div_div by lia.
  assert (2 ^ (e2 - e1) * 2 ^ (- e2) = 2 ^ (- e1)) as ->.
  { rewrite <- Z.pow_add_r by lia. f_equal; lia. }
  split; [apply Z.div_pos; lia|].
  apply Z.div_le_upper_bound; [done|]. lia.
Qed.

(** An integer below 2^53 is a double. *)
Lemma binary_normalize_exact c :
  0 < c < 2 ^ 53 →
  ∃ m e, binary_normalize prec emax c 0 false = S754_finite false m e ∧
         e ≤ 0 ∧ Z.pos m = c * 2 ^ (- e).
Proof.
  intros [Hc Hc53].
  destruct (binary_normalize_pos c Hc) as (n & e & -> & Hn & He & Hval & Hexp).
  destruct (binary_round_aux_normal n 1 e ltac:(lia) Hn He) as (Hk & _ & HM & ->).
  rewrite Z.div_1_r, Z.mul_1_l in *.
  set (k := Zdigits2 n - 53) in *. set (dc := Zdigits2 c) in *.
  assert (1 ≤ dc ≤ 53) as Hdc.
  { split; [subst dc; destruct c; simpl; lia|]. apply Zdigits2_le; lia. }
  assert (SpecFloat.emin prec emax = -1074) as Hemin by done. rewrite Hemin in *.
  assert (n = c * 2 ^ (- e)) as Hn'.
  { assert (2 ^ (- -1074) = 2 ^ (e - -1074) * 2 ^ (- e)) as Hp
      by (rewrite <- Z.pow_add_r by lia; f_equal; lia).
    rewrite Hp in Hval.
    assert (0 < 2 ^ (e - -1074)) by (apply Z.pow_pos_nonneg; lia).
    nia. }
  assert (2 ^ (- e) = 2 ^ (53 - dc) * 2 ^ k) as Hp
    by (rewrite <- Z.pow_add_r by lia; f_equal; lia).
  assert (0 < 2 ^ k) as Hpk by (apply Z.pow_pos_nonneg; lia).
  assert (rne n (2 ^ k) = c * 2 ^ (53 - dc)) as HM'.
  { rewrite Hn', Hp, Z.mul_assoc.
    rewrite <- (Z.mul_1_l (2 ^ k)) at 2. rewrite rne_scale by lia.
    unfold rne. by rewrite Z.div_1_r, Z.mod_1_r. }
  rewrite HM' in *.
  pose proof (Zdigits2_bounds c Hc) as [_ Hup]. fold dc in Hup.
  assert (c * 2 ^ (53 - dc) < 2 ^ 53) as Hlt.
  { assert (2 ^ dc * 2 ^ (53 - dc) = 2 ^ 53) as <-
      by (rewrite <- Z.pow_add_r by lia; f_equal; lia).
    assert (0 < 2 ^ (53 - dc)) by (apply Z.pow_pos_nonneg; lia). nia. }
  unfold normal_float. rewrite (proj2 (Z.ltb_lt _ _)) by done.
  rewrite (proj2 (Z.leb_le _ _)) by (unfold emax, prec; lia).
  exists (Z.to_pos (c * 2 ^ (53 - dc))), (e + k).
  split; [done|]. split; [lia|]. rewrite Z2Pos.id by lia.
  do 2 f_equal. lia.
Qed.

Lemma SFltb_finite_false m e m' e' :
  SFltb (S754_finite false m e) (S754_finite false m' e') = false →
  e' < e ∨ (e = e' ∧ Z.pos m' ≤ Z.pos m).
Proof.
  unfold SFltb, SFcompare.
  destruct (Z.compare_spec e e') as [->|Hlt|Hgt]; [|done|by left].
  change (Pos.compare_cont Eq m m') with (m ?= m')%positive.
  destruct (Pos.compare_spec m m') as [->|Hlt|]; [|done|]; intros _; right; lia.
Qed.

(** A double that is not above one, as a mantissa and an exponent. *)
Lemma at_most_one_finite m e :
  SpecFloat.bounded prec emax m e = true →
  e < -52 ∨ (e = -52 ∧ Z.pos m ≤ 2 ^ 52) →
  e ≤ 0 ∧ Z.pos m ≤ 2 ^ (- e).
Proof.
  intros Hb [He|[-> Hm]]; [|done].
  split; [lia|].
  apply andb_true_iff in Hb as [Hcan _]. apply Z.eqb_eq in Hcan.
  unfold fexp, SpecFloat.emin, prec, emax in Hcan.
  pose proof (digits2_pos_bounds m) as [_ Hm].
  assert (2 ^ Z.pos (digits2_pos m) ≤ 2 ^ (- e)) by (apply Z.pow_le_mono_r; lia).
  lia.
Qed.

(** The factor the count is computed from: a double that is zero or
    positive and at most one. *)
Lemma support_factor (s : float) :
  (0 <? s)%float = true → (s <=? 1)%float = true →
  ∃ m e, Prim2SF s = S754_finite false m e ∧ e ≤ 0 ∧ Z.pos m ≤ 2 ^ (- e).
Proof.
  intros H0 H1. apply ltb_zero_sign_clear in H0.
  pose proof (Prim2SF_valid s) as Hv. rewrite leb_spec, Prim2SF_one in H1.
  destruct (Prim2SF s) as [sg|[]| |[] m e]; try done.
  exists m, e. split; [done|]. apply at_most_one_finite; [done|].
  apply SFleb_finite in H1. lia.
Qed.

Lemma min_one_factor (x : float) :
  sign_clear (Prim2SF x) → Prim2SF x ≠ S754_nan →
  match Prim2SF (Py.min x 1) with
  | S754_zero _ => True
  | S754_finite false m e => e ≤ 0 ∧ Z.pos m ≤ 2 ^ (- e)
  | _ => False
  end.
Proof.
  intros Hs Hn. unfold Py.min. destruct (1 <? x)%float eqn:Hlt.
  - rewrite Prim2SF_one. done.
  - pose proof (Prim2SF_valid x) as Hv. rewrite ltb_spec, Prim2SF_one in Hlt.
    destruct (Prim2SF x) as [sg|sg| |sg m e]; try done.
    + by destruct sg.
    + simpl in Hs. subst sg. apply at_most_one_finite; [done|].
      apply SFltb_finite_false in Hlt. lia.
Qed.

(** The arithmetic of the compensation never leaves the numbers: with a
    finite left operand and a number on the right, a product, a quotient
    and a difference are numbers. *)
Lemma SFmul_finite_number s m e y :
  y ≠ S754_nan → SFmul prec emax (S754_finite s m e) y ≠ S754_nan.
Proof.
  destruct y as [sy|sy| |sy my ey]; try done. intros _. cbn [SFmul].
  by apply binary_round_aux_number.
Qed.

Lemma binary_normalize_number m e szero :
  binary_normalize prec emax m e szero ≠ S754_nan.
Proof.
  destruct m as [|p|p]; [done| |]; cbn [binary_normalize]; unfold binary_round;
    destruct (shl_align _ _ _); by apply binary_round_aux_number.
Qed.

Lemma SFsub_finite_number s m e y :
  y ≠ S754_nan → SFsub prec emax (S754_finite s m e) y ≠ S754_nan.
Proof.
  destruct y as [sy|sy| |sy my ey]; try done. intros _. cbn [SFsub].
  apply binary_normalize_number.
Qed.

Lemma adjusted_support_number (ts nr : float) :
  (0 <? ts)%float = true → (ts <=? 1)%float = true →
  (0 <? nr)%float = true → (nr <? 1)%float = true →
  Prim2SF (ts * (1 / (1 - nr * 0.7)))%float ≠ S754_nan.
Proof.
  intros Ht0 Ht1 Hn0 Hn1.
  destruct (support_factor ts Ht0 Ht1) as (mt & et & Hts & _).
  destruct (below_one_exponent nr Hn0 Hn1) as (mn & en & Hnr & _).
  rewrite mul_spec, Hts. apply SFmul_finite_number.
  rewrite div_spec, Prim2SF_one. apply SFdiv_finite_number.
  rewrite sub_spec, Prim2SF_one. apply SFsub_finite_number.
  rewrite mul_spec, Hnr. apply SFmul_finite_number.
  rewrite Prim2SF_07. done.
Qed.

Lemma is_infinity_false (f : float) :
  match Prim2SF f with S754_zero _ | S754_finite _ _ _ => True | _ => False end →
  is_infinity f = false.
Proof.
  unfold is_infinity. rewrite FloatAxioms.eqb_spec, abs_spec.
  by destruct (Prim2SF f).
Qed.

(** The product [n * x] of a count below 2^53 with such a factor, once
    truncated by [int], lies between 0 and the count. *)
Lemma int_mul_factor T (s : float) :
  0 ≤ T < 2 ^ 53 →
  match Prim2SF s with
  | S754_zero _ => True
  | S754_finite false m e => e ≤ 0 ∧ Z.pos m ≤ 2 ^ (- e)
  | _ => False
  end →
  ∃ x n, int_mul_float T s = Ok x ∧ Py.int x = Ok n ∧ 0 ≤ n ≤ T.
Proof.
  intros HT Hs. unfold int_mul_float, float_of_int.
  set (f := SF2Prim (binary_normalize prec emax T 0 false)).
  assert (match Prim2SF f with
          | S754_zero _ => T = 0
          | S754_finite false m e => e ≤ 0 ∧ Z.pos m = T * 2 ^ (- e)
          | _ => False
          end) as Hf.
  { subst f. destruct (Z.eq_dec T 0) as [->|HT0].
    - cbn [binary_normalize]. by rewrite Prim2SF_SF2Prim.
    - destruct (binary_normalize_normal53 T ltac:(lia)) as [_ Hv].
      rewrite (Prim2SF_SF2Prim _ Hv).
      destruct (binary_normalize_exact T ltac:(lia)) as (m & e & -> & He & Hm). done. }
  rewrite is_infinity_false by (by destruct (Prim2SF f) as [?|?| |[] ? ?]).
  exists (f * s)%float. unfold Py.int. rewrite mul_spec. unfold SF64mul.
  destruct (Prim2SF f) as [sf|sf| |[] mT eT]; try done.
  - subst T. exists 0.
    destruct (Prim2SF s) as [ss|ss| |[] ms es]; try done.
  - destruct Hf as [HeT HmT].
    destruct (Prim2SF s) as [ss|ss| |[] ms es]; try done.
    + exists 0. split; [done|]. split; [done|]. lia.
    + destruct Hs as [Hes Hms]. cbn [SFmul xorb].
      assert (Z.pos (mT * ms) ≤ T * 2 ^ (- (eT + es))) as Hle.
      { rewrite Pos2Z.inj_mul, HmT.
        assert (2 ^ (- (eT + es)) = 2 ^ (- eT) * 2 ^ (- es)) as ->
          by (rewrite <- Z.pow_add_r by lia; f_equal; lia).
        assert (0 < 2 ^ (- eT)) by (apply Z.pow_pos_nonneg; lia). nia. }
      pose proof (round_product_le (Z.pos (mT * ms)) (eT + es) T
                    ltac:(done) ltac:(lia) HT Hle) as Hr.
      pose proof (binary_round_aux_sign false (Z.pos (mT * ms)) (eT + es) loc_Exact) as Hsg.
      destruct (binary_round_aux _ _ _ _ _ _) as [sr|sr| |sr mr er]; try done.
      * exists 0. split; [done|]. split; [done|]. lia.
      * simpl in Hsg. subst sr. eexists. split; [done|]. split; [reflexivity|]. done.
Qed.

(** For a valid support and noise ratio the count is computed without an
    exception and lies between 0 and the number of transactions. *)
Lemma num_injections_Ok (self : PatternInjector.t) ts nr :
  0 ≤ PatternInjector.num_transactions self < 2 ^ 53 →
  (0 <? ts)%float = true → (ts <=? 1)%float = true →
  (nr <? 1)%float = true →
  ∃ n, num_injections self ts nr = Ok n ∧ 0 ≤ n ≤ PatternInjector.num_transactions self.
Proof.
  intros HT Ht0 Ht1 Hn1. unfold num_injections.
  destruct (0 <? nr)%float eqn:Hn0.
  - destruct (int_mul_factor (PatternInjector.num_transactions self)
                (Py.min (ts * (1 / (1 - nr * 0.7))) 1) HT) as (x & n & -> & -> & Hn).
    + apply min_one_factor; [|by apply adjusted_support_number].
      apply mul_sign_clear; [by apply positive_sign_clear|].
      by apply compensation_sign_clear.
    + by exists n.
  - destruct (int_mul_factor (PatternInjector.num_transactions self) ts HT)
      as (x & n & -> & -> & Hn).
    + by destruct (support_factor ts Ht0 Ht1) as (m & e & -> & He).
    + by exists n.
Qed.

End InjectionCount.

(** X16.  With fewer than 2^53 transactions, a valid support and a valid
    noise ratio, the number of transactions to inject into is computed
    without an exception and is at least 0 and at most [num_transactions]:
    the compensation for noise never asks for more transactions than there
    are. *)
Theorem num_injections_in_range (self : PatternInjector.t) (l : list Z)
  (ts nr : float) :
  valid_call self l ts nr →
  (0 ≤ PatternInjector.num_transactions self < 2 ^ 53)%Z →
  ∃ n, num_injections self ts nr = Ok n ∧
       (0 ≤ n ≤ PatternInjector.num_transactions self)%Z.
Proof.
  intros (_ & _ & [Ht0 Ht1] & [_ Hn1]) HT. by apply num_injections_Ok.
Qed.

Lemma num_injections_in_range_witness :
  ∃ n, num_injections test_injector 0.1 0.5 = Ok n ∧ (0 ≤ n ≤ 1000)%Z.
Proof.
  apply (num_injections_in_range test_injector test_pattern 0.1 0.5).
  - by apply (test_valid_call 0.5).
  - by vm_compute.
Defined.

(** ** Injections that return *)

Lemma advance_zero g : advance g 0 = g.
Proof. destruct g. unfold advance. simpl. f_equal; lia. Qed.

(** The outer loop on rows of the matrix and columns in range: it
    returns and keeps the shape. *)
Lemma inject_rows_Ok nr idxs cols a g :
  wf a → Forall (λ r, r < shape0 a) idxs → Forall (λ c, c < ncols a) cols →
  ∃ a',
    inject_rows nr idxs (Z.of_nat <$> cols) {| arr := a; rng := g |}
    = (Ok tt, {| arr := a'; rng := advance g (length idxs * length cols) |}) ∧
    wf a' ∧ shape0 a' = shape0 a ∧ ncols a' = ncols a.
Proof.
  intros Hwf Hidx Hcols. revert a g Hwf Hidx Hcols.
  induction idxs as [|r idxs IH]; intros a g Hwf Hidx Hcols.
  - exists a. simpl. rewrite run_ret, advance_zero. done.
  - apply Forall_cons in Hidx as [Hr Hidx].
    destruct (lookup_lt_is_Some_2 (rows a) r Hr) as [row Hrow].
    destruct (inject_items_run nr r cols a g row Hwf Hrow Hcols) as (row' & Hrun & Hlen & _).
    cbn [inject_rows]. rewrite run_bind, Hrun.
    set (a1 := {| ncols := ncols a; rows := <[r := row']> (rows a) |}).
    assert (shape0 a1 = shape0 a) as Hs1
      by (unfold shape0, a1; cbn [rows]; by rewrite length_insert).
    destruct (IH a1 (advance g (length cols))) as (a' & Hrun' & Hwf' & Hs' & Hc').
    + by eapply wf_insert_row.
    + by rewrite Hs1.
    + done.
    + exists a'. rewrite Hrun', advance_advance. split.
      { do 3 f_equal; simpl; lia. }
      split; [done|]. split; [congruence|]. by rewrite Hc'.
Qed.

(** Items in range are column numbers. *)
Lemma items_columns (l : list Z) n :
  Forall (λ item, 0 ≤ item < n)%Z l →
  l = Z.of_nat <$> (Z.to_nat <$> l) ∧ Forall (λ c, c < Z.to_nat n) (Z.to_nat <$> l).
Proof.
  induction 1 as [|x l Hx _ [IH1 IH2]]; [done|]. cbn [fmap list_fmap]. split.
  - rewrite Z2Nat.id by lia. f_equal. exact IH1.
  - constructor; [lia|done].
Qed.

(** A valid call on a matrix of the injector's shape returns and keeps the
    shape. *)
Lemma inject_pattern_Ok self l ts nr w :
  valid_call self l ts nr →
  (0 ≤ PatternInjector.num_transactions self < 2 ^ 53)%Z →
  wf (arr w) →
  shape0 (arr w) = Z.to_nat (PatternInjector.num_transactions self) →
  ncols (arr w) = Z.to_nat (PatternInjector.num_items self) →
  ∃ w',
    inject_pattern self l ts nr w = (Ok tt, w') ∧
    wf (arr w') ∧ shape0 (arr w') = shape0 (arr w) ∧ ncols (arr w') = ncols (arr w).
Proof.
  intros Hvalid HT Hwf Hs Hc.
  pose proof Hvalid as (_ & Hitems & [Ht0 Ht1] & [_ Hn1]).
  destruct (num_injections_Ok self ts nr HT Ht0 Ht1 Hn1) as (n & Hn & Hrange).
  rewrite inject_pattern_valid by done. rewrite run_bind. unfold lift. rewrite Hn.
  cbv beta iota.
  destruct (Z.eqb_spec n 0) as [->|Hn0].
  - exists w. by rewrite run_ret.
  - destruct w as [a g]. cbn [arr rng] in *.
    destruct (choice_run (PatternInjector.num_transactions self) n a g ltac:(lia))
      as (idxs & Hchoice & Hlen & _ & Hidx).
    rewrite run_bind, Hchoice.
    destruct (items_columns l _ Hitems) as [Hl Hcols].
    rewrite Hl.
    destruct (inject_rows_Ok nr idxs (Z.to_nat <$> l) a (advance g (Z.to_nat n)))
      as (a' & Hrun & Hwf' & Hs' & Hc'); [done|by rewrite Hs|by rewrite Hc|].
    rewrite Hrun. eexists. split; [done|]. done.
Qed.

Lemma inject_pattern_Ok_valid self l ts nr w :
  (inject_pattern self l ts nr w).1 = Ok tt → valid_call self l ts nr.
Proof.
  unfold inject_pattern. case_bool_decide; [done|].
  destruct (invalid_items self l) eqn:Hinv; [done|].
  destruct (valid_support ts) eqn:Hs; [|done].
  destruct (valid_noise nr) eqn:Hnr; [|done]. intros _.
  split; [done|]. split; [by apply invalid_items_false|].
  unfold valid_support, valid_noise in *.
  apply andb_true_iff in Hs, Hnr. done.
Qed.

Lemma inject_multiple_Ok self ps w :
  (0 ≤ PatternInjector.num_transactions self < 2 ^ 53)%Z →
  wf (arr w) →
  shape0 (arr w) = Z.to_nat (PatternInjector.num_transactions self) →
  ncols (arr w) = Z.to_nat (PatternInjector.num_items self) →
  Forall (valid_pattern self) ps →
  ∃ w', inject_multiple_patterns self ps w = (Ok tt, w') ∧
        wf (arr w') ∧ shape0 (arr w') = shape0 (arr w) ∧ ncols (arr w') = ncols (arr w).
Proof.
  intros HT Hwf Hs Hc Hall. revert w Hwf Hs Hc.
  induction Hall as [|p ps Hp _ IH]; intros w Hwf Hs Hc.
  - exists w. simpl. by rewrite run_ret.
  - destruct (inject_pattern_Ok self _ _ _ w Hp HT Hwf Hs Hc)
      as (w1 & Hrun & Hwf1 & Hs1 & Hc1).
    destruct (IH w1 Hwf1 ltac:(congruence) ltac:(congruence)) as (w' & Hrun' & Hwf' & Hs' & Hc').
    exists w'. cbn [inject_multiple_patterns]. rewrite run_bind, Hrun, Hrun'.
    split; [done|]. split; [done|]. split; congruence.
Qed.

Lemma inject_multiple_Ok_valid self ps w :
  (inject_multiple_patterns self ps w).1 = Ok tt → Forall (valid_pattern self) ps.
Proof.
  revert w. induction ps as [|p ps IH]; intros w; [constructor|].
  simpl. rewrite run_bind.
  destruct (inject_pattern self _ _ _ w) as [[[]|e] w1] eqn:Hp; [|done].
  intros Hrest. constructor; [|by eapply IH].
  eapply inject_pattern_Ok_valid. by rewrite Hp.
Qed.

(** X17.  On a matrix of the injector's shape, and with fewer than 2^53
    transactions, [inject_multiple_patterns] returns exactly when every
    pattern is valid; it then keeps the shape of the matrix. *)
Theorem inject_returns_iff_valid (self : PatternInjector.t) (ps : list pattern)
  (w : world) :
  (0 ≤ PatternInjector.num_transactions self < 2 ^ 53)%Z →
  wf (arr w) →
  shape0 (arr w) = Z.to_nat (PatternInjector.num_transactions self) →
  ncols (arr w) = Z.to_nat (PatternInjector.num_items self) →
  ((inject_multiple_patterns self ps w).1 = Ok tt ↔ Forall (valid_pattern self) ps) ∧
  (Forall (valid_pattern self) ps →
   shape0 (arr (inject_multiple_patterns self ps w).2) = shape0 (arr w) ∧
   ncols (arr (inject_multiple_patterns self ps w).2) = ncols (arr w)).
Proof.
  intros HT Hwf Hs Hc. split; [split|].
  - apply inject_multiple_Ok_valid.
  - intros Hall.
    by destruct (inject_multiple_Ok self ps w HT Hwf Hs Hc Hall) as (w' & -> & _).
  - intros Hall.
    by destruct (inject_multiple_Ok self ps w HT Hwf Hs Hc Hall) as (w' & -> & _ & ? & ?).
Qed.

Lemma inject_returns_iff_valid_witness :
  (inject_multiple_patterns small_injector [good_pattern]
     {| arr := small; rng := halves_rng |}).1 = Ok tt.
Proof.
  refine (proj2 (proj1 (inject_returns_iff_valid small_injector [good_pattern]
                  {| arr := small; rng := halves_rng |}
                  ltac:(by vm_compute) ltac:(by repeat constructor)
                  eq_refl eq_refl)) _).
  constructor; [|constructor].
  split; [done|]. split; [repeat constructor; lia|]. by vm_compute.
Defined.

(** ** Generation with valid patterns *)

Lemma zeros_Ok t i z : zeros t i = Ok z → (0 ≤ t)%Z ∧ (0 ≤ i)%Z.
Proof. unfold zeros. destruct (Z.ltb_spec t 0), (Z.ltb_spec i 0); (done || lia). Qed.

(** X18.  Valid patterns never make [generate] fail: with fewer than 2^53
    transactions and valid patterns, [generate] raises what the same
    generator without patterns raises, and where that one returns a base
    matrix, it returns a matrix of the same shape in which no cell is
    smaller. *)
Theorem valid_patterns_keep_generation `{Numerics} `{Seeding}
  (self : DataGenerator.t) (seed : option Z) (g : Rng) :
  (num_transactions (meta (cfg self)) < 2 ^ 53)%Z →
  Forall (valid_pattern (injector self)) (patterns self) →
  match (generate (without_patterns self) seed g).1.1 with
  | Ok base => ∃ m, (generate self seed g).1.1 = Ok m ∧ grows base m
  | Raise e => (generate self seed g).1.1 = Raise e
  end.
Proof.
  intros HT Hall. unfold generate.
  change (patterns (without_patterns self)) with (@nil pattern).
  cbn [cfg without_patterns meta dist_config].
  destruct (match seed with Some s => seed_rng s g | None => (Ok (), g) end)
    as [[[]|e] g0]; [|done].
  destruct (generate_item_frequencies _ _ _) as [item_probs|e]; [|done].
  destruct (_generate_transactions _ _ _) as [[base|e] g1] eqn:Hbase; [|done].
  cbn [fst].
  destruct (patterns self) as [|p ps] eqn:Hps.
  { exists base. split; [done|apply grows_refl]. }
  destruct (generate_transactions_Ok _ _ _ _ _ Hbase) as (z & w0 & Hz & Hrows & ->).
  pose proof (sample_rows_only_sets (meta (cfg self)) item_probs
                (seq 0 (Z.to_nat (num_transactions (meta (cfg self)))))
                {| arr := z; rng := g0 |}) as Hs.
  rewrite Hrows in Hs. cbn [arr snd] in Hs.
  destruct (Hs (zeros_binary _ _ _ Hz)) as [Hb0 Hg0].
  destruct (grows_shape _ _ Hg0) as [Hs0 Hc0].
  destruct (zeros_shape _ _ _ Hz) as [Hzs Hzc].
  destruct (zeros_Ok _ _ _ Hz) as [HT0 _].
  destruct (inject_multiple_Ok (injector self) (p :: ps) {| arr := arr w0; rng := g1 |})
    as (w' & Hrun & _); cbn [arr injector PatternInjector.num_transactions
                              PatternInjector.num_items].
  - lia.
  - eapply grows_wf; [|exact Hg0]. by eapply zeros_wf.
  - congruence.
  - congruence.
  - done.
  - pose proof (inject_multiple_only_sets (injector self) (p :: ps)
                  {| arr := arr w0; rng := g1 |}) as Hi.
    rewrite Hrun in *. cbn [arr snd fst] in *.
    destruct (Hi Hb0) as [_ Hg1]. by exists (arr w').
Qed.

Lemma valid_patterns_keep_generation_witness :
  ∃ base m,
    (@generate left_sum counting (without_patterns (init small_config)) (Some 7%Z)
       ones_rng).1.1 = Ok base ∧
    (@generate left_sum counting (init small_config) (Some 7%Z) ones_rng).1.1 = Ok m ∧
    grows base m.
Proof.
  assert (Forall (valid_pattern (injector (init small_config)))
            (patterns (init small_config))) as Hvalid.
  { constructor; [|constructor].
    split; [done|]. split; [repeat constructor; lia|]. by vm_compute. }
  assert ((num_transactions (meta (cfg (init small_config))) < 2 ^ 53)%Z) as HT by (by vm_compute).
  pose proof (@valid_patterns_keep_generation left_sum counting (init small_config)
                (Some 7%Z) ones_rng HT Hvalid) as Hgen.
  remember (@generate left_sum counting (without_patterns (init small_config)) (Some 7%Z)
              ones_rng).1.1 as b eqn:Hb.
  destruct b as [base|e]; [|vm_compute in Hb; discriminate Hb].
  destruct Hgen as (m & Hm & Hg). exists base, m.
  split; [reflexivity|]. split; [exact Hm|exact Hg].
Defined.

(** ** Where the items of a generated dataset come from *)

Lemma positive_entries_elem p c :
  c ∈ positive_entries p ↔ ∃ x, p !! c = Some x ∧ (0 <? x)%float = true.
Proof.
  unfold positive_entries. rewrite list_elem_of_filter, elem_of_seq. split.
  - intros [Hx _]. destruct (p !! c) as [x|]; [|done]. by exists x.
  - intros (x & Hx & Hpos). rewrite Hx. split; [done|].
    apply lookup_lt_Some in Hx. lia.
Qed.

(** An item of the base matrix has a non-zero probability. *)
Lemma generate_transactions_items m p g base g' r c :
  _generate_transactions m p g = (Ok base, g') →
  cell base r c = 1%Z → c ∈ positive_entries p.
Proof.
  intros Hbase Hcell.
  destruct (generate_transactions_Ok _ _ _ _ _ Hbase) as (z & w0 & Hz & Hrows & ->).
  destruct (sample_rows_Ok _ _ _ {| arr := z; rng := g |} _
              (zeros_wf _ _ _ Hz) (zeros_binary _ _ _ Hz) (NoDup_seq _ _) Hrows)
    as (_ & _ & _ & Hother & Hsel).
  cbn [arr] in *.
  assert (∀ r0 c0, cell z r0 c0 = 0%Z) as Hzero.
  { intros r0 c0. unfold cell.
    destruct (rows z !! r0) as [row|] eqn:Hrow; [|done]. simpl.
    destruct (row !! c0) as [v|] eqn:Hv; [|done]. simpl.
    pose proof (zeros_binary _ _ _ Hz) as Hb.
    unfold zeros in Hz. case_match; [done|]. injection Hz as <-. cbn [rows] in Hrow.
    apply lookup_replicate in Hrow as [-> _].
    by apply lookup_replicate in Hv as [-> _]. }
  destruct (decide (r ∈ seq 0 (Z.to_nat (num_transactions m)))) as [Hr|Hr].
  - destruct (Hsel r Hr) as (wi & l & sel & _ & _ & _ & _ & Hpos & _ & _ & Hcells).
    rewrite Hcells, Hzero in Hcell. case_decide; [by apply Hpos|done].
  - rewrite Hother, Hzero in Hcell; done.
Qed.

(** X19.  An item occurs in a transaction of a generated dataset only if
    the distribution gives it a non-zero probability or it is an item of
    a configured pattern. *)
Theorem generated_items_origin `{Numerics} `{Seeding} (self : DataGenerator.t)
  (seed : option Z) (g : Rng) (m : ndarray) (r c : nat) :
  (generate self seed g).1.1 = Ok m →
  cell m r c = 1%Z →
  Z.of_nat c ∈ concat (items <$> patterns self) ∨
  ∃ item_probs x,
    generate_item_frequencies (num_items (meta (cfg self)))
      (method (dist_config (cfg self))) (params (dist_config (cfg self)))
    = Ok item_probs ∧
    item_probs !! c = Some x ∧ (0 <? x)%float = true.
Proof.
  intros Hgen Hcell.
  destruct (decide (Z.of_nat c ∈ concat (items <$> patterns self))) as [|Hout];
    [by left|right].
  revert Hgen. unfold generate.
  destruct (match seed with Some s => seed_rng s g | None => (Ok (), g) end)
    as [[[]|e] g0]; [|done].
  destruct (generate_item_frequencies _ _ _) as [item_probs|]; [|done].
  destruct (_generate_transactions _ _ _) as [[base|] g1] eqn:Hbase; [|done].
  assert (cell base r c = 1%Z → ∃ item_probs0 x,
            Ok item_probs = Ok item_probs0 ∧ item_probs0 !! c = Some x ∧
            (0 <? x)%float = true) as Hfrom.
  { intros Hb. apply (generate_transactions_items _ _ _ _ _ _ _ Hbase) in Hb.
    apply positive_entries_elem in Hb as (x & Hx & Hpos). by exists item_probs, x. }
  destruct (patterns self) as [|p ps] eqn:Hps.
  - simpl. intros [= <-]. by apply Hfrom.
  - pose proof (inject_multiple_same_outside (injector self) _ (p :: ps) (reflexivity _)
                  {| arr := base; rng := g1 |} r c Hout) as Hsame.
    destruct (inject_multiple_patterns _ _ _) as [[[]|e] w] eqn:Hinj; [|done].
    simpl. intros [= <-]. cbn [arr snd] in Hsame. apply Hfrom. congruence.
Qed.

Lemma generated_items_origin_witness :
  ∃ m, (@generate left_sum counting (init small_config) (Some 7%Z) ones_rng).1.1 = Ok m ∧
       cell m 0 0 = 1%Z ∧
       ∃ item_probs x,
         @generate_item_frequencies left_sum 5 "random" (Some ∅) = Ok item_probs ∧
         item_probs !! 0 = Some x ∧ (0 <? x)%float = true.
Proof.
  eexists. split; [vm_compute; reflexivity|]. split; [vm_compute; reflexivity|].
  destruct (@generated_items_origin left_sum counting (init small_config) (Some 7%Z)
              ones_rng _ 0 0 ltac:(vm_compute; reflexivity) ltac:(vm_compute; reflexivity))
    as [Hin|Hex]; [|exact Hex].
  exfalso. revert Hin. apply (bool_decide_unpack _). vm_compute. exact I.
Defined.

(** ** What [read_spmf] never returns *)

Section ReadSpmf.
Context `{Str.Text}.
Import Str.

Lemma split_from_tokens word s :
  Forall (λ c, isspace c = false) word → Forall token (split_from word s).
Proof.
  revert word. induction s as [|c s IH]; intros word Hword; simpl.
  - destruct word as [|c0 word]; [constructor|]. constructor; [|constructor].
    split; [|by apply Forall_reverse].
    intros Hnil. apply (f_equal length) in Hnil. rewrite length_reverse in Hnil. done.
  - destruct (isspace c) eqn:Hc.
    + destruct word as [|c0 word]; [by apply IH|]. constructor; [|by apply IH].
      split; [|by apply Forall_reverse].
      intros Hnil. apply (f_equal length) in Hnil. rewrite length_reverse in Hnil. done.
    + apply IH. by constructor.
Qed.

Lemma split_from_nonempty word s :
  word ≠ [] ∨ Exists (λ c, isspace c = false) s → split_from word s ≠ [].
Proof.
  revert word. induction s as [|c s IH]; intros word Hex; simpl.
  - destruct Hex as [Hw|Hex]; [by destruct word|by apply Exists_nil in Hex].
  - destruct (isspace c) eqn:Hc.
    + destruct word as [|c0 word]; [|done]. apply IH. right.
      destruct Hex as [Hw|Hex]; [done|].
      apply Exists_cons in Hex as [Hex|Hex]; [congruence|done].
    + apply IH. by left.
Qed.

Lemma lstrip_head s :
  match lstrip s with [] => True | c :: _ => isspace c = false end.
Proof. induction s as [|c s IH]; simpl; [done|]. by destruct (isspace c) eqn:Hc. Qed.

Lemma strip_nonempty s :
  strip s ≠ [] → Exists (λ c, isspace c = false) (strip s).
Proof.
  unfold strip. pose proof (lstrip_head (reverse (lstrip s))) as Hh.
  destruct (lstrip (reverse (lstrip s))) as [|c u]; [done|]. intros _.
  rewrite reverse_cons. apply Exists_app. right. by constructor.
Qed.

(** The guard [if x.strip()] of [read_spmf] never drops a field: what
    [split] returns are runs without whitespace. *)
Lemma split_fields line :
  filter (λ x, strip x ≠ []) (split line) = split line ∧
  (strip line ≠ [] → split (strip line) ≠ []).
Proof.
  split.
  - apply filter_all. eapply Forall_impl; [by apply (split_from_tokens [] line)|].
    intros x Hx. simpl. rewrite strip_token by done. apply Hx.
  - intros Hne. apply split_from_nonempty. right. by apply strip_nonempty.
Qed.

Lemma ints_nonempty xs ns : xs ≠ [] → ints xs = Ok ns → ns ≠ [].
Proof.
  destruct xs as [|x xs]; [done|]. intros _. simpl.
  destruct (int x); [|done]. destruct (ints xs); [|done]. by intros [= <-].
Qed.

(** X20.  [read_spmf] never returns an empty transaction: a line that is
    not blank has at least one field, and the guard [if x.strip()] drops
    none. *)
Theorem read_spmf_no_empty_transaction (content : list char)
  (transactions : list (list Z)) :
  FileIO.read_spmf content = Ok transactions →
  Forall (λ t, t ≠ []) transactions.
Proof.
  unfold FileIO.read_spmf. generalize (lines content). intros ls.
  revert transactions. induction ls as [|line ls IH]; intros ts; simpl.
  - by intros [= <-].
  - destruct (strip line) as [|c s] eqn:Hline; [apply IH|].
    destruct (split_fields (c :: s)) as [Hfilter _].
    destruct (split_fields line) as [_ Hsplit].
    rewrite Hline in Hsplit. rewrite Hfilter.
    destruct (ints (split (c :: s))) as [items|] eqn:Hitems; [|done].
    destruct (FileIO.read_lines ls) as [rest|]; [|done]. intros [= <-].
    constructor; [|by apply IH].
    eapply ints_nonempty; [|exact Hitems]. by apply Hsplit.
Qed.

End ReadSpmf.

Lemma read_spmf_no_empty_transaction_witness :
  ∃ transactions,
    @FileIO.read_spmf ascii_text (@FileIO.write_spmf ascii_text [[]; [4; 2]; []]%Z)
    = Ok transactions ∧
    Forall (λ t, t ≠ []) transactions.
Proof.
  eexists. split; [vm_compute; reflexivity|].
  apply (@read_spmf_no_empty_transaction ascii_text
           (@FileIO.write_spmf ascii_text [[]; [4; 2]; []]%Z)).
  vm_compute. reflexivity.
Defined.
